(** * app_download_analyzer: theme classification, trend analysis and
    time series, embedded from the Go sources.

    - [internal/analysis] (themes, trends): [LoadThemeConfig],
      [NewThemeClassifier], [Classify], [AnalyzeTrends], [meanStd],
      [zscore], [sortTrends], [averageThemes];
    - [internal/store]: the [Snapshot] and [ChartItem] rows and the three
      queries the analysis entry points issue;
    - [cmd/app_download_analyzer]: [computeReport], [computeTimeSeries],
      [groupSnapshotsByDate], [uniqueThemes], [buildTopApps].

    Go's [int] is a 64-bit two's complement integer: it is a [Z] here, and
    every arithmetic operation of the source wraps explicitly.  Go's
    [float64] is IEEE-754 binary64: it is Rocq's primitive [float], whose
    operations are the correctly rounded binary64 operations (each
    operation rounded on its own, as the Go compiler does on amd64).
    Go maps are stdpp's [gmap], Go's [map[string]bool] used as a set is a
    [gset]. *)

From Stdlib Require Import ZArith String Ascii List Bool Lia DecimalString.
From Stdlib Require Import Floats Uint63.
From stdpp Require Import base option list gmap strings sorting.

Local Open Scope Z_scope.

(** ** Errors and results *)

Inductive error : Type :=
| ErrNotExist                 (* fs.ErrNotExist, recognised by os.IsNotExist *)
| ErrNoRows                   (* sql.ErrNoRows *)
| errorString (msg : string). (* fmt.Errorf and every other failure *)

Definition os_IsNotExist (e : error) : bool :=
  match e with ErrNotExist => true | _ => false end.

Definition errors_Is_ErrNoRows (e : error) : bool :=
  match e with ErrNoRows => true | _ => false end.

(** A Go call returning [(T, error)]: [Ok v] is [(v, nil)], [Err e] is
    [(zero, e)], and [Panic] is a run-time panic (it unwinds the caller). *)
Inductive result (A : Type) : Type :=
| Ok (v : A)
| Err (e : error)
| Panic.
Arguments Ok {A} v.
Arguments Err {A} e.
Arguments Panic {A}.

Definition bind {A B} (r : result A) (k : A -> result B) : result B :=
  match r with
  | Ok v => k v
  | Err e => Err e
  | Panic => Panic
  end.

Notation "x <- r ;; k" := (bind r (fun x => k))
  (at level 100, r at next level, right associativity).

Definition is_Err {A} (r : result A) : bool :=
  match r with Err _ => true | _ => false end.

(** ** Go's [int] *)

Definition wrap64 (z : Z) : Z := (z + 2 ^ 63) mod 2 ^ 64 - 2 ^ 63.
Definition int_add (a b : Z) : Z := wrap64 (a + b).
Definition int_sub (a b : Z) : Z := wrap64 (a - b).
Definition in_int (z : Z) : Prop := - 2 ^ 63 <= z < 2 ^ 63.

(** [float64(n)] for an [int] [n]: the nearest binary64, ties to even.
    [of_uint63] covers [0 <= n < 2^63]; negative values go through their
    opposite, and [-2^63], whose opposite is not an [int], is a power of
    two. *)
Definition float64_of_int (n : Z) : float :=
  if n <? 0 then
    if n =? - 2 ^ 63 then (- 0x1p63)%float
    else (- PrimFloat.of_uint63 (Uint63.of_Z (- n)))%float
  else PrimFloat.of_uint63 (Uint63.of_Z n).

(** [len(s)] as an [int]. *)
Definition len {A} (l : list A) : Z := Z.of_nat (length l).

(** ** The [strings] functions the classifier uses

    Go strings are byte sequences, as Rocq's [string] is.  [ToLower] and
    [TrimSpace] are given on ASCII, where they are what Go computes; on a
    string with bytes above 127 Go also maps the upper-case letters and the
    white space of the other Unicode blocks, which are left as they are
    here. *)

Definition is_upper (c : ascii) : bool :=
  ((65 <=? nat_of_ascii c) && (nat_of_ascii c <=? 90))%nat.

Definition lower_byte (c : ascii) : ascii :=
  if is_upper c then ascii_of_nat (nat_of_ascii c + 32) else c.

Fixpoint ToLower (s : string) : string :=
  match s with
  | EmptyString => EmptyString
  | String c r => String (lower_byte c) (ToLower r)
  end.

(* '\t', '\n', '\v', '\f', '\r', ' ' *)
Definition is_space (c : ascii) : bool :=
  let n := nat_of_ascii c in
  ((9 <=? n) && (n <=? 13) || (n =? 32))%nat.

Fixpoint trim_left (s : string) : string :=
  match s with
  | String c r => if is_space c then trim_left r else s
  | EmptyString => EmptyString
  end.

Fixpoint trim_right (s : string) : string :=
  match s with
  | EmptyString => EmptyString
  | String c r =>
      match trim_right r with
      | EmptyString => if is_space c then EmptyString else String c EmptyString
      | r' => String c r'
      end
  end.

Definition TrimSpace (s : string) : string := trim_right (trim_left s).

(** [strings.Contains(s, substr)]: [substr] occurs in [s]. *)
Fixpoint Contains (s substr : string) : bool :=
  String.prefix substr s
  || match s with
     | EmptyString => false
     | String _ r => Contains r substr
     end.

Definition is_empty (s : string) : bool :=
  match s with EmptyString => true | _ => false end.

(** [sort.Strings]: ascending byte-wise order.  The order is total and
    equal strings are indistinguishable, so the sorted slice is determined
    by its elements; insertion sort computes it. *)
Fixpoint insert_sorted (x : string) (l : list string) : list string :=
  match l with
  | [] => [x]
  | y :: r => if String.leb x y then x :: l else y :: insert_sorted x r
  end.

Definition sort_Strings (l : list string) : list string :=
  foldr insert_sorted [] l.

(** ** internal/analysis: theme rules *)

Module ThemeRule.
Record t := mk {
  Theme : string;
  GenreIDs : list string;
  Genres : list string;
  Keywords : list string }.
End ThemeRule.

Record ThemeConfig := {
  Rules : list ThemeRule.t;
  RiskOn : list string;
  RiskOff : list string }.

Definition defaultThemeConfig : ThemeConfig :=
  let rule t ids gs := ThemeRule.mk t ids gs [] in
  {| Rules := [
       rule "games" ["6014"] ["games"];
       rule "entertainment" ["6016"; "6011"; "6008"; "6005"]
            ["entertainment"; "music"; "photo"; "social networking"];
       rule "commerce" ["6024"; "6023"] ["shopping"; "food"; "drink"; "food & drink"];
       rule "travel" ["6003"; "6010"] ["travel"; "navigation"];
       rule "finance" ["6015"] ["finance"];
       rule "productivity" ["6007"; "6002"; "6000"] ["productivity"; "utilities"; "business"];
       rule "education" ["6017"] ["education"];
       rule "health" ["6013"; "6018"] ["health"; "fitness"; "medical"];
       rule "news" ["6009"; "6006"; "6001"] ["news"; "reference"; "weather"];
       rule "sports" ["6004"] ["sports"] ];
     RiskOn := ["games"; "entertainment"; "commerce"; "travel"; "sports"];
     RiskOff := ["productivity"; "education"; "health"; "finance"; "news"] |}%string.

(** The file system and the JSON decoder, as [LoadThemeConfig] sees them:
    [os_Stat] is [None] when the call succeeds. *)
Record World := {
  os_Stat : string -> option error;
  os_ReadFile : string -> result string;
  json_Unmarshal : string -> result ThemeConfig }.

Definition LoadThemeConfig (w : World) (path : string) : result ThemeConfig :=
  match os_Stat w path with
  | Some err =>
      if os_IsNotExist err then Ok defaultThemeConfig else Err err
  | None =>
      data <- os_ReadFile w path ;;
      cfg <- json_Unmarshal w data ;;
      if len (Rules cfg) =? 0 then Ok defaultThemeConfig else Ok cfg
  end.

(** ** internal/analysis: the classifier *)

Record normalizedRule := {
  theme : string;
  genreIDs : gset string;
  genres : list string;
  keywords : list string }.

Record ThemeClassifier := { rules : list normalizedRule }.

Module ThemeInput.
Record t := mk {
  Name : string;
  Genres : list string;
  GenreIDs : list string;
  PrimaryGenre : string;
  ItunesGenres : list string }.
End ThemeInput.

(** A nil slice and an empty one are both [[]]: [normalizeList] returns
    nil exactly when it returns no element. *)
Fixpoint normalizeList (items : list string) : list string :=
  match items with
  | [] => []
  | item :: rest =>
      let value := ToLower (TrimSpace item) in
      if is_empty value then normalizeList rest
      else value :: normalizeList rest
  end.

Fixpoint containsAny (value : string) (candidates : list string) : bool :=
  match candidates with
  | [] => false
  | candidate :: rest =>
      if negb (is_empty candidate) && Contains value candidate then true
      else containsAny value rest
  end.

(** The set a loop [for _, id := range ids { m[TrimSpace(id)] = true }]
    builds. *)
Definition idSet (ids : list string) : gset string :=
  foldl (fun m id => {[ TrimSpace id ]} ∪ m) ∅ ids.

Definition normalizeRule (rule : ThemeRule.t) : normalizedRule :=
  {| theme := ToLower (ThemeRule.Theme rule);
     genreIDs := idSet (ThemeRule.GenreIDs rule);
     genres := normalizeList (ThemeRule.Genres rule);
     keywords := normalizeList (ThemeRule.Keywords rule) |}.

Definition NewThemeClassifier (cfg : ThemeConfig) : ThemeClassifier :=
  {| rules := map normalizeRule (Rules cfg) |}.

(** The three tests of one rule, in the order of the loop body.  The range
    over the item's identifier map has no fixed order in Go; every hit
    returns the same theme, so the order of [elements] stands for it. *)
Definition idHit (ids : gset string) (rule : normalizedRule) : bool :=
  existsb (fun id => bool_decide (id ∈ genreIDs rule)) (elements ids).

Definition genreHit (gs : list string) (rule : normalizedRule) : bool :=
  existsb (fun genre => containsAny genre (genres rule)) gs.

Definition keywordHit (name : string) (rule : normalizedRule) : bool :=
  match keywords rule with
  | [] => false                              (* rule.keywords != nil *)
  | _ => containsAny name (keywords rule)
  end.

Fixpoint classifyRules (gs : list string) (ids : gset string) (name : string)
    (rs : list normalizedRule) : string :=
  match rs with
  | [] => "other"
  | rule :: rest =>
      if idHit ids rule then theme rule
      else if genreHit gs rule then theme rule
      else if keywordHit name rule then theme rule
      else classifyRules gs ids name rest
  end.

Definition Classify (c : ThemeClassifier) (input : ThemeInput.t) : string :=
  let gs := normalizeList (ThemeInput.Genres input
              ++ (ThemeInput.ItunesGenres input ++ [ThemeInput.PrimaryGenre input])) in
  let ids := idSet (ThemeInput.GenreIDs input) in
  let name := ToLower (ThemeInput.Name input) in
  classifyRules gs ids name (rules c).

(** ** internal/store: rows *)

Record NullInt := { Value : Z; Valid : bool }.

Definition NullableInt (value : Z) : NullInt := {| Value := value; Valid := true |}.

Record Snapshot := {
  ID : Z;
  CollectedAt : Z;      (* seconds since the epoch; stored as RFC 3339 text in UTC *)
  Country : string;
  Chart : string;
  Limit : Z;
  SourceURL : string }.

(** A row of [chart_items], with the columns the analysis reads (the
    artist name, the release date and the average rating are stored and
    never read by it). *)
Module ChartItem.
Record t := mk {
  SnapshotID : Z;
  Rank : Z;
  AppID : string;
  AppName : string;
  AppURL : string;
  Genres : list string;
  GenreIDs : list string;
  PrimaryGenre : string;
  ItunesGenres : list string;
  RatingCount : NullInt }.
(* The zero value, which a failed map lookup yields. *)
Definition zero : t := mk 0 0 "" "" "" [] [] "" [] {| Value := 0; Valid := false |}.
End ChartItem.

(** ** internal/analysis: trends *)

Record TrendConfig := {
  RankWeight : float;
  ReviewWeight : float;
  NewEntryBonus : float }.

Module AppTrend.
Record t := mk {
  AppID : string;
  AppName : string;
  AppURL : string;
  Rank : Z;
  RankDelta : Z;
  RatingCount : Z;
  RatingDelta : Z;
  TrendScore : float;
  Theme : string;
  NewEntry : bool }.
Definition withScore (a : t) (score : float) : t :=
  mk (AppID a) (AppName a) (AppURL a) (Rank a) (RankDelta a) (RatingCount a)
     (RatingDelta a) score (Theme a) (NewEntry a).
End AppTrend.

Record TrendResult := {
  Trends : list AppTrend.t;
  ThemeScores : gmap string float;
  RiskOnScore : float;
  RiskOffScore : float;
  RotationIndex : float }.

Definition computeRatingDelta (current prev : ChartItem.t) (prevOk : bool) : Z :=
  if negb (Valid (ChartItem.RatingCount current)) then 0
  else if prevOk && Valid (ChartItem.RatingCount prev) then
    int_sub (Value (ChartItem.RatingCount current)) (Value (ChartItem.RatingCount prev))
  else Value (ChartItem.RatingCount current).

Definition fsum (values : list float) : float :=
  foldl (fun sum v => sum + v)%float 0%float values.

Definition meanStd (values : list float) : float * float :=
  if len values =? 0 then (0%float, 0%float)
  else
    let mean := (fsum values / float64_of_int (len values))%float in
    let variance :=
      foldl (fun variance v => let diff := (v - mean)%float in
                               variance + diff * diff)%float 0%float values in
    let variance := (variance / float64_of_int (len values))%float in
    (mean, PrimFloat.sqrt variance).

Definition zscore (value mean std : float) : float :=
  if (std =? 0)%float then 0%float else ((value - mean) / std)%float.

(** The exchange sort [sortTrends] and [sortThemeScores] share:
    [for i { for j := i+1; j < len; j++ { if out[j].score > out[i].score
    { out[i], out[j] = out[j], out[i] } } }].  Both indices are in range
    in the loops. *)
Section ExchangeSort.
Context {A : Type} (score : A -> float).

Definition swapIfGreater (i : nat) (out : list A) (j : nat) : list A :=
  match out !! i, out !! j with
  | Some a, Some b =>
      if (score a <? score b)%float then <[i := b]> (<[j := a]> out) else out
  | _, _ => out
  end.

Definition sortPass (out : list A) (i : nat) : list A :=
  foldl (swapIfGreater i) out (seq (S i) (length out - S i)).

Definition exchangeSort (items : list A) : list A :=
  foldl sortPass items (seq 0 (length items)).
End ExchangeSort.

Definition sortTrends (items : list AppTrend.t) : list AppTrend.t :=
  exchangeSort AppTrend.TrendScore items.

(** [count] counts elements of [themes], whose length is an [int]: the
    increment cannot wrap. *)
Definition averageThemes (scores : gmap string float) (themes : list string) : float :=
  if len themes =? 0 then 0%float
  else
    let '(sum, count) :=
      foldl (fun '(sum, count) theme =>
               match scores !! theme with
               | Some score => ((sum + score)%float, count + 1)
               | None => (sum, count)
               end) (0%float, 0) themes in
    if count =? 0 then 0%float else (sum / float64_of_int count)%float.

(** The previous items by identifier; a later item replaces an earlier one
    with the same identifier. *)
Definition prevMapOf (previousItems : list ChartItem.t) : gmap string ChartItem.t :=
  foldl (fun m item => <[ChartItem.AppID item := item]> m) ∅ previousItems.

Definition themeInputOf (item : ChartItem.t) : ThemeInput.t :=
  ThemeInput.mk (ChartItem.AppName item) (ChartItem.Genres item)
    (ChartItem.GenreIDs item) (ChartItem.PrimaryGenre item) (ChartItem.ItunesGenres item).

(** The body of the first loop: the record of one current item, its score
    still the zero value. *)
Definition trendOf (latest : Snapshot) (prevMap : gmap string ChartItem.t)
    (classifier : ThemeClassifier) (item : ChartItem.t) : AppTrend.t :=
  let '(prev, ok) :=
    match prevMap !! ChartItem.AppID item with
    | Some prev => (prev, true)
    | None => (ChartItem.zero, false)
    end in
  let prevRank := if ok then ChartItem.Rank prev else int_add (Limit latest) 1 in
  let rankDelta := int_sub prevRank (ChartItem.Rank item) in
  let ratingDelta := computeRatingDelta item prev ok in
  let theme := Classify classifier (themeInputOf item) in
  AppTrend.mk (ChartItem.AppID item) (ChartItem.AppName item) (ChartItem.AppURL item)
    (ChartItem.Rank item) rankDelta (Value (ChartItem.RatingCount item)) ratingDelta
    0%float theme (negb ok).

(** The body of the second loop. *)
Definition scoreOf (cfg : TrendConfig) (rankStats reviewStats : float * float)
    (t : AppTrend.t) : float :=
  let rankZ := zscore (float64_of_int (AppTrend.RankDelta t)) (fst rankStats) (snd rankStats) in
  let reviewZ := zscore (float64_of_int (AppTrend.RatingDelta t)) (fst reviewStats) (snd reviewStats) in
  let score := (RankWeight cfg * rankZ + ReviewWeight cfg * reviewZ)%float in
  if AppTrend.NewEntry t then (score + NewEntryBonus cfg)%float else score.

(** The first loop: one record per current item, in the order of the
    items. *)
Definition baseTrends (latest : Snapshot) (latestItems previousItems : list ChartItem.t)
    (themes : ThemeConfig) : list AppTrend.t :=
  map (trendOf latest (prevMapOf previousItems) (NewThemeClassifier themes)) latestItems.

(** [meanStd(rankDeltas)] and [meanStd(reviewDeltas)]. *)
Definition rankStatsOf (trends : list AppTrend.t) : float * float :=
  meanStd (map (fun t => float64_of_int (AppTrend.RankDelta t)) trends).

Definition reviewStatsOf (trends : list AppTrend.t) : float * float :=
  meanStd (map (fun t => float64_of_int (AppTrend.RatingDelta t)) trends).

(** The trends after the two loops, before sorting. *)
Definition scoredTrends (latest : Snapshot) (latestItems previousItems : list ChartItem.t)
    (cfg : TrendConfig) (themes : ThemeConfig) : list AppTrend.t :=
  let trends := baseTrends latest latestItems previousItems themes in
  map (fun t => AppTrend.withScore t
                  (scoreOf cfg (rankStatsOf trends) (reviewStatsOf trends) t))
      trends.

(** [themeScores[trend.Theme] += trend.TrendScore] and
    [themeCounts[trend.Theme]++] over the sorted trends (a count is at most
    the length of the slice, so it does not wrap). *)
Definition themeStep (acc : gmap string float * gmap string Z) (trend : AppTrend.t)
    : gmap string float * gmap string Z :=
  let '(scores, counts) := acc in
  let th := AppTrend.Theme trend in
  (<[th := (default 0%float (scores !! th) + AppTrend.TrendScore trend)%float]> scores,
   <[th := default 0 (counts !! th) + 1]> counts).

Definition themeTotals (trends : list AppTrend.t) : gmap string float * gmap string Z :=
  foldl themeStep (∅, ∅) trends.

(** The range over [themeScores] that turns totals into means; it writes
    only the key it visits, so each key is rewritten once. *)
Definition themeMeans (totals : gmap string float) (counts : gmap string Z) : gmap string float :=
  map_imap (fun th total =>
              let count := default 0 (counts !! th) in
              Some (if 0 <? count then (total / float64_of_int count)%float else total))
           totals.

Definition AnalyzeTrends (latest previous : Snapshot)
    (latestItems previousItems : list ChartItem.t)
    (cfg : TrendConfig) (themes : ThemeConfig) : TrendResult :=
  let trends := sortTrends (scoredTrends latest latestItems previousItems cfg themes) in
  let '(totals, counts) := themeTotals trends in
  let themeScores := themeMeans totals counts in
  let riskOnScore := averageThemes themeScores (RiskOn themes) in
  let riskOffScore := averageThemes themeScores (RiskOff themes) in
  {| Trends := trends;
     ThemeScores := themeScores;
     RiskOnScore := riskOnScore;
     RiskOffScore := riskOffScore;
     RotationIndex := (riskOnScore - riskOffScore)%float |}.


Record ThemeScore := { ts_Theme : string; Score : float }.

(** The range over the map has no fixed order in Go; [map_to_list] stands
    for one such order. *)
Definition SortThemeScores (scores : gmap string float) : list ThemeScore :=
  exchangeSort Score (map (fun '(th, sc) => {| ts_Theme := th; Score := sc |}) (map_to_list scores)).

(** ** internal/store: the queries

    A store is the rows of its two tables, in insertion order.  The
    [collected_at] column holds RFC 3339 text in UTC, on which SQLite's text
    comparison is the comparison of the instants.  The queries are those of
    a database that answers: they fail with [sql.ErrNoRows] only. *)

Record Store := {
  snapshots : list Snapshot;
  chart_items : list ChartItem.t }.

Definition snapshotsOf (st : Store) (country chart : string) : list Snapshot :=
  filter (fun s => Country s = country /\ Chart s = chart) (snapshots st).

(** [ORDER BY collected_at DESC LIMIT 1]: a row with the greatest instant
    (the first of them, where several rows share it). *)
Fixpoint latestOf (rows : list Snapshot) : option Snapshot :=
  match rows with
  | [] => None
  | s :: rest =>
      match latestOf rest with
      | Some s' => if CollectedAt s <? CollectedAt s' then Some s' else Some s
      | None => Some s
      end
  end.

Definition scanSnapshot (row : option Snapshot) : result Snapshot :=
  match row with
  | Some s => Ok s
  | None => Err ErrNoRows
  end.

Definition GetLatestSnapshot (st : Store) (country chart : string) : result Snapshot :=
  scanSnapshot (latestOf (snapshotsOf st country chart)).

Definition GetPreviousSnapshot (st : Store) (country chart : string) (before : Z)
    : result Snapshot :=
  scanSnapshot (latestOf (filter (fun s => CollectedAt s < before)
                                 (snapshotsOf st country chart))).

Fixpoint insertByRank (x : ChartItem.t) (l : list ChartItem.t) : list ChartItem.t :=
  match l with
  | [] => [x]
  | y :: r => if ChartItem.Rank x <=? ChartItem.Rank y then x :: l else y :: insertByRank x r
  end.

(** [WHERE snapshot_id = ? ORDER BY rank ASC]. *)
Definition GetSnapshotItems (st : Store) (snapshotID : Z) : result (list ChartItem.t) :=
  Ok (foldr insertByRank []
        (filter (fun it => ChartItem.SnapshotID it = snapshotID) (chart_items st))).

Fixpoint insertByTime (x : Snapshot) (l : list Snapshot) : list Snapshot :=
  match l with
  | [] => [x]
  | y :: r => if CollectedAt x <=? CollectedAt y then x :: l else y :: insertByTime x r
  end.

(** Modelled from the spec: [ListSnapshots], which [computeTimeSeries]
    calls and the store's source file does not define.  The spec gives it
    as [listSnapshots(market, chart)], the ordered sequence of the
    snapshots of that market and chart, ascending by collection time. *)
Definition ListSnapshots (st : Store) (country chart : string) : result (list Snapshot) :=
  Ok (foldr insertByTime [] (snapshotsOf st country chart)).

(** ** cmd: the time series *)

(** A [*time.Location]: the offset from UTC, in seconds, in force at an
    instant. *)
Definition Location := Z -> Z.
Definition time_UTC : Location := fun _ => 0.

(** The clock and the time zone database. *)
Record Clock := {
  time_Now : Z;
  time_LoadLocation : string -> result Location }.

(** [t.In(loc).Format("2006-01-02")]: the civil date at [loc], which the
    number of the day since the epoch stands for (the text is one-to-one
    with it over the four-digit years). *)
Definition dayKey (loc : Location) (t : Z) : Z := (t + loc t) / 86400.

Section GroupByKey.
Context (key : Snapshot -> Z).

(** [dateIndex[key] = i] over the snapshots, from index [i] on. *)
Fixpoint dateIndexFrom (i : nat) (snaps : list Snapshot) (dateIndex : gmap Z nat)
    : gmap Z nat :=
  match snaps with
  | [] => dateIndex
  | snapshot :: rest => dateIndexFrom (S i) rest (<[key snapshot := i]> dateIndex)
  end.

(** The second loop; [items[i]] panics when [i] is out of range. *)
Fixpoint groupFrom (dateIndex : gmap Z nat) (items : list (list ChartItem.t))
    (i : nat) (snaps : list Snapshot) (seen : gset Z)
    (groupedSnapshots : list Snapshot) (groupedItems : list (list ChartItem.t))
    : result (list Snapshot * list (list ChartItem.t)) :=
  match snaps with
  | [] => Ok (groupedSnapshots, groupedItems)
  | snapshot :: rest =>
      let k := key snapshot in
      if negb (default 0%nat (dateIndex !! k) =? i)%nat || bool_decide (k ∈ seen) then
        groupFrom dateIndex items (S i) rest seen groupedSnapshots groupedItems
      else
        match items !! i with
        | None => Panic
        | Some its =>
            groupFrom dateIndex items (S i) rest ({[ k ]} ∪ seen)
              (groupedSnapshots ++ [snapshot]) (groupedItems ++ [its])
        end
  end.

Definition groupByKey (snaps : list Snapshot) (items : list (list ChartItem.t))
    : result (list Snapshot * list (list ChartItem.t)) :=
  if len snaps =? 0 then Ok (snaps, items)
  else groupFrom (dateIndexFrom 0 snaps ∅) items 0 snaps ∅ [] [].
End GroupByKey.

Definition seoulOrUTC (c : Clock) : Location :=
  match time_LoadLocation c "Asia/Seoul" with
  | Ok loc => loc
  | _ => time_UTC
  end.

Definition groupSnapshotsByDate (c : Clock) (snaps : list Snapshot)
    (items : list (list ChartItem.t))
    : result (list Snapshot * list (list ChartItem.t)) :=
  groupByKey (fun s => dayKey (seoulOrUTC c) (CollectedAt s)) snaps items.

(** [seen] starts as the set of "other"; a rule with the empty theme is
    skipped. *)
Fixpoint uniqueFrom (rs : list ThemeRule.t) (seen : gset string) (themes : list string)
    : list string :=
  match rs with
  | [] => themes
  | rule :: rest =>
      let th := ThemeRule.Theme rule in
      if is_empty th then uniqueFrom rest seen themes
      else if bool_decide (th ∈ seen) then uniqueFrom rest seen themes
      else uniqueFrom rest ({[ th ]} ∪ seen) (themes ++ [th])
  end.

Definition uniqueThemes (cfg : ThemeConfig) : list string :=
  sort_Strings (uniqueFrom (Rules cfg) {[ "other"%string ]} ["other"%string]).

(** The payload records; a prefix tells their fields from the fields of
    the same name of the rows and of [TrendResult]. *)
Record timeSeriesMeta := { m_Country : string; m_Chart : string; m_Limit : Z }.

Record timeSeriesTopApp := {
  top_AppID : string;
  top_AppName : string;
  top_AppURL : string;
  Ranks : list (option Z);
  RatingCounts : list (option Z) }.

Record timeSeriesPayload := {
  Meta : timeSeriesMeta;
  Dates : list Z;       (* the instants [Format(time.RFC3339)] prints *)
  p_RotationIndex : list float;
  p_RiskOnScore : list float;
  p_RiskOffScore : list float;
  p_ThemeScores : gmap string (list float);
  TopApps : list timeSeriesTopApp }.

(** [s[i]], which panics out of range. *)
Definition index {A} (l : list A) (i : nat) : result A :=
  match l !! i with
  | Some x => Ok x
  | None => Panic
  end.

Fixpoint mapM {A B} (f : A -> result B) (l : list A) : result (list B) :=
  match l with
  | [] => Ok []
  | x :: r => y <- f x ;; ys <- mapM f r ;; Ok (y :: ys)
  end.

(** One turn of the loop over the retained days: the day's transition
    against the day before it, the first day against itself. *)
Definition dayResult (cfg : TrendConfig) (themeConfig : ThemeConfig)
    (snaps : list Snapshot) (snapshotItems : list (list ChartItem.t)) (idx : nat)
    : result TrendResult :=
  snapshot <- index snaps idx ;;
  currentItems <- index snapshotItems idx ;;
  match idx with
  | O => Ok (AnalyzeTrends snapshot snapshot currentItems currentItems cfg themeConfig)
  | S idx' =>
      prevSnapshot <- index snaps idx' ;;
      prevItems <- index snapshotItems idx' ;;
      Ok (AnalyzeTrends snapshot prevSnapshot currentItems prevItems cfg themeConfig)
  end.

(** [themeScores[theme] = append(themeScores[theme], result.ThemeScores[theme])]
    for every theme name; a missing key of either map reads as its zero
    value. *)
Definition appendThemeScores (themeNames : list string)
    (themeScores : gmap string (list float)) (r : TrendResult)
    : gmap string (list float) :=
  foldl (fun m th =>
           <[th := default [] (m !! th) ++ [default 0%float (ThemeScores r !! th)]]> m)
        themeScores themeNames.

Definition itemMapOf (items : list ChartItem.t) : gmap string ChartItem.t :=
  foldl (fun m item => <[ChartItem.AppID item := item]> m) ∅ items.

(** The history of one top item: one cell per snapshot, written at the
    index of each item map that holds the item. *)
Definition historyOf {B} (n : nat) (itemMaps : list (gmap string ChartItem.t))
    (id : string) (cell : ChartItem.t -> option B) : result (list (option B)) :=
  foldl (fun acc '(snapIdx, itemMap) =>
           row <- acc ;;
           match itemMap !! id with
           | None => Ok row
           | Some item =>
               match cell item with
               | None => Ok row
               | Some v => if (snapIdx <? length row)%nat
                           then Ok (<[snapIdx := Some v]> row) else Panic
               end
           end)
        (Ok (replicate n None)) (imap (fun i m => (i, m)) itemMaps).

Definition buildTopApps (snapshotItems : list (list ChartItem.t)) (snaps : list Snapshot)
    (topN : Z) : result (list timeSeriesTopApp) :=
  match last snapshotItems with
  | None => Ok []
  | Some latestItems =>
      let topN := if len latestItems <? topN then len latestItems else topN in
      if topN <? 0 then Panic      (* make([]timeSeriesTopApp, 0, topN) *)
      else
        let itemMaps := map itemMapOf snapshotItems in
        mapM (fun item =>
                let id := ChartItem.AppID item in
                ranks <- historyOf (length snaps) itemMaps id
                           (fun it => Some (ChartItem.Rank it)) ;;
                counts <- historyOf (length snaps) itemMaps id
                            (fun it => if Valid (ChartItem.RatingCount it)
                                       then Some (Value (ChartItem.RatingCount it))
                                       else None) ;;
                Ok {| top_AppID := id;
                      top_AppName := ChartItem.AppName item;
                      top_AppURL := ChartItem.AppURL item;
                      Ranks := ranks;
                      RatingCounts := counts |})
             (take (Z.to_nat topN) latestItems)
  end.

Definition computeTimeSeries (w : World) (c : Clock) (st : Store)
    (country chart themePath : string) (cfg : TrendConfig) (topN : Z)
    : result timeSeriesPayload :=
  snaps <- ListSnapshots st country chart ;;
  if len snaps =? 0 then Err (errorString "no snapshots found")
  else
    themeConfig <- LoadThemeConfig w themePath ;;
    let themeNames := uniqueThemes themeConfig in
    let themeScores : gmap string (list float) :=
      foldl (fun m th => <[th := []]> m) ∅ themeNames in
    snapshotItems <- mapM (fun s => GetSnapshotItems st (ID s)) snaps ;;
    grouped <- groupSnapshotsByDate c snaps snapshotItems ;;
    let '(snaps, snapshotItems) := grouped in
    results <- mapM (dayResult cfg themeConfig snaps snapshotItems)
                 (seq 0 (length snaps)) ;;
    topApps <- buildTopApps snapshotItems snaps topN ;;
    lastSnapshot <- index snaps (length snaps - 1) ;;
    Ok {| Meta := {| m_Country := country; m_Chart := chart; m_Limit := Limit lastSnapshot |};
          Dates := map CollectedAt snaps;
          p_RotationIndex := map RotationIndex results;
          p_RiskOnScore := map RiskOnScore results;
          p_RiskOffScore := map RiskOffScore results;
          p_ThemeScores := foldl (appendThemeScores themeNames) themeScores results;
          TopApps := topApps |}.

(** ** cmd: the report *)

Record reportPayload := {
  Latest : Snapshot;
  Previous : Snapshot;
  GeneratedAt : Z;
  r_Trends : list AppTrend.t;
  r_ThemeScores : list ThemeScore;
  r_RiskOnScore : float;
  r_RiskOffScore : float;
  r_RotationIndex : float }.

Definition computeReport (w : World) (c : Clock) (st : Store)
    (country chart themePath : string) (cfg : TrendConfig) : result reportPayload :=
  latest <- GetLatestSnapshot st country chart ;;
  match GetPreviousSnapshot st country chart (CollectedAt latest) with
  | Err err =>
      if errors_Is_ErrNoRows err
      then Err (errorString "need at least two snapshots for report")
      else Err err
  | Panic => Panic
  | Ok previous =>
      latestItems <- GetSnapshotItems st (ID latest) ;;
      prevItems <- GetSnapshotItems st (ID previous) ;;
      themeConfig <- LoadThemeConfig w themePath ;;
      let result := AnalyzeTrends latest previous latestItems prevItems cfg themeConfig in
      Ok {| Latest := latest;
            Previous := previous;
            GeneratedAt := time_Now c;
            r_Trends := Trends result;
            r_ThemeScores := SortThemeScores (ThemeScores result);
            r_RiskOnScore := RiskOnScore result;
            r_RiskOffScore := RiskOffScore result;
            r_RotationIndex := RotationIndex result |}
  end.

(** ** store: a list in one text column *)

(** [strings.Join(values, sep)]. *)
Fixpoint strings_Join (values : list string) (sep : string) : string :=
  match values with
  | [] => EmptyString
  | v :: rest =>
      match rest with
      | [] => v
      | _ => String.append v (String.append sep (strings_Join rest sep))
      end
  end.

(** [strings.Split(s, sep)] for a separator of one byte: the substrings
    between the occurrences of the byte, one more than there are
    occurrences. *)
Fixpoint strings_Split (s : string) (sep : ascii) : list string :=
  match s with
  | EmptyString => [EmptyString]
  | String a r =>
      if Ascii.eqb a sep then EmptyString :: strings_Split r sep
      else match strings_Split r sep with
           | h :: t => String a h :: t
           | [] => [String a EmptyString]
           end
  end.

Definition joinList (values : list string) : string :=
  if len values =? 0 then EmptyString else strings_Join values "|".

(** The [nil] slice is the empty list. *)
Definition splitList (value : string) : list string :=
  if is_empty value then [] else strings_Split value "|".

(** ** internal/apple: the genres of a feed entry *)

Module RSSGenre.
Record t := mk {
  GenreID : string;
  Name : string;
  URL : string }.
End RSSGenre.

Definition ExtractGenres (genres : list RSSGenre.t) : list string * list string :=
  foldl (fun '(names, ids) genre =>
           let names := if negb (is_empty (RSSGenre.Name genre))
                        then names ++ [RSSGenre.Name genre] else names in
           let ids := if negb (is_empty (RSSGenre.GenreID genre))
                      then ids ++ [RSSGenre.GenreID genre] else ids in
           (names, ids))
        ([], []) genres.

(** ** internal/apple: the chart feed *)

Module RSSApp.
Record t := mk {
  ArtistName : string;
  ID : string;
  Name : string;
  ReleaseDate : string;
  Kind : string;
  ArtworkURL : string;
  Genres : list RSSGenre.t;
  URL : string }.
End RSSApp.

Record RSSLink := { Self : string }.

Module RSSFeed.
Record t := mk {
  Title : string;
  Country : string;
  Updated : string;
  Results : list RSSApp.t;
  Links : list RSSLink }.
End RSSFeed.

Record RSSResponse := { Feed : RSSFeed.t }.

Definition validCharts : gmap string bool :=
  <["top-free"%string := true]> (<["top-paid"%string := true]> ∅).

(** A key the map does not hold reads as [false]. *)
Definition ValidChart (chart : string) : bool := default false (validCharts !! chart).

Definition rssBaseURL : string := "https://rss.marketingtools.apple.com/api/v2".

(** The verb [%d] on an [int]. *)
Definition format_int (n : Z) : string := NilZero.string_of_int (Z.to_int n).

(** [fmt.Sprintf("%s/%s/apps/%s/%d/apps.json", rssBaseURL, country, chart, limit)]. *)
Definition chartURL (country chart : string) (limit : Z) : string :=
  String.append rssBaseURL
    (String.append "/" (String.append country
      (String.append "/apps/" (String.append chart
        (String.append "/" (String.append (format_int limit) "/apps.json")))))).

(** An answer of the server as [FetchTopChart] reads it: the status code,
    the status line, and what decoding the body gives. *)
Record Response := {
  StatusCode : Z;
  Status : string;
  Decoded : result RSSResponse }.

(** The world of a fetch: whether a request for a URL can be built, the
    answer to the request of each attempt ([Err] is a transport error), and
    whether the context ends while the function waits after an attempt. *)
Record Net := {
  http_NewRequest : string -> option error;
  client_Do : Z -> string -> result Response;
  ctx_Done : Z -> option error }.

(** What a fetch does to the world: a request sent, a wait on a timer of
    so many milliseconds. *)
Inductive Event : Type :=
| Request (url : string)
| Wait (ms : Z).

(** The closure run on an answer: the value it leaves in [lastErr], and
    the decoded response when that is [nil]. *)
Definition readResponse (res : Response) : result RSSResponse :=
  if negb (StatusCode res =? 200)
  then Err (errorString (String.append "rss request failed: " (Status res)))
  else Decoded res.

(** One pass through the body of the loop, up to the wait: it returns, or
    goes on with the error it keeps in [lastErr]. *)
Inductive Step : Type :=
| Return (r : result (RSSResponse * string))
| Retry (lastErr : error).

Definition attemptOnce (net : Net) (url : string) (attempt : Z) : Step :=
  match client_Do net attempt url with
  | Panic => Return Panic
  | Err err => Retry err
  | Ok res =>
      match readResponse res with
      | Ok resp => Return (Ok (resp, url))
      | Panic => Return Panic
      | Err lastErr =>
          if (StatusCode res <? 500) && negb (StatusCode res =? 429)
          then Return (Err lastErr)
          else Retry lastErr
      end
  end.

Definition zeroResponse : RSSResponse :=
  {| Feed := RSSFeed.mk "" "" "" [] [] |}.

(** The loop over the attempts that are left; a result comes with the
    events that led to it. *)
Fixpoint fetchAttempts (net : Net) (url : string) (attempts : list Z) (lastErr : option error)
    : result (RSSResponse * string) * list Event :=
  match attempts with
  | [] =>
      (match lastErr with
       | Some err => Err err
       | None => Ok (zeroResponse, EmptyString)
       end, [])
  | attempt :: rest =>
      match http_NewRequest net url with
      | Some err => (Err err, [])
      | None =>
          match attemptOnce net url attempt with
          | Return r => (r, [Request url])
          | Retry err =>
              if attempt <? 2 then
                match ctx_Done net attempt with
                | Some ctxErr => (Err ctxErr, [Request url; Wait (500 * (attempt + 1))])
                | None =>
                    let '(r, events) := fetchAttempts net url rest (Some err) in
                    (r, Request url :: Wait (500 * (attempt + 1)) :: events)
                end
              else
                let '(r, events) := fetchAttempts net url rest (Some err) in
                (r, Request url :: events)
          end
      end
  end.

Definition FetchTopChart (net : Net) (country chart : string) (limit : Z)
    : result (RSSResponse * string) * list Event :=
  if negb (ValidChart chart)
  then (Err (errorString (String.append "invalid chart: " chart)), [])
  else fetchAttempts net (chartURL country chart limit) [0; 1; 2] None.

(** ** internal/apple: the lookup of one app *)

Module ItunesApp.
Record t := mk {
  TrackID : Z;
  TrackName : string;
  SellerName : string;
  Description : string;
  PrimaryGenreName : string;
  Genres : list string;
  UserRatingCount : Z;
  AverageUserRating : float;
  UserRatingCountForCurrentVersion : Z;
  AverageUserRatingForCurrentVersion : float }.
Definition zero : t := mk 0 "" "" "" "" [] 0 0 0 0.
End ItunesApp.

Record ItunesResponse := {
  ResultCount : Z;
  it_Results : list ItunesApp.t }.

(** An answer of the lookup service: the status code, the status line, and
    what decoding the body gives. *)
Record LookupAnswer := {
  lk_StatusCode : Z;
  lk_Status : string;
  lk_Decoded : result ItunesResponse }.

(** [fmt.Sprintf("https://itunes.apple.com/lookup?id=%s&country=%s", appID, country)]. *)
Definition lookupURL (appID country : string) : string :=
  String.append "https://itunes.apple.com/lookup?id="
    (String.append appID (String.append "&country=" country)).

(** [newRequest] says whether a request for a URL can be built, [do] is
    the answer to the request. *)
Definition LookupApp (newRequest : string -> option error)
    (do : string -> result LookupAnswer) (appID country : string)
    : result (ItunesApp.t * bool) :=
  let url := lookupURL appID country in
  match newRequest url with
  | Some err => Err err
  | None =>
      res <- do url ;;
      if negb (lk_StatusCode res =? 200)
      then Err (errorString (String.append "itunes request failed: " (lk_Status res)))
      else
        resp <- lk_Decoded res ;;
        if (ResultCount resp <? 1) || (len (it_Results resp) =? 0)
        then Ok (ItunesApp.zero, false)
        else match it_Results resp with
             | first :: _ => Ok (first, true)
             | [] => Panic
             end
  end.

(** ** store: a row of [chart_items] as text and numbers

    The columns are those of [ChartItem.t].  A column that is scanned into
    a nullable value is an [option]; [primary_genre] is scanned into a Go
    string, so a row that can be read has text there. *)
Record ItemRow := {
  row_snapshot_id : Z;
  row_rank : Z;
  row_app_id : string;
  row_app_name : string;
  row_app_url : string;
  row_genres : option string;
  row_genre_ids : option string;
  row_primary_genre : string;
  row_itunes_genres : option string;
  row_rating_count : option Z }.

(** The values [InsertChartItem] hands to the database. *)
Definition rowOfItem (item : ChartItem.t) : ItemRow :=
  {| row_snapshot_id := ChartItem.SnapshotID item;
     row_rank := ChartItem.Rank item;
     row_app_id := ChartItem.AppID item;
     row_app_name := ChartItem.AppName item;
     row_app_url := ChartItem.AppURL item;
     row_genres := Some (joinList (ChartItem.Genres item));
     row_genre_ids := Some (joinList (ChartItem.GenreIDs item));
     row_primary_genre := ChartItem.PrimaryGenre item;
     row_itunes_genres := Some (joinList (ChartItem.ItunesGenres item));
     row_rating_count := if Valid (ChartItem.RatingCount item)
                         then Some (Value (ChartItem.RatingCount item)) else None |}.

(** The item [GetSnapshotItems] makes of a row it scans. *)
Definition itemOfRow (row : ItemRow) : ChartItem.t :=
  let list_of (column : option string) : list string :=
    match column with
    | Some text => splitList text
    | None => []
    end in
  ChartItem.mk (row_snapshot_id row) (row_rank row) (row_app_id row) (row_app_name row)
    (row_app_url row)
    (list_of (row_genres row)) (list_of (row_genre_ids row)) (row_primary_genre row)
    (list_of (row_itunes_genres row))
    (match row_rating_count row with
     | Some count => {| Value := count; Valid := true |}
     | None => {| Value := 0; Valid := false |}
     end).

(** ** cmd: fetching a snapshot *)

(** The world of [fetchSnapshot]: the chart service, the lookup service
    (the answer may differ from one item of the feed to the next, so it is
    given per index), and the two inserts of the store, which answer with
    the new snapshot's id, or fail. *)
Record FetchWorld := {
  fw_net : Net;
  fw_lookupDo : nat -> string -> result LookupAnswer;
  fw_InsertSnapshot : Snapshot -> result Z;
  fw_InsertChartItem : nat -> ChartItem.t -> option error }.

(** What [fetchSnapshot] does to the world. *)
Inductive FetchEvent : Type :=
| ChartEvent (e : Event)                       (* an event of [FetchTopChart] *)
| InsertSnapshotCall (s : Snapshot)
| LookupCall (appID country : string)
| Logged (appID : string) (err : error)   (* "itunes lookup failed for %s: %v" *)
| Slept (ms : Z)
| InsertChartItemCall (item : ChartItem.t).

(** The item of the feed entry of index [idx], with the metadata of the
    lookup when there is one. *)
Definition chartItemOf (snapshotID : Z) (idx : nat) (item : RSSApp.t)
    (itunesMeta : option ItunesApp.t) : ChartItem.t :=
  let rank := Z.of_nat idx + 1 in
  let '(genres, genreIDs) := ExtractGenres (RSSApp.Genres item) in
  match itunesMeta with
  | None =>
      ChartItem.mk snapshotID rank (RSSApp.ID item) (RSSApp.Name item) (RSSApp.URL item)
        genres genreIDs "" [] {| Value := 0; Valid := false |}
  | Some meta =>
      ChartItem.mk snapshotID rank (RSSApp.ID item) (RSSApp.Name item) (RSSApp.URL item)
        genres genreIDs (ItunesApp.PrimaryGenreName meta) (ItunesApp.Genres meta)
        (NullableInt (ItunesApp.UserRatingCount meta))
  end.

(** The lookup of one entry: the metadata, if any, and the events. *)
Definition lookupMeta (w : FetchWorld) (country : string) (noItunes : bool)
    (idx : nat) (item : RSSApp.t) : result (option ItunesApp.t) * list FetchEvent :=
  if noItunes then (Ok None, [])
  else
    match LookupApp (http_NewRequest (fw_net w)) (fw_lookupDo w idx) (RSSApp.ID item) country with
    | Err err =>
        (Ok None, [LookupCall (RSSApp.ID item) country; Logged (RSSApp.ID item) err; Slept 150])
    | Ok (meta, ok) =>
        (Ok (if ok then Some meta else None),
         [LookupCall (RSSApp.ID item) country; Slept 150])
    | Panic => (Panic, [LookupCall (RSSApp.ID item) country])
    end.

(** The loop over the entries of the feed, from the entry of index
    [idx]. *)
Fixpoint insertItems (w : FetchWorld) (country : string) (noItunes : bool)
    (snapshotID : Z) (idx : nat) (items : list RSSApp.t) : result unit * list FetchEvent :=
  match items with
  | [] => (Ok tt, [])
  | item :: rest =>
      let '(meta, lookupEvents) := lookupMeta w country noItunes idx item in
      match meta with
      | Panic => (Panic, lookupEvents)
      | Err err => (Err err, lookupEvents)
      | Ok itunesMeta =>
          let chartItem := chartItemOf snapshotID idx item itunesMeta in
          match fw_InsertChartItem w idx chartItem with
          | Some err => (Err err, lookupEvents ++ [InsertChartItemCall chartItem])
          | None =>
              let '(r, events) := insertItems w country noItunes snapshotID (S idx) rest in
              (r, lookupEvents ++ InsertChartItemCall chartItem :: events)
          end
      end
  end.

Definition fetchSnapshot (w : FetchWorld) (c : Clock) (country chart : string)
    (limit : Z) (noItunes : bool) : result (Z * Z) * list FetchEvent :=
  if negb (ValidChart chart)
  then (Err (errorString (String.append "unsupported chart: " chart)), [])
  else
    let '(fetched, chartEvents) := FetchTopChart (fw_net w) country chart limit in
    match fetched with
    | Panic => (Panic, map ChartEvent chartEvents)
    | Err err => (Err err, map ChartEvent chartEvents)
    | Ok (rss, sourceURL) =>
        if len (RSSFeed.Results (Feed rss)) =? 0
        then (Err (errorString "rss returned no results"), map ChartEvent chartEvents)
        else
          let snapshot := {| ID := 0; CollectedAt := time_Now c; Country := country;
                             Chart := chart; Limit := limit; SourceURL := sourceURL |} in
          match fw_InsertSnapshot w snapshot with
          | Panic => (Panic, map ChartEvent chartEvents ++ [InsertSnapshotCall snapshot])
          | Err err => (Err err, map ChartEvent chartEvents ++ [InsertSnapshotCall snapshot])
          | Ok snapshotID =>
              let '(r, events) :=
                insertItems w country noItunes snapshotID 0 (RSSFeed.Results (Feed rss)) in
              (_ <- r ;; Ok (snapshotID, len (RSSFeed.Results (Feed rss))),
               map ChartEvent chartEvents ++ InsertSnapshotCall snapshot :: events)
          end
    end.

(** * Properties *)

(** ** Strings *)


Lemma append_String a s t :
  String.append (String a s) t = String a (String.append s t).
Proof. reflexivity. Qed.





Lemma is_empty_true s : is_empty s = true <-> s = EmptyString.
Proof. by destruct s. Qed.




(** ** Loading the theme configuration *)

Lemma len_zero {A} (l : list A) : (len l =? 0) = true <-> l = [].
Proof.
  unfold len. rewrite Z.eqb_eq. destruct l; simpl; [done|].
  split; [lia | done].
Qed.

Lemma LoadThemeConfig_Ok_nonempty w path cfg :
  LoadThemeConfig w path = Ok cfg -> Rules cfg <> [].
Proof.
  unfold LoadThemeConfig.
  destruct (os_Stat w path) as [err|].
  - destruct (os_IsNotExist err); intros [= <-]; done.
  - destruct (os_ReadFile w path) as [data| |]; simpl; try done.
    destruct (json_Unmarshal w data) as [cfg'| |]; simpl; try done.
    destruct (len (Rules cfg') =? 0) eqn:E; intros [= <-]; [done|].
    intros H. apply len_zero in H. congruence.
Qed.

(** C8. [LoadThemeConfig] answers with the built-in configuration of ten
    rules when the file does not exist and when the file decodes to an
    empty rule list; a configuration it returns never has an empty rule
    list (nor does the classifier built from it); a [Stat] error other
    than non-existence, a read error and a decoding error are returned as
    they are. *)
Theorem LoadThemeConfig_defaults_or_propagates (w : World) (path : string) :
  length (Rules defaultThemeConfig) = 10%nat
  /\ (forall err, os_Stat w path = Some err -> os_IsNotExist err = true ->
        LoadThemeConfig w path = Ok defaultThemeConfig)
  /\ (forall data cfg, os_Stat w path = None -> os_ReadFile w path = Ok data ->
        json_Unmarshal w data = Ok cfg -> Rules cfg = [] ->
        LoadThemeConfig w path = Ok defaultThemeConfig)
  /\ (forall data cfg, os_Stat w path = None -> os_ReadFile w path = Ok data ->
        json_Unmarshal w data = Ok cfg -> Rules cfg <> [] ->
        LoadThemeConfig w path = Ok cfg)
  /\ (forall cfg, LoadThemeConfig w path = Ok cfg ->
        Rules cfg <> [] /\ rules (NewThemeClassifier cfg) <> [])
  /\ (forall err, os_Stat w path = Some err -> os_IsNotExist err = false ->
        LoadThemeConfig w path = Err err)
  /\ (forall err, os_Stat w path = None -> os_ReadFile w path = Err err ->
        LoadThemeConfig w path = Err err)
  /\ (forall data err, os_Stat w path = None -> os_ReadFile w path = Ok data ->
        json_Unmarshal w data = Err err -> LoadThemeConfig w path = Err err).
Proof.
  split; [done|]. split; [|split; [|split; [|split; [|split; [|split]]]]].
  - unfold LoadThemeConfig. intros err -> ->. done.
  - unfold LoadThemeConfig. intros data cfg -> -> Hj Hr. simpl. rewrite Hj. simpl.
    by rewrite (proj2 (len_zero _) Hr).
  - unfold LoadThemeConfig. intros data cfg -> -> Hj Hr. simpl. rewrite Hj. simpl.
    destruct (len (Rules cfg) =? 0) eqn:E; [|done].
    by apply len_zero in E.
  - intros cfg H. apply LoadThemeConfig_Ok_nonempty in H. split; [done|].
    simpl. intros H0. by apply map_eq_nil in H0.
  - unfold LoadThemeConfig. intros err -> ->. done.
  - unfold LoadThemeConfig. intros err -> ->. done.
  - unfold LoadThemeConfig. intros data err -> -> Hj. simpl. by rewrite Hj.
Qed.

(** ** Classification *)










(** ** The order of binary64

    [<?] is transitive and asymmetric on all floats, NaN included (it is
    false whenever one side is NaN): a float that compares has a key, its
    class, exponent and mantissa, and [<?] is the lexicographic order of the
    keys. *)

Definition sfkey (x : spec_float) : option (Z * Z * Z) :=
  match x with
  | S754_nan => None
  | S754_infinity true => Some (-2, 0, 0)
  | S754_infinity false => Some (2, 0, 0)
  | S754_zero _ => Some (0, 0, 0)
  | S754_finite true m e => Some (-1, - e, - Zpos m)
  | S754_finite false m e => Some (1, e, Zpos m)
  end.

Definition keylt (a b : Z * Z * Z) : Prop :=
  let '(a1, a2, a3) := a in
  let '(b1, b2, b3) := b in
  a1 < b1 \/ (a1 = b1 /\ (a2 < b2 \/ (a2 = b2 /\ a3 < b3))).

Lemma SFltb_key x y :
  SFltb x y = true <->
  exists a b, sfkey x = Some a /\ sfkey y = Some b /\ keylt a b.
Proof.
  unfold SFltb, SFcompare.
  destruct x as [sx|sx| |sx mx ex], y as [sy|sy| |sy my ey];
    try destruct sx; try destruct sy; simpl;
    try (split; [discriminate | intros (a & b & Ha & Hb & Hlt); try discriminate;
           injection Ha as <-; injection Hb as <-; simpl in Hlt; lia]);
    try (split; [intros _; eexists; eexists; split; [reflexivity|split; [reflexivity|simpl; lia]] | reflexivity]).
  - change (Pos.compare_cont Eq mx my) with (Pos.compare mx my).
    destruct (Z.compare_spec ex ey); destruct (Pos.compare_spec mx my); simpl;
    try (split; [discriminate | intros (a & b & Ha & Hb & Hlt);
           injection Ha as <-; injection Hb as <-; simpl in Hlt; lia]);
    try (split; [intros _; eexists; eexists; split; [reflexivity|split; [reflexivity|simpl; lia]] | reflexivity]).
  - change (Pos.compare_cont Eq mx my) with (Pos.compare mx my).
    destruct (Z.compare_spec ex ey); destruct (Pos.compare_spec mx my); simpl;
    try (split; [discriminate | intros (a & b & Ha & Hb & Hlt);
           injection Ha as <-; injection Hb as <-; simpl in Hlt; lia]);
    try (split; [intros _; eexists; eexists; split; [reflexivity|split; [reflexivity|simpl; lia]] | reflexivity]).
Qed.

Lemma float_ltb_trans (x y z : float) :
  (x <? y)%float = true -> (y <? z)%float = true -> (x <? z)%float = true.
Proof.
  rewrite !FloatAxioms.ltb_spec, !SFltb_key.
  intros (a & b & Ha & Hb & H1) (b' & c & Hb' & Hc & H2).
  rewrite Hb in Hb'. injection Hb' as <-.
  exists a, c. split; [done|split; [done|]].
  destruct a as [[a1 a2] a3], b as [[b1 b2] b3], c as [[c1 c2] c3].
  simpl in *. lia.
Qed.

Lemma float_ltb_asym (x y : float) :
  (x <? y)%float = true -> (y <? x)%float = false.
Proof.
  intros H. destruct (y <? x)%float eqn:E; [|done].
  revert H E. rewrite !FloatAxioms.ltb_spec, !SFltb_key.
  intros (a & b & Ha & Hb & H1) (b' & a' & Hb' & Ha' & H2).
  rewrite Hb in Hb'. injection Hb' as <-. rewrite Ha in Ha'. injection Ha' as <-.
  destruct a as [[a1 a2] a3], b as [[b1 b2] b3]. simpl in *. lia.
Qed.

(** ** The exchange sort

    One pass of the inner loop carries the greatest score met so far in
    slot [i] and leaves the others behind it; [bubbleMax] and [selectAll]
    say so on lists, and the loops over indices compute them. *)

Section ExchangeSortFacts.
Context {A : Type} (score : A -> float).

Fixpoint bubbleMax (x : A) (rest : list A) : A * list A :=
  match rest with
  | [] => (x, [])
  | y :: r =>
      if (score x <? score y)%float
      then let '(m, r') := bubbleMax y r in (m, x :: r')
      else let '(m, r') := bubbleMax x r in (m, y :: r')
  end.

Fixpoint selectAll (n : nat) (l : list A) : list A :=
  match n, l with
  | S n', x :: rest => let '(m, rest') := bubbleMax x rest in m :: selectAll n' rest'
  | _, _ => l
  end.

Lemma lookup_at_length (l1 l2 : list A) x : (l1 ++ x :: l2) !! length l1 = Some x.
Proof. induction l1; simpl; auto. Qed.

Lemma insert_at_length (l1 l2 : list A) x y :
  <[length l1 := y]> (l1 ++ x :: l2) = l1 ++ y :: l2.
Proof. induction l1; simpl; [done | by f_equal]. Qed.

Lemma bubbleMax_length x rest : length (bubbleMax x rest).2 = length rest.
Proof.
  revert x; induction rest as [|y r IH]; intros x; simpl; [done|].
  destruct (score x <? score y)%float.
  - specialize (IH y). destruct (bubbleMax y r); simpl in *. by rewrite IH.
  - specialize (IH x). destruct (bubbleMax x r); simpl in *. by rewrite IH.
Qed.

Lemma inner_loop_bubbleMax (pre done rest : list A) (x : A) :
  foldl (swapIfGreater score (length pre)) (pre ++ x :: done ++ rest)
        (seq (S (length pre) + length done) (length rest))
  = pre ++ (bubbleMax x rest).1 :: done ++ (bubbleMax x rest).2.
Proof.
  revert x done; induction rest as [|y r IH]; intros x done; [done|].
  cbn [length seq foldl bubbleMax].
  assert (Hi : (pre ++ x :: done ++ y :: r) !! length pre = Some x)
    by apply lookup_at_length.
  assert (Hj : (pre ++ x :: done ++ y :: r) !! (S (length pre) + length done)%nat = Some y).
  { replace (pre ++ x :: done ++ y :: r) with ((pre ++ x :: done) ++ y :: r)
      by (by rewrite <- app_assoc).
    replace (S (length pre) + length done)%nat with (length (pre ++ x :: done))
      by (rewrite length_app; simpl; lia).
    apply lookup_at_length. }
  unfold swapIfGreater at 2. rewrite Hi, Hj.
  replace (S (S (length pre) + length done)) with (S (length pre) + length (done ++ [x]))%nat
    by (rewrite length_app; simpl; lia).
  destruct (score x <? score y)%float.
  - replace (<[length pre:=y]> (<[(S (length pre) + length done)%nat:=x]>
               (pre ++ x :: done ++ y :: r)))
      with (pre ++ y :: (done ++ [x]) ++ r).
    + rewrite (IH y (done ++ [x])). replace (length (done ++ [x])) with (length (done ++ [y]))
        by (by rewrite !length_app).
      destruct (bubbleMax y r) as [m r']. simpl. by rewrite <- app_assoc.
    + replace (pre ++ x :: done ++ y :: r) with ((pre ++ x :: done) ++ y :: r)
        by (by rewrite <- app_assoc).
      replace (S (length pre) + length done)%nat with (length (pre ++ x :: done))
        by (rewrite length_app; simpl; lia).
      rewrite insert_at_length, <- (app_assoc pre (x :: done) (x :: r)).
      rewrite <- app_comm_cons, insert_at_length.
      by rewrite <- (app_assoc done [x] r).
  - replace (pre ++ x :: done ++ y :: r) with (pre ++ x :: (done ++ [y]) ++ r)
      by (by rewrite <- app_assoc).
    replace (length (done ++ [x])) with (length (done ++ [y])) by (by rewrite !length_app).
    rewrite (IH x (done ++ [y])).
    destruct (bubbleMax x r) as [m r']. simpl. by rewrite <- app_assoc.
Qed.

Lemma sortPass_bubbleMax (pre rest : list A) (x : A) :
  sortPass score (pre ++ x :: rest) (length pre)
  = pre ++ (bubbleMax x rest).1 :: (bubbleMax x rest).2.
Proof.
  unfold sortPass.
  replace (length (pre ++ x :: rest) - S (length pre))%nat with (length rest)
    by (rewrite length_app; simpl; lia).
  pose proof (inner_loop_bubbleMax pre [] rest x) as H. simpl in H.
  by rewrite Nat.add_0_r in H.
Qed.

Lemma outer_loop_selectAll (pre l : list A) :
  foldl (sortPass score) (pre ++ l) (seq (length pre) (length l))
  = pre ++ selectAll (length l) l.
Proof.
  revert pre; induction l as [l IH] using (induction_ltof1 _ (@length A));
    unfold ltof in *; intros pre.
  destruct l as [|x rest]; [done|].
  cbn [length seq foldl selectAll].
  rewrite sortPass_bubbleMax.
  pose proof (bubbleMax_length x rest) as Hlen.
  destruct (bubbleMax x rest) as [m rest']. simpl in *.
  replace (pre ++ m :: rest') with ((pre ++ [m]) ++ rest') by (by rewrite <- app_assoc).
  replace (S (length pre)) with (length (pre ++ [m])) by (rewrite length_app; simpl; lia).
  rewrite <- Hlen. rewrite IH by lia. by rewrite <- app_assoc.
Qed.

Lemma exchangeSort_selectAll (l : list A) :
  exchangeSort score l = selectAll (length l) l.
Proof. apply (outer_loop_selectAll [] l). Qed.

Lemma bubbleMax_perm x rest :
  (bubbleMax x rest).1 :: (bubbleMax x rest).2 ≡ₚ x :: rest.
Proof.
  revert x; induction rest as [|y r IH]; intros x; simpl; [done|].
  destruct (score x <? score y)%float.
  - specialize (IH y). destruct (bubbleMax y r) as [m r']; simpl in *.
    by rewrite Permutation_swap, IH.
  - specialize (IH x). destruct (bubbleMax x r) as [m r']; simpl in *.
    rewrite Permutation_swap, IH. apply Permutation_swap.
Qed.

Lemma selectAll_perm n l : selectAll n l ≡ₚ l.
Proof.
  revert l; induction n as [|n IH]; intros l; [by destruct l|].
  destruct l as [|x rest]; [done|]. simpl.
  pose proof (bubbleMax_perm x rest) as H.
  destruct (bubbleMax x rest) as [m rest']; simpl in *.
  by rewrite IH.
Qed.

(** The running maximum is the start or greater than it, and nothing left
    behind is greater than it. *)
Lemma bubbleMax_max x rest :
  ((bubbleMax x rest).1 = x \/ (score x <? score (bubbleMax x rest).1)%float = true)
  /\ forall y, y ∈ (bubbleMax x rest).2 ->
       (score (bubbleMax x rest).1 <? score y)%float = false.
Proof.
  revert x; induction rest as [|y r IH]; intros x; simpl.
  { split; [by left | intros y H; by apply elem_of_nil in H]. }
  destruct (score x <? score y)%float eqn:E.
  - destruct (IH y) as [Hm Hr]. destruct (bubbleMax y r) as [m r']; simpl in *.
    assert (Hxm : (score x <? score m)%float = true).
    { destruct Hm as [-> | Hm]; [done | by eapply float_ltb_trans]. }
    split; [by right|].
    intros z Hz. apply elem_of_cons in Hz as [-> | Hz]; [|by apply Hr].
    by apply float_ltb_asym.
  - destruct (IH x) as [Hm Hr]. destruct (bubbleMax x r) as [m r']; simpl in *.
    split; [done|].
    intros z Hz. apply elem_of_cons in Hz as [-> | Hz]; [|by apply Hr].
    destruct Hm as [-> | Hm]; [done|].
    destruct (score m <? score y)%float eqn:E'; [|done].
    by rewrite (float_ltb_trans _ _ _ Hm E') in E.
Qed.

Lemma selectAll_sorted l :
  StronglySorted (fun a b => (score a <? score b)%float = false)
                 (selectAll (length l) l).
Proof.
  induction l as [l IH] using (induction_ltof1 _ (@length A)); unfold ltof in *.
  destruct l as [|x rest]; [constructor|]. simpl.
  pose proof (bubbleMax_length x rest) as Hlen.
  pose proof (bubbleMax_max x rest) as [_ Hmax].
  destruct (bubbleMax x rest) as [m rest']; simpl in *.
  constructor.
  - rewrite <- Hlen. apply IH. lia.
  - apply Forall_forall. intros y Hy. apply Hmax.
    by rewrite <- (selectAll_perm (length rest) rest').
Qed.

Lemma exchangeSort_perm l : exchangeSort score l ≡ₚ l.
Proof. rewrite exchangeSort_selectAll. apply selectAll_perm. Qed.

Lemma exchangeSort_sorted l :
  StronglySorted (fun a b => (score a <? score b)%float = false) (exchangeSort score l).
Proof. rewrite exchangeSort_selectAll. apply selectAll_sorted. Qed.

End ExchangeSortFacts.

(** ** Theme scores *)

(** The trend scores of the items of one theme, in the order of the
    trends. *)
Definition scoresOfTheme (th : string) (trends : list AppTrend.t) : list float :=
  map AppTrend.TrendScore (filter (fun t => AppTrend.Theme t = th) trends).

Lemma themeStep_foldl_lookup th trends scores counts :
  let xs := scoresOfTheme th trends in
  (foldl themeStep (scores, counts) trends).1 !! th
    = match xs with
      | [] => scores !! th
      | _ => Some (foldl (fun sum v => sum + v)%float (default 0%float (scores !! th)) xs)
      end
  /\ (foldl themeStep (scores, counts) trends).2 !! th
    = match xs with
      | [] => counts !! th
      | _ => Some (default 0 (counts !! th) + len xs)
      end.
Proof.
  revert scores counts; induction trends as [|t ts IH]; intros scores counts; [done|].
  cbn [foldl]. unfold themeStep at 2 4. unfold scoresOfTheme in *.
  rewrite filter_cons. destruct (IH
    (<[AppTrend.Theme t := (default 0%float (scores !! AppTrend.Theme t)
                            + AppTrend.TrendScore t)%float]> scores)
    (<[AppTrend.Theme t := default 0 (counts !! AppTrend.Theme t) + 1]> counts))
    as [IH1 IH2].
  rewrite IH1, IH2. clear IH IH1 IH2.
  destruct (decide (AppTrend.Theme t = th)) as [->|Hne].
  - rewrite !lookup_insert_eq. cbn [map foldl default].
    destruct (map AppTrend.TrendScore (filter _ ts)) as [|v vs] eqn:E; [|split; [done|]].
    + split; [done|]. unfold len. simpl. f_equal.
    + unfold len, id. simpl length. f_equal. lia.
  - by rewrite !lookup_insert_ne.
Qed.

Lemma themeTotals_lookup th trends :
  (themeTotals trends).1 !! th
    = match scoresOfTheme th trends with
      | [] => None
      | xs => Some (fsum xs)
      end
  /\ (themeTotals trends).2 !! th
    = match scoresOfTheme th trends with
      | [] => None
      | xs => Some (len xs)
      end.
Proof.
  unfold themeTotals.
  destruct (themeStep_foldl_lookup th trends ∅ ∅) as [H1 H2].
  rewrite H1, H2, !lookup_empty. simpl.
  destruct (scoresOfTheme th trends); [done|]. split; [done|].
  f_equal.
Qed.

(** The mean of a theme in a result: the sum of its items' scores, in the
    order of the sorted trends, over their number; a theme without items
    has no entry. *)
Lemma themeMeans_lookup th trends :
  themeMeans (themeTotals trends).1 (themeTotals trends).2 !! th
  = match scoresOfTheme th trends with
    | [] => None
    | xs => Some (fsum xs / float64_of_int (len xs))%float
    end.
Proof.
  unfold themeMeans. rewrite map_lookup_imap.
  destruct (themeTotals_lookup th trends) as [H1 H2]. rewrite H1, H2.
  destruct (scoresOfTheme th trends) as [|v vs]; [done|].
  cbn [mbind option_bind default]. unfold id.
  assert (E : (0 <? len (v :: vs)) = true) by (apply Z.ltb_lt; unfold len; simpl; lia).
  by rewrite E.
Qed.

Lemma ThemeScores_lookup latest previous latestItems previousItems cfg themes th :
  let r := AnalyzeTrends latest previous latestItems previousItems cfg themes in
  ThemeScores r !! th
  = match scoresOfTheme th (Trends r) with
    | [] => None
    | xs => Some (fsum xs / float64_of_int (len xs))%float
    end.
Proof.
  unfold AnalyzeTrends.
  pose proof (themeMeans_lookup th
    (sortTrends (scoredTrends latest latestItems previousItems cfg themes))) as H.
  destruct (themeTotals _) as [totals counts]. simpl in *. exact H.
Qed.

(** ** The trend list *)

Lemma lookup_map {A B} (f : A -> B) (l : list A) (i : nat) :
  map f l !! i = f <$> l !! i.
Proof. revert i; induction l as [|x l IH]; intros [|i]; simpl; auto. Qed.

Lemma elem_of_map {A B} (f : A -> B) (l : list A) (y : B) :
  y ∈ map f l <-> exists x, y = f x /\ x ∈ l.
Proof. apply (list_elem_of_fmap f l y). Qed.

Lemma StronglySorted_lookup_lt {A} (R : relation A) (l : list A) i j a b :
  StronglySorted R l -> (i < j)%nat -> l !! i = Some a -> l !! j = Some b -> R a b.
Proof.
  intros Hs Hij Hi Hj. rewrite <- (take_drop j l) in Hs.
  apply (StronglySorted_app_1_elem_of R _ _ a b Hs).
  - apply list_elem_of_lookup. exists i. by rewrite lookup_take_lt.
  - apply list_elem_of_lookup. exists 0%nat. by rewrite lookup_drop, Nat.add_0_r.
Qed.

Lemma Trends_eq latest previous latestItems previousItems cfg themes :
  Trends (AnalyzeTrends latest previous latestItems previousItems cfg themes)
  = sortTrends (scoredTrends latest latestItems previousItems cfg themes).
Proof. unfold AnalyzeTrends. by destruct (themeTotals _). Qed.

Lemma Trends_perm latest previous latestItems previousItems cfg themes :
  Trends (AnalyzeTrends latest previous latestItems previousItems cfg themes)
  ≡ₚ scoredTrends latest latestItems previousItems cfg themes.
Proof. rewrite Trends_eq. apply exchangeSort_perm. Qed.

(** C9. The trends of a result are the records of the current items, one
    per item and each with the item's identifier and rank, in some order
    (a permutation of the list the two loops over the current items
    build), and no trend has a score greater than a trend before it. *)
Theorem AnalyzeTrends_trends_sorted_permutation
    latest previous latestItems previousItems cfg themes :
  let r := AnalyzeTrends latest previous latestItems previousItems cfg themes in
  let built := scoredTrends latest latestItems previousItems cfg themes in
  Trends r ≡ₚ built
  /\ length (Trends r) = length latestItems
  /\ Forall2 (fun item t => AppTrend.AppID t = ChartItem.AppID item
                            /\ AppTrend.Rank t = ChartItem.Rank item)
             latestItems built
  /\ forall i j a b, (i < j)%nat ->
       Trends r !! i = Some a -> Trends r !! j = Some b ->
       (AppTrend.TrendScore a <? AppTrend.TrendScore b)%float = false.
Proof.
  intros r built. split; [apply Trends_perm|]. split; [|split].
  - subst r. rewrite (Permutation_length (Trends_perm _ _ _ _ _ _)).
    unfold scoredTrends, baseTrends. by rewrite !length_map.
  - subst built. unfold scoredTrends, baseTrends.
    generalize (scoreOf cfg
      (rankStatsOf (map (trendOf latest (prevMapOf previousItems)
                            (NewThemeClassifier themes)) latestItems))
      (reviewStatsOf (map (trendOf latest (prevMapOf previousItems)
                            (NewThemeClassifier themes)) latestItems))).
    intros g. clear r.
    induction latestItems as [|item items IH]; simpl; constructor; [|apply IH].
    unfold trendOf. by destruct (prevMapOf previousItems !! ChartItem.AppID item).
  - intros i j a b Hij Hi Hj. subst r. rewrite Trends_eq in Hi, Hj.
    exact (StronglySorted_lookup_lt _ _ i j a b
             (exchangeSort_sorted AppTrend.TrendScore _) Hij Hi Hj).
Qed.

(** ** New entries *)

Lemma prevMapOf_foldl_absent id items (m : gmap string ChartItem.t) :
  id ∉ map ChartItem.AppID items ->
  foldl (fun m item => <[ChartItem.AppID item := item]> m) m items !! id = m !! id.
Proof.
  revert m; induction items as [|x xs IH]; intros m Hnot; [done|]. simpl in *.
  apply not_elem_of_cons in Hnot as [Hne Hnot].
  rewrite IH by done. by rewrite lookup_insert_ne.
Qed.

Lemma prevMapOf_absent id items :
  id ∉ map ChartItem.AppID items -> prevMapOf items !! id = None.
Proof. intros H. unfold prevMapOf. by rewrite prevMapOf_foldl_absent. Qed.

Lemma wrap64_in_int z : in_int z -> wrap64 z = z.
Proof.
  unfold in_int, wrap64. intros H.
  rewrite Z.mod_small; lia.
Qed.

(** C5. A current item whose identifier no previous item has: its record
    has the new-entry flag set, its rank delta is the snapshot's limit plus
    one minus its rank (in Go's [int] arithmetic, which is the integer
    difference as long as neither operation overflows), and its score is
    the weighted sum of the two z-scores with the new-entry bonus added.
    The record is one of the trends of the result. *)
Theorem new_entry_rank_delta_and_bonus
    latest previous latestItems previousItems cfg themes (i : nat) (item : ChartItem.t) :
  latestItems !! i = Some item ->
  ChartItem.AppID item ∉ map ChartItem.AppID previousItems ->
  exists t,
    scoredTrends latest latestItems previousItems cfg themes !! i = Some t
    /\ t ∈ Trends (AnalyzeTrends latest previous latestItems previousItems cfg themes)
    /\ AppTrend.AppID t = ChartItem.AppID item
    /\ AppTrend.NewEntry t = true
    /\ AppTrend.RankDelta t = int_sub (int_add (Limit latest) 1) (ChartItem.Rank item)
    /\ (in_int (Limit latest + 1) -> in_int (Limit latest + 1 - ChartItem.Rank item) ->
        AppTrend.RankDelta t = Limit latest + 1 - ChartItem.Rank item)
    /\ let trends := baseTrends latest latestItems previousItems themes in
       let '(rankMean, rankStd) := rankStatsOf trends in
       let '(reviewMean, reviewStd) := reviewStatsOf trends in
       AppTrend.TrendScore t
       = (RankWeight cfg * zscore (float64_of_int (AppTrend.RankDelta t)) rankMean rankStd
          + ReviewWeight cfg * zscore (float64_of_int (AppTrend.RatingDelta t)) reviewMean reviewStd
          + NewEntryBonus cfg)%float.
Proof.
  intros Hi Habs.
  pose proof (prevMapOf_absent _ _ Habs) as Hprev.
  eexists. split.
  { unfold scoredTrends, baseTrends. rewrite !lookup_map, Hi. reflexivity. }
  split.
  { rewrite Trends_perm. apply list_elem_of_lookup. exists i.
    unfold scoredTrends, baseTrends. by rewrite !lookup_map, Hi. }
  unfold trendOf. rewrite Hprev. simpl.
  split; [done|]. split; [done|]. split; [done|]. split.
  { intros H1 H2. unfold int_sub, int_add. by rewrite (wrap64_in_int _ H1), wrap64_in_int. }
  unfold scoreOf. simpl.
  destruct (rankStatsOf _) as [rankMean rankStd].
  by destruct (reviewStatsOf _) as [reviewMean reviewStd].
Qed.

Definition exItem (sid rank : Z) (id gid : string) (rc : NullInt) : ChartItem.t :=
  ChartItem.mk sid rank id id "" [] [gid] "" [] rc.

Definition exSnapshot (id t : Z) : Snapshot :=
  {| ID := id; CollectedAt := t; Country := "kr"; Chart := "top-free";
     Limit := 2; SourceURL := "" |}.

Definition exDay1 : list ChartItem.t :=
  [exItem 1 1 "A" "6014" (NullableInt 100); exItem 1 2 "B" "6014" (NullableInt 50)].

Definition exDay2 : list ChartItem.t :=
  [exItem 2 1 "B" "6014" (NullableInt 80); exItem 2 2 "C" "6015" (NullableInt 10)].

Definition exConfig : TrendConfig :=
  {| RankWeight := 1; ReviewWeight := 1; NewEntryBonus := 0.5 |}.

(** The scenario of the two days: C enters at rank 2 of a chart of 2. *)
Lemma new_entry_rank_delta_and_bonus_witness :
  exists t,
    scoredTrends (exSnapshot 2 90000) exDay2 exDay1 exConfig defaultThemeConfig !! 1%nat = Some t
    /\ AppTrend.NewEntry t = true /\ AppTrend.RankDelta t = 1.
Proof.
  destruct (new_entry_rank_delta_and_bonus (exSnapshot 2 90000) (exSnapshot 1 100)
              exDay2 exDay1 exConfig defaultThemeConfig 1 (exItem 2 2 "C" "6015" (NullableInt 10)))
    as (t & Ht & _ & _ & Hnew & Hdelta & _).
  - reflexivity.
  - vm_compute. intros H. repeat (apply elem_of_cons in H as [H|H]; [discriminate|]).
    by apply elem_of_nil in H.
  - exists t. split; [exact Ht|]. split; [exact Hnew|]. rewrite Hdelta. reflexivity.
Defined.

(** ** Risk groups *)

(** The scores of the themes of a group that are keys of the score map, in
    the order of the group (a theme listed twice counts twice). *)
Definition presentScores (scores : gmap string float) (themes : list string) : list float :=
  omap (fun th => scores !! th) themes.

(** Their arithmetic mean, 0 when there is none. *)
Definition groupMean (scores : gmap string float) (themes : list string) : float :=
  match presentScores scores themes with
  | [] => 0%float
  | xs => (fsum xs / float64_of_int (len xs))%float
  end.

Lemma averageThemes_loop scores themes (sum : float) (count : Z) :
  foldl (fun '(sum, count) theme =>
           match scores !! theme with
           | Some score => ((sum + score)%float, count + 1)
           | None => (sum, count)
           end) (sum, count) themes
  = (foldl (fun sum v => sum + v)%float sum (presentScores scores themes),
     count + len (presentScores scores themes)).
Proof.
  revert sum count; induction themes as [|th ths IH]; intros sum count.
  - simpl. f_equal. unfold len. simpl. lia.
  - cbn [foldl]. unfold presentScores in *. cbn [omap list_omap].
    destruct (scores !! th) as [score|]; rewrite IH; [|done].
    cbn [foldl]. f_equal. unfold len. simpl length. lia.
Qed.

Lemma averageThemes_groupMean scores themes :
  averageThemes scores themes = groupMean scores themes.
Proof.
  unfold averageThemes, groupMean.
  destruct (len themes =? 0) eqn:E.
  - apply len_zero in E. by subst.
  - rewrite averageThemes_loop.
    destruct (presentScores scores themes) as [|x xs] eqn:Ex; [done|].
    assert (Hpos : (0 + len (x :: xs) =? 0) = false).
    { apply Z.eqb_neq. unfold len. simpl length. lia. }
    rewrite Hpos. by rewrite Z.add_0_l.
Qed.

(** C6. The rotation index of a result is its risk-on score minus its
    risk-off score; each of the two is the mean of the theme scores of the
    themes of its configured group that are keys of the result's theme
    scores, a theme that is no key being left out of both the sum and the
    count; a group none of whose themes is a key, the empty group among
    them, scores 0. *)
Theorem rotation_index_is_risk_on_minus_risk_off
    latest previous latestItems previousItems cfg themes :
  let r := AnalyzeTrends latest previous latestItems previousItems cfg themes in
  RotationIndex r = (RiskOnScore r - RiskOffScore r)%float
  /\ RiskOnScore r = groupMean (ThemeScores r) (RiskOn themes)
  /\ RiskOffScore r = groupMean (ThemeScores r) (RiskOff themes)
  /\ (forall group,
        (forall th, th ∈ group -> ThemeScores r !! th = None) ->
        averageThemes (ThemeScores r) group = 0%float)
  /\ (forall group th,
        ThemeScores r !! th = None ->
        averageThemes (ThemeScores r) (th :: group)
        = groupMean (ThemeScores r) group).
Proof.
  intros r. subst r. unfold AnalyzeTrends.
  destruct (themeTotals _) as [totals counts]. cbn [RotationIndex RiskOnScore RiskOffScore ThemeScores].
  split; [done|]. split; [apply averageThemes_groupMean|].
  split; [apply averageThemes_groupMean|]. split.
  - intros group Hnone. rewrite averageThemes_groupMean. unfold groupMean.
    replace (presentScores (themeMeans totals counts) group) with (@nil float); [done|].
    symmetry. unfold presentScores. induction group as [|th ths IH]; [done|].
    cbn [omap list_omap]. rewrite (Hnone th) by left.
    apply IH. intros th' Hin. apply Hnone. by right.
  - intros group th Hnone. rewrite averageThemes_groupMean. unfold groupMean, presentScores.
    cbn [omap list_omap]. by rewrite Hnone.
Qed.

(** ** Theme labels *)









Lemma scoresOfTheme_nonempty th trends :
  scoresOfTheme th trends <> [] -> exists t, t ∈ trends /\ AppTrend.Theme t = th.
Proof.
  unfold scoresOfTheme. intros H.
  destruct (filter (fun t => AppTrend.Theme t = th) trends) as [|t ts] eqn:E; [done|].
  assert (Hin : t ∈ filter (fun t => AppTrend.Theme t = th) trends) by (rewrite E; left).
  apply list_elem_of_filter in Hin as [Hth Hin]. by exists t.
Qed.


(** The other side of C10: the risk groups and the keys of the time
    series are compared as configured.  With the one theme "Games", an
    item of that theme scores under "games", and the group ["Games"] finds
    no score. *)
Definition exCapsThemes : ThemeConfig :=
  {| Rules := [ThemeRule.mk "Games" ["6014"] [] []];
     RiskOn := ["Games"]; RiskOff := [] |}%string.

Example caps_theme_scores_under_lowercase :
  let r := AnalyzeTrends (exSnapshot 2 90000) (exSnapshot 1 100) exDay2 exDay1
             exConfig exCapsThemes in
  ThemeScores r !! "games"%string = Some 1%float
  /\ ThemeScores r !! "Games"%string = None
  /\ RiskOnScore r = 0%float.
Proof. vm_compute. done. Qed.

(** ** Day bucketing *)

Section GroupByKeyFacts.
Context (key : Snapshot -> Z).

Local Abbreviation day := (list ChartItem.t).

(** What the two loops keep, on the snapshots paired with their items: an
    entry is dropped when a later entry has its key. *)
Fixpoint keepLast (l : list (Snapshot * day)) : list (Snapshot * day) :=
  match l with
  | [] => []
  | p :: r =>
      if existsb (fun q => key q.1 =? key p.1) r then keepLast r
      else p :: keepLast r
  end.

Lemma later_key_spec (p : Snapshot * day) (r : list (Snapshot * day)) :
  existsb (fun q => key q.1 =? key p.1) r = false <->
  forall q, q ∈ r -> key q.1 <> key p.1.
Proof.
  rewrite <- not_true_iff_false, existsb_exists. split.
  - intros H q Hq E. apply H. exists q. split; [by apply list_elem_of_In|].
    by apply Z.eqb_eq.
  - intros H (q & Hq & E). apply (H q); [by apply list_elem_of_In|].
    by apply Z.eqb_eq.
Qed.

Lemma elem_of_keepLast p l :
  p ∈ keepLast l <->
  exists l1 l2, l = l1 ++ p :: l2 /\ forall q, q ∈ l2 -> key q.1 <> key p.1.
Proof.
  induction l as [|x r IH]; simpl.
  - split; [intros H; by apply elem_of_nil in H|].
    intros (l1 & l2 & H & _). by destruct l1.
  - destruct (existsb _ r) eqn:E.
    + rewrite IH. split.
      * intros (l1 & l2 & -> & H). by exists (x :: l1), l2.
      * intros ([|y l1] & l2 & H & Hno); simpl in H; simplify_eq.
        -- apply later_key_spec in Hno. congruence.
        -- by exists l1, l2.
    + rewrite elem_of_cons, IH. split.
      * intros [-> | (l1 & l2 & -> & H)].
        -- exists [], r. split; [done|]. by apply later_key_spec.
        -- by exists (x :: l1), l2.
      * intros ([|y l1] & l2 & H & Hno); simpl in H; simplify_eq; [by left|].
        right. by exists l1, l2.
Qed.

Lemma keepLast_sublist l : sublist (keepLast l) l.
Proof.
  induction l as [|x r IH]; simpl; [constructor|].
  destruct (existsb _ r); by constructor.
Qed.

Lemma keepLast_NoDup l : NoDup (map (fun p => key p.1) (keepLast l)).
Proof.
  induction l as [|x r IH]; simpl; [constructor|].
  destruct (existsb _ r) eqn:E; [done|]. simpl. constructor; [|done].
  intros Hin. apply elem_of_map in Hin as (q & Hk & Hq).
  apply later_key_spec with (q := q) in E; [by rewrite Hk in E|].
  by apply (elem_of_sublist _ _ _ Hq (keepLast_sublist r)).
Qed.

Lemma keepLast_id l : NoDup (map (fun p => key p.1) l) -> keepLast l = l.
Proof.
  induction l as [|x r IH]; simpl; [done|].
  intros Hnd. apply NoDup_cons in Hnd as [Hx Hnd].
  replace (existsb (fun q => key q.1 =? key x.1) r) with false; [by rewrite IH|].
  symmetry. apply later_key_spec. intros q Hq E. apply Hx.
  apply elem_of_map. by exists q.
Qed.

Lemma keepLast_keys (p : Snapshot * day) l :
  p ∈ l -> exists q, q ∈ keepLast l /\ key q.1 = key p.1.
Proof.
  revert p; induction l as [|x r IH]; intros p Hin; [by apply elem_of_nil in Hin|].
  simpl. destruct (existsb _ r) eqn:E.
  - apply elem_of_cons in Hin as [-> | Hin]; [|by apply IH].
    apply existsb_exists in E as (z & Hz & Ez). apply Z.eqb_eq in Ez.
    destruct (IH z) as (q & Hq & Eq); [by apply list_elem_of_In|].
    exists q. split; [done | congruence].
  - apply elem_of_cons in Hin as [-> | Hin].
    + exists x. split; [left | done].
    + destruct (IH p Hin) as (q & Hq & Eq). exists q. split; [by right | done].
Qed.

(** The first loop: the index of the last snapshot of each key. *)
Lemma dateIndexFrom_app i a b m :
  dateIndexFrom key i (a ++ b) m
  = dateIndexFrom key (i + length a) b (dateIndexFrom key i a m).
Proof.
  revert i m; induction a as [|x a IH]; intros i m; simpl.
  - by rewrite Nat.add_0_r.
  - rewrite IH. f_equal. lia.
Qed.

Lemma dateIndexFrom_other i l m k :
  (forall s, s ∈ l -> key s <> k) -> dateIndexFrom key i l m !! k = m !! k.
Proof.
  revert i m; induction l as [|x l IH]; intros i m Hno; simpl; [done|].
  rewrite IH by (intros s Hs; apply Hno; by right).
  apply lookup_insert_ne. apply Hno. left.
Qed.

Lemma dateIndexFrom_last i pre s post m :
  (forall s', s' ∈ post -> key s' <> key s) ->
  dateIndexFrom key i (pre ++ s :: post) m !! key s = Some (i + length pre)%nat.
Proof.
  intros Hno. rewrite dateIndexFrom_app. simpl.
  rewrite dateIndexFrom_other by done. apply lookup_insert_eq.
Qed.

Lemma last_occurrence (k : Z) (l : list Snapshot) :
  (exists s, s ∈ l /\ key s = k) ->
  exists l1 s l2, l = l1 ++ s :: l2 /\ key s = k /\ forall s', s' ∈ l2 -> key s' <> k.
Proof.
  induction l as [|x l IH]; intros (s & Hin & Hk); [by apply elem_of_nil in Hin|].
  destruct (decide (Exists (fun s' => key s' = k) l)) as [Hex | Hno].
  - apply Exists_exists in Hex. destruct (IH Hex) as (l1 & s1 & l2 & -> & Hk1 & Hno).
    by exists (x :: l1), s1, l2.
  - apply elem_of_cons in Hin as [-> | Hin].
    + exists [], x, l. split; [done|]. split; [done|].
      intros s' Hs' E. apply Hno, Exists_exists. by exists s'.
    + exfalso. apply Hno, Exists_exists. by exists s.
Qed.

Lemma dateIndexFrom_later pre s post :
  (exists s', s' ∈ post /\ key s' = key s) ->
  exists j, (length pre < j)%nat
            /\ dateIndexFrom key 0 (pre ++ s :: post) ∅ !! key s = Some j.
Proof.
  intros Hex. apply last_occurrence in Hex as (l1 & s1 & l2 & -> & Hk & Hno).
  exists (length (pre ++ s :: l1)). split; [rewrite length_app; simpl; lia|].
  replace (pre ++ s :: l1 ++ s1 :: l2) with ((pre ++ s :: l1) ++ s1 :: l2)
    by (by rewrite <- app_assoc).
  rewrite <- Hk. apply (dateIndexFrom_last 0). by rewrite Hk.
Qed.

Lemma zip_later_key (s : Snapshot) (its : day) (r : list Snapshot) (ir : list day) :
  length ir = length r ->
  existsb (fun q => key q.1 =? key (s, its).1) (zip r ir) = true
  <-> exists s', s' ∈ r /\ key s' = key s.
Proof.
  intros Hlen. rewrite existsb_exists. split.
  - intros ([s' its'] & Hin & E). apply Z.eqb_eq in E. exists s'. split; [|done].
    apply list_elem_of_In in Hin. by apply elem_of_zip_l in Hin.
  - intros (s' & Hin & E). apply list_elem_of_lookup in Hin as [i Hi].
    destruct (lookup_lt_is_Some_2 ir i) as [its' Hits].
    { rewrite Hlen. by eapply lookup_lt_Some. }
    exists (s', its'). split; [|by apply Z.eqb_eq].
    apply list_elem_of_In, list_elem_of_lookup. exists i.
    rewrite lookup_zip_with, Hi. simpl. by rewrite Hits.
Qed.

(** The second loop keeps what [keepLast] keeps. *)
Lemma groupFrom_keepLast (all : list Snapshot) (items : list day) :
  length items = length all ->
  forall rest done seen gs gi,
    all = done ++ rest ->
    (forall k, k ∈ seen ->
       exists j, (j < length done)%nat /\ dateIndexFrom key 0 all ∅ !! k = Some j) ->
    groupFrom key (dateIndexFrom key 0 all ∅) items (length done) rest seen gs gi
    = Ok (gs ++ (keepLast (zip rest (drop (length done) items))).*1,
          gi ++ (keepLast (zip rest (drop (length done) items))).*2).
Proof.
  intros Hlen rest. induction rest as [|s r IH]; intros done seen gs gi Hall Hseen.
  { simpl. by rewrite !app_nil_r. }
  assert (Hi : exists its, items !! length done = Some its).
  { apply lookup_lt_is_Some_2. rewrite Hlen, Hall, length_app. simpl. lia. }
  destruct Hi as [its Hi].
  rewrite (drop_S _ _ _ Hi).
  assert (Hlen' : length (drop (S (length done)) items) = length r).
  { rewrite length_drop, Hlen, Hall, length_app. simpl. lia. }
  cbn [groupFrom zip zip_with keepLast].
  specialize (IH (done ++ [s]) ).
  replace (length (done ++ [s])) with (S (length done)) in IH
    by (rewrite length_app; simpl; lia).
  destruct (existsb _ (zip r _)) eqn:E.
  - apply (zip_later_key s its r _ Hlen') in E.
    destruct (dateIndexFrom_later done s r E) as (j & Hj & Hd).
    rewrite <- Hall in Hd. rewrite Hd. simpl.
    replace (j =? length done)%nat with false by (symmetry; apply Nat.eqb_neq; lia).
    simpl. apply IH; [by rewrite <- app_assoc|].
    intros k Hk. destruct (Hseen k Hk) as (j' & Hj' & Hd'). exists j'. split; [lia | done].
  - assert (Hno : forall s', s' ∈ r -> key s' <> key s).
    { intros s' Hs' Ek. apply not_true_iff_false in E. apply E.
      apply (zip_later_key s its r _ Hlen'). by exists s'. }
    pose proof (dateIndexFrom_last 0 done s r ∅ Hno) as Hd.
    rewrite <- Hall in Hd. simpl in Hd. rewrite Hd. simpl.
    rewrite Nat.eqb_refl. simpl.
    destruct (decide (key s ∈ seen)) as [Hin | Hnotin].
    { destruct (Hseen _ Hin) as (j & Hj & Hd'). rewrite Hd in Hd'. simplify_eq. lia. }
    rewrite bool_decide_eq_false_2 by done. rewrite Hi.
    rewrite IH; [by rewrite <- !app_assoc | by rewrite <- app_assoc |].
    intros k Hk. apply elem_of_union in Hk as [Hk | Hk].
    + apply elem_of_singleton in Hk as ->. exists (length done). split; [lia | done].
    + destruct (Hseen k Hk) as (j' & Hj' & Hd'). exists j'. split; [lia | done].
Qed.

Lemma groupByKey_keepLast (snaps : list Snapshot) (items : list day) :
  length items = length snaps ->
  groupByKey key snaps items
  = Ok ((keepLast (zip snaps items)).*1, (keepLast (zip snaps items)).*2).
Proof.
  intros Hlen. unfold groupByKey. destruct (len snaps =? 0) eqn:E.
  - apply len_zero in E. subst. by destruct items.
  - apply (groupFrom_keepLast snaps items Hlen snaps [] ∅ [] []); [done|].
    intros k Hk. by apply elem_of_empty in Hk.
Qed.

End GroupByKeyFacts.

(** The day of a snapshot: Seoul's when the zone loads, UTC's otherwise. *)
Definition dayOf (c : Clock) (s : Snapshot) : Z :=
  dayKey (seoulOrUTC c) (CollectedAt s).

(** C7. For parallel slices of snapshots and items, the grouping keeps
    exactly the entries after which no entry falls on the same day (the
    day in Seoul's zone, in UTC when the zone does not load), so one entry
    per day, the one of greatest index, and every day of the input; it
    keeps them in their order; grouping its result again changes nothing,
    and an input with one snapshot per day comes back as it is. *)
Theorem groupSnapshotsByDate_keeps_last_of_each_day
    (c : Clock) (snaps : list Snapshot) (items : list (list ChartItem.t)) :
  length items = length snaps ->
  exists gs gi,
    groupSnapshotsByDate c snaps items = Ok (gs, gi)
    /\ length gi = length gs
    /\ (forall p, p ∈ zip gs gi <->
          exists l1 l2, zip snaps items = l1 ++ p :: l2
                        /\ forall q, q ∈ l2 -> dayOf c q.1 <> dayOf c p.1)
    /\ NoDup (map (dayOf c) gs)
    /\ (forall s, s ∈ snaps -> exists s', s' ∈ gs /\ dayOf c s' = dayOf c s)
    /\ sublist (zip gs gi) (zip snaps items)
    /\ groupSnapshotsByDate c gs gi = Ok (gs, gi)
    /\ (NoDup (map (dayOf c) snaps) -> gs = snaps /\ gi = items)
    /\ (forall loc, time_LoadLocation c "Asia/Seoul" = Ok loc ->
          forall s, dayOf c s = dayKey loc (CollectedAt s))
    /\ ((forall loc, time_LoadLocation c "Asia/Seoul" <> Ok loc) ->
          forall s, dayOf c s = dayKey time_UTC (CollectedAt s)).
Proof.
  intros Hlen.
  set (kept := keepLast (dayOf c) (zip snaps items)).
  assert (Hzip : zip kept.*1 kept.*2 = kept) by apply zip_fst_snd.
  assert (Hnd : NoDup (map (dayOf c) kept.*1)).
  { pose proof (keepLast_NoDup (dayOf c) (zip snaps items)) as H.
    fold kept in H. clear -H. induction kept as [|p k IH]; [done|].
    simpl in *. apply NoDup_cons in H as [H1 H2]. constructor; [|by apply IH].
    intros Hin. apply H1. apply elem_of_map in Hin as (s & Hs & Hin).
    apply list_elem_of_fmap in Hin as (q & -> & Hin).
    apply elem_of_map. by exists q. }
  exists kept.*1, kept.*2.
  split; [apply (groupByKey_keepLast (dayOf c) snaps items Hlen)|].
  split; [by rewrite !length_fmap|].
  split; [rewrite Hzip; intros p; apply elem_of_keepLast|].
  split; [done|]. split.
  { intros s Hs. apply list_elem_of_lookup in Hs as [i Hi].
    destruct (lookup_lt_is_Some_2 items i) as [its Hits].
    { rewrite Hlen. by eapply lookup_lt_Some. }
    destruct (keepLast_keys (dayOf c) (s, its) (zip snaps items)) as (q & Hq & E).
    { apply list_elem_of_lookup. exists i. by apply lookup_zip_Some. }
    exists q.1. split; [|done]. apply list_elem_of_fmap. by exists q. }
  split; [rewrite Hzip; apply keepLast_sublist|].
  split.
  { unfold groupSnapshotsByDate. fold (dayOf c).
    rewrite (groupByKey_keepLast (dayOf c)) by (by rewrite !length_fmap).
    rewrite Hzip. rewrite (keepLast_id (dayOf c) kept); [done|].
    apply (keepLast_NoDup (dayOf c)). }
  split.
  { intros Hone. subst kept. rewrite (keepLast_id (dayOf c)).
    - split; [apply fst_zip; lia | apply snd_zip; lia].
    - clear -Hone Hlen. revert items Hlen.
      induction snaps as [|s r IH]; intros [|its ir] Hlen; simpl in *; try done.
      apply NoDup_cons in Hone as [H1 H2]. constructor; [|apply IH; [done | lia]].
      intros Hin. apply H1. apply elem_of_map in Hin as ([s' its'] & E & Hin).
      apply elem_of_zip_l in Hin. apply elem_of_map. by exists s'. }
  split.
  - intros loc Hloc s. unfold dayOf, seoulOrUTC. by rewrite Hloc.
  - intros Hfail s. unfold dayOf, seoulOrUTC.
    destruct (time_LoadLocation c "Asia/Seoul") as [loc| |] eqn:E; [|done..].
    by destruct (Hfail loc).
Qed.

Definition exClock : Clock :=
  {| time_Now := 200000; time_LoadLocation := fun _ => Ok (fun _ => 32400) |}.

(** Three snapshots, the last two on one day in Seoul: the first and the
    third are kept. *)
Lemma groupSnapshotsByDate_keeps_last_of_each_day_witness :
  exists gs gi,
    groupSnapshotsByDate exClock
      [exSnapshot 1 100; exSnapshot 2 90000; exSnapshot 3 90001] [exDay1; []; exDay2]
    = Ok (gs, gi)
    /\ gs = [exSnapshot 1 100; exSnapshot 3 90001] /\ gi = [exDay1; exDay2].
Proof.
  destruct (groupSnapshotsByDate_keeps_last_of_each_day exClock
              [exSnapshot 1 100; exSnapshot 2 90000; exSnapshot 3 90001]
              [exDay1; []; exDay2] eq_refl) as (gs & gi & H & _).
  exists gs, gi. split; [exact H|].
  vm_compute in H. injection H as <- <-. split; reflexivity.
Defined.

(** ** The theme names of the time series *)

Lemma uniqueFrom_spec rs (seen : gset string) (themes : list string) :
  NoDup themes -> (forall T, T ∈ seen <-> T ∈ themes) ->
  NoDup (uniqueFrom rs seen themes)
  /\ forall T, T ∈ uniqueFrom rs seen themes <->
       T ∈ themes
       \/ (T <> EmptyString /\ exists rule, rule ∈ rs /\ ThemeRule.Theme rule = T).
Proof.
  revert seen themes; induction rs as [|r rs IH]; intros seen themes Hnd Hseen; simpl.
  - split; [done|]. intros T. split; [by left|].
    intros [H | (_ & rule & H & _)]; [done | by apply elem_of_nil in H].
  - destruct (is_empty (ThemeRule.Theme r)) eqn:E.
    { apply is_empty_true in E. destruct (IH seen themes Hnd Hseen) as [H1 H2].
      split; [done|]. intros T. rewrite H2. split.
      - intros [H | (Hne & rule & Hin & <-)]; [by left|].
        right. split; [done|]. exists rule. split; [by right | done].
      - intros [H | (Hne & rule & Hin & <-)]; [by left|].
        apply elem_of_cons in Hin as [-> | Hin]; [done|].
        right. split; [done|]. by exists rule. }
    destruct (decide (ThemeRule.Theme r ∈ seen)) as [Hin | Hnotin].
    + rewrite bool_decide_eq_true_2 by done.
      destruct (IH seen themes Hnd Hseen) as [H1 H2].
      split; [done|]. intros T. rewrite H2. split.
      * intros [H | (Hne & rule & Hr & <-)]; [by left|].
        right. split; [done|]. exists rule. split; [by right | done].
      * intros [H | (Hne & rule & Hr & <-)]; [by left|].
        apply elem_of_cons in Hr as [-> | Hr]; [left; by apply Hseen|].
        right. split; [done|]. by exists rule.
    + rewrite bool_decide_eq_false_2 by done.
      destruct (IH ({[ThemeRule.Theme r]} ∪ seen) (themes ++ [ThemeRule.Theme r])) as [H1 H2].
      * apply NoDup_app. split; [done|]. split; [|apply NoDup_singleton].
        intros T HT HT'. apply list_elem_of_singleton in HT' as ->.
        by apply Hnotin, Hseen.
      * intros T. rewrite elem_of_union, elem_of_singleton, elem_of_app,
          list_elem_of_singleton, Hseen. tauto.
      * split; [done|]. intros T. rewrite H2, elem_of_app, list_elem_of_singleton. split.
        -- intros [[H | ->] | (Hne & rule & Hr & <-)].
           ++ by left.
           ++ right. split; [intros E'; by rewrite E' in E|].
              exists r. split; [left | done].
           ++ right. split; [done|]. exists rule. split; [by right | done].
        -- intros [H | (Hne & rule & Hr & <-)]; [left; by left|].
           apply elem_of_cons in Hr as [-> | Hr]; [left; by right|].
           right. split; [done|]. by exists rule.
Qed.

Lemma insert_sorted_perm x l : insert_sorted x l ≡ₚ x :: l.
Proof.
  induction l as [|y r IH]; simpl; [done|].
  destruct (String.leb x y); [done|]. rewrite IH. apply Permutation_swap.
Qed.

Lemma sort_Strings_perm l : sort_Strings l ≡ₚ l.
Proof.
  induction l as [|x l IH]; simpl; [done|].
  unfold sort_Strings in *. simpl. by rewrite insert_sorted_perm, IH.
Qed.

Lemma insert_sorted_Sorted x l :
  Sorted (fun a b => String.leb a b = true) l ->
  Sorted (fun a b => String.leb a b = true) (insert_sorted x l).
Proof.
  induction l as [|y r IH]; intros Hs; simpl.
  - constructor; constructor.
  - destruct (String.leb x y) eqn:E.
    + constructor; [done|]. by constructor.
    + apply Sorted_inv in Hs as [Hs Hhd]. constructor; [by apply IH|].
      destruct r as [|z r]; simpl.
      * constructor. destruct (String.leb_total x y) as [H|H]; congruence.
      * destruct (String.leb x z).
        -- constructor. destruct (String.leb_total x y) as [H|H]; congruence.
        -- constructor. by apply HdRel_inv in Hhd.
Qed.

Lemma sort_Strings_Sorted l : Sorted (fun a b => String.leb a b = true) (sort_Strings l).
Proof.
  induction l as [|x l IH]; [constructor|]. by apply insert_sorted_Sorted.
Qed.

Lemma leb_ne_ltb a b : String.leb a b = true -> a <> b -> String.ltb a b = true.
Proof.
  unfold String.leb, String.ltb. intros H Hne.
  destruct (String.compare a b) eqn:E; try done.
  by apply String.compare_eq_iff in E.
Qed.

Lemma Sorted_strict l :
  NoDup l -> Sorted (fun a b => String.leb a b = true) l ->
  Sorted (fun a b => String.ltb a b = true) l.
Proof.
  induction l as [|x l IH]; intros Hnd Hs; [constructor|].
  apply NoDup_cons in Hnd as [Hx Hnd]. apply Sorted_inv in Hs as [Hs Hhd].
  constructor; [by apply IH|].
  destruct l as [|y l]; constructor. apply HdRel_inv in Hhd.
  apply leb_ne_ltb; [done|]. intros ->. apply Hx. left.
Qed.

(** The theme names: "other" and the non-empty themes of the rules, each
    once, in strictly ascending byte-wise order. *)
Lemma uniqueThemes_spec cfg :
  NoDup (uniqueThemes cfg)
  /\ Sorted (fun a b => String.ltb a b = true) (uniqueThemes cfg)
  /\ forall T, T ∈ uniqueThemes cfg <->
       T = "other"%string
       \/ (T <> EmptyString /\ exists rule, rule ∈ Rules cfg /\ ThemeRule.Theme rule = T).
Proof.
  unfold uniqueThemes.
  destruct (uniqueFrom_spec (Rules cfg) {["other"%string]} ["other"%string]) as [H1 H2].
  { apply NoDup_singleton. }
  { intros T. by rewrite elem_of_singleton, list_elem_of_singleton. }
  assert (Hnd : NoDup (sort_Strings (uniqueFrom (Rules cfg) {["other"%string]} ["other"%string]))).
  { by rewrite sort_Strings_perm. }
  split; [done|]. split.
  - apply Sorted_strict; [done | apply sort_Strings_Sorted].
  - intros T. rewrite sort_Strings_perm, H2, list_elem_of_singleton. tauto.
Qed.

(** ** The theme series *)

Lemma initial_series_lookup names (m : gmap string (list float)) T :
  foldl (fun m th => <[th := []]> m) m names !! T
  = if decide (T ∈ names) then Some [] else m !! T.
Proof.
  revert m; induction names as [|x xs IH]; intros m; simpl; [done|].
  rewrite IH. destruct (decide (T ∈ xs)) as [Hin | Hnotin].
  - rewrite decide_True; [done | by right].
  - destruct (decide (T = x)) as [-> | Hne].
    + rewrite decide_True by left. apply lookup_insert_eq.
    + rewrite decide_False, lookup_insert_ne; [done..|].
      intros H. apply elem_of_cons in H as [H|H]; done.
Qed.

Lemma appendThemeScores_lookup names (m : gmap string (list float)) r T :
  NoDup names ->
  appendThemeScores names m r !! T
  = if decide (T ∈ names)
    then Some (default [] (m !! T) ++ [default 0%float (ThemeScores r !! T)])
    else m !! T.
Proof.
  unfold appendThemeScores.
  revert m; induction names as [|x xs IH]; intros m Hnd; simpl; [done|].
  apply NoDup_cons in Hnd as [Hx Hnd]. rewrite IH by done.
  destruct (decide (T ∈ xs)) as [Hin | Hnotin].
  - rewrite decide_True by (by right).
    rewrite lookup_insert_ne; [done|]. by intros ->.
  - destruct (decide (T = x)) as [-> | Hne].
    + rewrite decide_True by left. apply lookup_insert_eq.
    + rewrite decide_False, lookup_insert_ne; [done..|].
      intros H. apply elem_of_cons in H as [H|H]; done.
Qed.

Lemma series_lookup names (m : gmap string (list float)) results T :
  NoDup names ->
  foldl (appendThemeScores names) m results !! T
  = if decide (T ∈ names)
    then match results with
         | [] => m !! T
         | _ => Some (default [] (m !! T)
                      ++ map (fun r => default 0%float (ThemeScores r !! T)) results)
         end
    else m !! T.
Proof.
  intros Hnd. revert m; induction results as [|r rs IH]; intros m; simpl.
  - by destruct (decide (T ∈ names)).
  - rewrite IH, appendThemeScores_lookup by done.
    destruct (decide (T ∈ names)); [|done]. simpl.
    destruct rs; simpl; [done|]. by rewrite <- app_assoc.
Qed.

Lemma mapM_length {A B} (f : A -> result B) l ys :
  mapM f l = Ok ys -> length ys = length l.
Proof.
  revert ys; induction l as [|x l IH]; intros ys; simpl; [by intros [= <-]|].
  destruct (f x) as [y| |]; simpl; try done.
  destruct (mapM f l) as [ys'| |]; simpl; try done.
  intros [= <-]. simpl. by rewrite (IH ys').
Qed.

Lemma mapM_lookup {A B} (f : A -> result B) l ys i x :
  mapM f l = Ok ys -> l !! i = Some x -> exists y, ys !! i = Some y /\ f x = Ok y.
Proof.
  revert ys i; induction l as [|x' l IH]; intros ys i; simpl; [done|].
  destruct (f x') as [y| |] eqn:E; simpl; try done.
  destruct (mapM f l) as [ys'| |]; simpl; try done.
  intros [= <-]. destruct i as [|i]; simpl.
  - intros [= ->]. by exists y.
  - by apply IH.
Qed.

(** What a successful [computeTimeSeries] went through. *)
Lemma computeTimeSeries_Ok_inv w c st country chart themePath cfg topN p :
  computeTimeSeries w c st country chart themePath cfg topN = Ok p ->
  exists all themeConfig allItems gs gi results,
    ListSnapshots st country chart = Ok all
    /\ all <> []
    /\ LoadThemeConfig w themePath = Ok themeConfig
    /\ mapM (fun s => GetSnapshotItems st (ID s)) all = Ok allItems
    /\ groupSnapshotsByDate c all allItems = Ok (gs, gi)
    /\ mapM (dayResult cfg themeConfig gs gi) (seq 0 (length gs)) = Ok results
    /\ Dates p = map CollectedAt gs
    /\ p_RotationIndex p = map RotationIndex results
    /\ p_RiskOnScore p = map RiskOnScore results
    /\ p_RiskOffScore p = map RiskOffScore results
    /\ p_ThemeScores p
       = foldl (appendThemeScores (uniqueThemes themeConfig))
               (foldl (fun m th => <[th := []]> m) ∅ (uniqueThemes themeConfig)) results.
Proof.
  unfold computeTimeSeries.
  destruct (ListSnapshots st country chart) as [all| |] eqn:Hall; simpl; try done.
  destruct (len all =? 0) eqn:Hlen; [done|].
  destruct (LoadThemeConfig w themePath) as [themeConfig| |] eqn:Hcfg; simpl; try done.
  destruct (mapM _ all) as [allItems| |] eqn:Hitems; simpl; try done.
  destruct (groupSnapshotsByDate c all allItems) as [[gs gi]| |] eqn:Hg; simpl; try done.
  destruct (mapM (dayResult cfg themeConfig gs gi) _) as [results| |] eqn:Hres; simpl; try done.
  destruct (buildTopApps gi gs topN) as [topApps| |]; simpl; try done.
  destruct (index gs (length gs - 1)) as [lastSnapshot| |]; simpl; try done.
  intros [= <-]. exists all, themeConfig, allItems, gs, gi, results.
  repeat split; try done.
  intros ->. discriminate.
Qed.


(** A store with two days of the chart, and the worlds the examples read
    their theme file in. *)
Definition exStore : Store :=
  {| snapshots := [exSnapshot 1 100; exSnapshot 2 90000];
     chart_items := exDay1 ++ exDay2 |}.

(** No theme file: the defaults are used. *)
Definition exWorld : World :=
  {| os_Stat := fun _ => Some ErrNotExist;
     os_ReadFile := fun _ => Err ErrNotExist;
     json_Unmarshal := fun _ => Err (errorString "unexpected end of JSON input") |}.





(** ** Too few snapshots *)

Lemma mapM_all_Ok {A B} (f : A -> result B) (l : list A) :
  (forall x, x ∈ l -> exists y, f x = Ok y) -> exists ys, mapM f l = Ok ys.
Proof.
  induction l as [|x l IH]; intros H; simpl; [by eexists|].
  destruct (H x) as [y Hy]; [left|]. rewrite Hy. simpl.
  destruct IH as [ys Hys]; [intros x' Hx'; apply H; by right|].
  rewrite Hys. simpl. by eexists.
Qed.

(** With one retained day every history has one cell, and no write is out
    of range. *)
Lemma historyOf_one {B} (m : gmap string ChartItem.t) id (cell : ChartItem.t -> option B) :
  exists row, historyOf 1 [m] id cell = Ok row.
Proof.
  unfold historyOf. simpl.
  destruct (m !! id) as [item|]; [|by eexists].
  destruct (cell item); by eexists.
Qed.

Lemma buildTopApps_one (items : list ChartItem.t) (s : Snapshot) (topN : Z) :
  0 <= topN -> exists apps, buildTopApps [items] [s] topN = Ok apps.
Proof.
  intros Hn. unfold buildTopApps. cbn [last].
  assert (Hmin : ((if len items <? topN then len items else topN) <? 0) = false).
  { apply Z.ltb_ge. destruct (len items <? topN); [unfold len; lia | done]. }
  rewrite Hmin. apply mapM_all_Ok. intros item _. cbn [map length].
  destruct (historyOf_one (itemMapOf items) (ChartItem.AppID item)
              (fun it => Some (ChartItem.Rank it))) as [ranks ->].
  destruct (historyOf_one (itemMapOf items) (ChartItem.AppID item)
              (fun it => if Valid (ChartItem.RatingCount it)
                         then Some (Value (ChartItem.RatingCount it)) else None))
    as [counts ->].
  simpl. by eexists.
Qed.

Lemma computeReport_no_snapshot w c st country chart themePath cfg :
  snapshotsOf st country chart = [] ->
  computeReport w c st country chart themePath cfg = Err ErrNoRows.
Proof.
  intros H. unfold computeReport, GetLatestSnapshot. by rewrite H.
Qed.

Lemma computeReport_one_snapshot w c st country chart themePath cfg s :
  snapshotsOf st country chart = [s] ->
  computeReport w c st country chart themePath cfg
  = Err (errorString "need at least two snapshots for report").
Proof.
  intros H. unfold computeReport, GetLatestSnapshot, GetPreviousSnapshot.
  rewrite H. cbn [latestOf scanSnapshot bind].
  rewrite filter_cons, decide_False by lia. done.
Qed.

Lemma computeTimeSeries_no_snapshot w c st country chart themePath cfg topN :
  snapshotsOf st country chart = [] ->
  computeTimeSeries w c st country chart themePath cfg topN
  = Err (errorString "no snapshots found").
Proof.
  intros H. unfold computeTimeSeries, ListSnapshots. by rewrite H.
Qed.

Lemma computeTimeSeries_one_snapshot w c st country chart themePath cfg topN s themeConfig :
  snapshotsOf st country chart = [s] ->
  LoadThemeConfig w themePath = Ok themeConfig ->
  0 <= topN ->
  exists p items,
    GetSnapshotItems st (ID s) = Ok items
    /\ computeTimeSeries w c st country chart themePath cfg topN = Ok p
    /\ Dates p = [CollectedAt s]
    /\ p_RotationIndex p = [RotationIndex (AnalyzeTrends s s items items cfg themeConfig)].
Proof.
  intros H Hcfg Hn. unfold computeTimeSeries, ListSnapshots. rewrite H.
  cbn [foldr insertByTime bind mapM]. change (len [s] =? 0) with false.
  rewrite Hcfg. unfold GetSnapshotItems. cbn [bind].
  set (items := foldr insertByRank [] _).
  unfold groupSnapshotsByDate.
  rewrite (groupByKey_keepLast _ [s] [items] eq_refl).
  cbn [zip zip_with keepLast existsb fmap list_fmap fst snd bind length seq mapM].
  unfold dayResult, index. cbn [lookup list_lookup bind].
  destruct (buildTopApps_one items s topN Hn) as [apps ->].
  cbn [bind Nat.sub lookup list_lookup].
  eexists. exists items. split; [reflexivity|]. split; [reflexivity|].
  split; reflexivity.
Qed.

(** C1, amended.  With fewer than two snapshots of the market and chart
    the report fails with an error: [sql.ErrNoRows] when there is none,
    "need at least two snapshots for report" when there is one.  The time
    series fails with "no snapshots found" when there is none; with exactly
    one snapshot it fails only as the theme file does, and otherwise (for a
    top count that is not negative) it returns a payload of one day, that
    day's transition being the snapshot against itself. *)
Theorem analysis_with_too_few_snapshots w c st country chart themePath cfg topN :
  (length (snapshotsOf st country chart) < 2)%nat ->
  is_Err (computeReport w c st country chart themePath cfg) = true
  /\ (snapshotsOf st country chart = [] ->
        computeReport w c st country chart themePath cfg = Err ErrNoRows
        /\ computeTimeSeries w c st country chart themePath cfg topN
           = Err (errorString "no snapshots found"))
  /\ (forall s, snapshotsOf st country chart = [s] ->
        computeReport w c st country chart themePath cfg
        = Err (errorString "need at least two snapshots for report")
        /\ (forall e, LoadThemeConfig w themePath = Err e ->
              computeTimeSeries w c st country chart themePath cfg topN = Err e)
        /\ (forall themeConfig, LoadThemeConfig w themePath = Ok themeConfig ->
              0 <= topN ->
              exists p items,
                GetSnapshotItems st (ID s) = Ok items
                /\ computeTimeSeries w c st country chart themePath cfg topN = Ok p
                /\ Dates p = [CollectedAt s]
                /\ p_RotationIndex p
                   = [RotationIndex (AnalyzeTrends s s items items cfg themeConfig)])).
Proof.
  intros Hlt. split; [|split].
  - destruct (snapshotsOf st country chart) as [|s [|s' l]] eqn:E.
    + by rewrite computeReport_no_snapshot.
    + by rewrite (computeReport_one_snapshot _ _ _ _ _ _ _ s).
    + simpl in Hlt. lia.
  - intros E. split.
    + by apply computeReport_no_snapshot.
    + by apply computeTimeSeries_no_snapshot.
  - intros s E. split; [by apply computeReport_one_snapshot with (s := s)|]. split.
    + intros e He. unfold computeTimeSeries, ListSnapshots. rewrite E.
      cbn [foldr insertByTime bind]. change (len [s] =? 0) with false.
      by rewrite He.
    + intros themeConfig Hcfg Hn. by apply computeTimeSeries_one_snapshot.
Qed.

(** A store with a single snapshot of the chart. *)
Definition exStoreOne : Store :=
  {| snapshots := [exSnapshot 1 100]; chart_items := exDay1 |}.

Lemma analysis_with_too_few_snapshots_witness :
  is_Err (computeReport exWorld exClock exStoreOne "kr" "top-free"
            "config/themes.json" exConfig) = true.
Proof.
  apply (analysis_with_too_few_snapshots exWorld exClock exStoreOne "kr" "top-free"
           "config/themes.json" exConfig 10).
  vm_compute. lia.
Defined.

(** C1 as stated fails: with exactly one stored snapshot the time series
    does not fail, it returns a payload with one date. *)
Lemma timeseries_accepts_one_snapshot :
  length (snapshotsOf exStoreOne "kr" "top-free") = 1%nat
  /\ is_Err (computeTimeSeries exWorld exClock exStoreOne "kr" "top-free"
               "config/themes.json" exConfig 10) = false
  /\ exists p, computeTimeSeries exWorld exClock exStoreOne "kr" "top-free"
                 "config/themes.json" exConfig 10 = Ok p
               /\ Dates p = [100].
Proof.
  split; [reflexivity|]. split; [vm_compute; reflexivity|].
  destruct (computeTimeSeries exWorld exClock exStoreOne "kr" "top-free"
              "config/themes.json" exConfig 10) as [p| |] eqn:E;
    [|vm_compute in E; discriminate..].
  exists p. split; [reflexivity|].
  vm_compute in E. injection E as <-. reflexivity.
Qed.

(** ** Zero in binary64

    [float64(n)] of a positive [int] is a positive number (not zero, not NaN):
    rounding a positive integer shifts its mantissa by fewer bits than it has.
    So [0 / float64(n)] is [0]. *)

Lemma shr_1_pos q r s :
  1 < Zpos (digits2_pos q) ->
  exists q', shr_m (shr_1 (Build_shr_record (Zpos q) r s)) = Zpos q'
             /\ Zpos (digits2_pos q') = Zpos (digits2_pos q) - 1.
Proof.
  destruct q as [q|q|]; cbn [digits2_pos shr_1 shr_m]; intros H;
    [exists q | exists q | lia]; (split; [reflexivity | rewrite Pos2Z.inj_succ; lia]).
Qed.

Lemma iter_shr_1_pos p :
  forall mrs q, shr_m mrs = Zpos q -> Zpos p < Zpos (digits2_pos q) ->
  exists q', shr_m (SpecFloat.iter_pos shr_1 p mrs) = Zpos q'
             /\ Zpos (digits2_pos q') = Zpos (digits2_pos q) - Zpos p.
Proof.
  induction p as [p IH|p IH|]; intros mrs q Hm Hlt; cbn [SpecFloat.iter_pos].
  - rewrite Pos2Z.inj_xI in *. destruct mrs as [m r s]. simpl in Hm. subst m.
    destruct (shr_1_pos q r s) as (q1 & H1 & D1); [lia|].
    destruct (IH _ q1 H1) as (q2 & H2 & D2); [lia|].
    destruct (IH _ q2 H2) as (q3 & H3 & D3); [lia|].
    exists q3. split; [exact H3 | lia].
  - rewrite Pos2Z.inj_xO in *. destruct (IH _ q Hm) as (q2 & H2 & D2); [lia|].
    destruct (IH _ q2 H2) as (q3 & H3 & D3); [lia|].
    exists q3. split; [exact H3 | lia].
  - destruct mrs as [m r s]. simpl in Hm. subst m.
    destruct (shr_1_pos q r s) as (q1 & H1 & D1); [lia|].
    exists q1. split; [exact H1 | lia].
Qed.

Lemma shr_fexp_pos q e l :
  -1074 <= e ->
  exists q' e', shr_m (fst (shr_fexp prec emax (Zpos q) e l)) = Zpos q'
                /\ snd (shr_fexp prec emax (Zpos q) e l) = e' /\ -1074 <= e'.
Proof.
  intros He. unfold shr_fexp, shr, fexp, emin, prec, emax. simpl Zdigits2.
  destruct (Z.max (Zpos (digits2_pos q) + e - 53) (3 - 1024 - 53) - e) as [|n|n] eqn:En.
  - exists q, e. destruct l as [|[]]; simpl; auto.
  - destruct (iter_shr_1_pos n (shr_record_of_loc (Zpos q) l) q) as (q' & H & _).
    + destruct l as [|[]]; reflexivity.
    + lia.
    + exists q', (e + Zpos n). simpl. split; [exact H|]. split; [reflexivity | lia].
  - exists q, e. destruct l as [|[]]; simpl; auto.
Qed.

Lemma binary_round_aux_pos sx q e l :
  -1074 <= e ->
  (exists m e', binary_round_aux prec emax sx (Zpos q) e l = S754_finite sx m e')
  \/ binary_round_aux prec emax sx (Zpos q) e l = S754_infinity sx.
Proof.
  intros He. unfold binary_round_aux.
  destruct (shr_fexp_pos q e l He) as (q1 & e1 & H1 & E1 & He1).
  destruct (shr_fexp prec emax (Zpos q) e l) as [mrs1 e1']. simpl in *. subst e1'.
  assert (Hr : exists q2, round_nearest_even (shr_m mrs1) (loc_of_shr_record mrs1) = Zpos q2).
  { rewrite H1. unfold round_nearest_even.
    destruct (loc_of_shr_record mrs1) as [|[]]; try (eexists; reflexivity).
    - destruct (Z.even (Zpos q1)); eexists; reflexivity.
  }
  destruct Hr as [q2 Hr]. rewrite Hr.
  destruct (shr_fexp_pos q2 e1 loc_Exact He1) as (q3 & e3 & H3 & E3 & He3).
  destruct (shr_fexp prec emax (Zpos q2) e1 loc_Exact) as [mrs3 e3']. simpl in *. subst e3'.
  rewrite H3. destruct (e3 <=? _); [left; eauto | right; reflexivity].
Qed.

Lemma of_uint63_pos n :
  0 < n < 2 ^ 63 ->
  (exists m e, Prim2SF (of_uint63 (of_Z n)) = S754_finite false m e)
  \/ Prim2SF (of_uint63 (of_Z n)) = S754_infinity false.
Proof.
  intros Hn. rewrite FloatAxioms.of_uint63_spec, Uint63.of_Z_spec.
  replace wB with (2 ^ 63) by reflexivity. rewrite Z.mod_small by lia.
  destruct n as [|p|p]; try lia. unfold binary_normalize, binary_round.
  destruct (shl_align p 0 (fexp prec emax (Zpos (digits2_pos p) + 0))) as [mz ez] eqn:E.
  apply binary_round_aux_pos.
  unfold shl_align, fexp, emin, prec, emax in E.
  destruct (Z.max (Zpos (digits2_pos p) + 0 - 53) (3 - 1024 - 53) - 0) eqn:E'; injection E as <- <-; lia.
Qed.

Lemma zero_div_pos n :
  0 < n < 2 ^ 63 -> (0 / of_uint63 (of_Z n))%float = 0%float.
Proof.
  intros Hn. apply Prim2SF_inj. rewrite FloatAxioms.div_spec.
  destruct (of_uint63_pos n Hn) as [(m & e & ->) | ->]; reflexivity.
Qed.

(** A weight that is a number: not NaN, not infinite. *)
Definition finite (w : float) : bool :=
  match Prim2SF w with
  | S754_zero _ | S754_finite _ _ _ => true
  | _ => false
  end.

Lemma weighted_zero w1 w2 :
  finite w1 = true -> finite w2 = true ->
  (w1 * 0 + w2 * 0 =? 0)%float = true.
Proof.
  unfold finite. intros H1 H2.
  rewrite FloatAxioms.eqb_spec, FloatAxioms.add_spec, !FloatAxioms.mul_spec.
  change (Prim2SF 0) with (S754_zero false).
  destruct (Prim2SF w1) as [s1|s1| |s1 m1 e1]; try discriminate;
    destruct (Prim2SF w2) as [s2|s2| |s2 m2 e2]; try discriminate;
    destruct s1, s2; reflexivity.
Qed.

Lemma float64_of_len_pos {A} (l : list A) :
  l <> [] -> len l < 2 ^ 63 -> (0 / float64_of_int (len l))%float = 0%float.
Proof.
  intros Hne Hlt. unfold float64_of_int.
  assert (Hpos : 0 < len l) by (destruct l; [done | unfold len; simpl length; lia]).
  replace (len l <? 0) with false by (symmetry; apply Z.ltb_ge; lia).
  apply zero_div_pos. lia.
Qed.

Lemma fsum_zeros (values : list float) :
  Forall (fun v => v = 0%float) values -> fsum values = 0%float.
Proof.
  unfold fsum. induction 1 as [|v vs -> _ IH]; [done|]. exact IH.
Qed.

Lemma variance_zeros (values : list float) :
  Forall (fun v => v = 0%float) values ->
  foldl (fun variance v => variance + (v - 0) * (v - 0))%float 0%float values
  = 0%float.
Proof. induction 1 as [|v vs -> _ IH]; [done|]. exact IH. Qed.

(** A series of zeros has mean 0 and deviation 0. *)
Lemma meanStd_zeros (values : list float) :
  Forall (fun v => v = 0%float) values -> len values < 2 ^ 63 ->
  meanStd values = (0%float, 0%float).
Proof.
  intros Hz Hlt. unfold meanStd.
  destruct (len values =? 0) eqn:E; [done|].
  assert (Hne : values <> []) by (intros ->; discriminate).
  rewrite (fsum_zeros _ Hz), (float64_of_len_pos _ Hne Hlt). cbv zeta.
  rewrite (variance_zeros _ Hz), (float64_of_len_pos _ Hne Hlt).
  reflexivity.
Qed.

(** ** The first day of a series *)

Lemma prevMapOf_self items item :
  NoDup (map ChartItem.AppID items) -> item ∈ items ->
  prevMapOf items !! ChartItem.AppID item = Some item.
Proof.
  unfold prevMapOf. generalize (∅ : gmap string ChartItem.t).
  induction items as [|x xs IH]; intros m Hnd Hin; [by apply elem_of_nil in Hin|].
  simpl in *. apply NoDup_cons in Hnd as [Hx Hnd].
  apply elem_of_cons in Hin as [-> | Hin]; [|by apply IH].
  rewrite prevMapOf_foldl_absent by done. apply lookup_insert_eq.
Qed.

Lemma int_sub_diag z : int_sub z z = 0.
Proof. unfold int_sub. by rewrite Z.sub_diag. Qed.

Lemma trendOf_self latest items cls item :
  NoDup (map ChartItem.AppID items) -> item ∈ items ->
  let t := trendOf latest (prevMapOf items) cls item in
  AppTrend.RankDelta t = 0 /\ AppTrend.RatingDelta t = 0 /\ AppTrend.NewEntry t = false.
Proof.
  intros Hnd Hin. unfold trendOf. rewrite (prevMapOf_self _ _ Hnd Hin). simpl.
  split; [apply int_sub_diag|]. split; [|done].
  unfold computeRatingDelta. destruct (Valid (ChartItem.RatingCount item)); simpl; [|done].
  apply int_sub_diag.
Qed.

Lemma baseTrends_self latest items themes t :
  NoDup (map ChartItem.AppID items) ->
  t ∈ baseTrends latest items items themes ->
  AppTrend.RankDelta t = 0 /\ AppTrend.RatingDelta t = 0 /\ AppTrend.NewEntry t = false.
Proof.
  intros Hnd Ht. unfold baseTrends in Ht.
  apply elem_of_map in Ht as (item & -> & Hin). by apply trendOf_self.
Qed.

Lemma stats_self latest items themes :
  NoDup (map ChartItem.AppID items) -> len items < 2 ^ 63 ->
  rankStatsOf (baseTrends latest items items themes) = (0%float, 0%float)
  /\ reviewStatsOf (baseTrends latest items items themes) = (0%float, 0%float).
Proof.
  intros Hnd Hlt.
  assert (Hlen : forall (f : AppTrend.t -> float),
            len (map f (baseTrends latest items items themes)) < 2 ^ 63).
  { intros f. unfold len, baseTrends in *. by rewrite !length_map. }
  split; apply meanStd_zeros; try apply Hlen;
    apply Forall_forall; intros v Hv; apply elem_of_map in Hv as (t & -> & Ht);
    destruct (baseTrends_self _ _ _ _ Hnd Ht) as (H1 & H2 & _).
  - by rewrite H1.
  - by rewrite H2.
Qed.

(** C4, amended.  The first retained day of a time series is analysed
    against itself.  When the identifiers of the day's items are distinct
    and the two weights are numbers (neither infinite nor NaN), every
    trend of that transition has rank delta 0, popularity delta 0, no
    new-entry flag, and a trend score equal to 0: both series of deltas
    are all zero, so both deviations and both z-scores are 0 and the score
    is [RankWeight * 0 + ReviewWeight * 0] with no bonus. *)
Theorem first_day_transition_is_flat latest items cfg themes :
  NoDup (map ChartItem.AppID items) ->
  len items < 2 ^ 63 ->
  finite (RankWeight cfg) = true ->
  finite (ReviewWeight cfg) = true ->
  (forall snaps snapshotItems,
      snaps !! 0%nat = Some latest -> snapshotItems !! 0%nat = Some items ->
      dayResult cfg themes snaps snapshotItems 0
      = Ok (AnalyzeTrends latest latest items items cfg themes))
  /\ forall t,
       t ∈ Trends (AnalyzeTrends latest latest items items cfg themes) ->
       AppTrend.RankDelta t = 0
       /\ AppTrend.RatingDelta t = 0
       /\ AppTrend.NewEntry t = false
       /\ AppTrend.TrendScore t = (RankWeight cfg * 0 + ReviewWeight cfg * 0)%float
       /\ (AppTrend.TrendScore t =? 0)%float = true.
Proof.
  intros Hnd Hlt Hw1 Hw2. split.
  { intros snaps snapshotItems Hs Hi. unfold dayResult, index. by rewrite Hs, Hi. }
  intros t Ht. rewrite Trends_perm in Ht. unfold scoredTrends in Ht.
  apply elem_of_map in Ht as (t0 & -> & Ht0).
  destruct (baseTrends_self _ _ _ _ Hnd Ht0) as (H1 & H2 & H3).
  destruct (stats_self latest items themes Hnd Hlt) as [-> ->].
  destruct t0 as [id name url rank rd rc rtd sc th ne]. simpl in *. subst.
  split; [done|]. split; [done|]. split; [done|].
  unfold scoreOf. cbn [AppTrend.RankDelta AppTrend.RatingDelta AppTrend.NewEntry fst snd].
  change (zscore (float64_of_int 0) 0 0) with 0%float.
  split; [done | by apply weighted_zero].
Qed.

(** The first day of the two-day scenario, against itself. *)
Lemma first_day_transition_is_flat_witness :
  Forall (fun t => AppTrend.RankDelta t = 0 /\ AppTrend.RatingDelta t = 0
                   /\ AppTrend.NewEntry t = false
                   /\ (AppTrend.TrendScore t =? 0)%float = true)
         (Trends (AnalyzeTrends (exSnapshot 1 100) (exSnapshot 1 100) exDay1 exDay1
                    exConfig defaultThemeConfig)).
Proof.
  destruct (first_day_transition_is_flat (exSnapshot 1 100) exDay1 exConfig
              defaultThemeConfig) as [_ H].
  - vm_compute. repeat constructor; intros Hin;
      repeat (apply elem_of_cons in Hin as [Hin|Hin]; [discriminate|]);
      by apply elem_of_nil in Hin.
  - vm_compute. reflexivity.
  - vm_compute. reflexivity.
  - vm_compute. reflexivity.
  - apply Forall_forall. intros t Ht.
    destruct (H t Ht) as (H1 & H2 & H3 & _ & H5). auto.
Defined.

Definition exInfConfig : TrendConfig :=
  {| RankWeight := infinity; ReviewWeight := 1; NewEntryBonus := 0.5 |}.

(** C4 as stated fails: with an infinite rank weight (the weights are the
    flags [-rank-weight] and [-review-weight], which accept "Inf") the
    self-transition of a day of distinct items gives every trend the score
    NaN, [Inf * 0], which is not 0. *)
Lemma first_day_score_with_infinite_weight :
  NoDup (map ChartItem.AppID exDay1)
  /\ exists t,
       t ∈ Trends (AnalyzeTrends (exSnapshot 1 100) (exSnapshot 1 100) exDay1 exDay1
                     exInfConfig defaultThemeConfig)
       /\ AppTrend.RankDelta t = 0
       /\ AppTrend.NewEntry t = false
       /\ (AppTrend.TrendScore t =? 0)%float = false
       /\ PrimFloat.is_nan (AppTrend.TrendScore t) = true.
Proof.
  split.
  - vm_compute. repeat constructor; intros Hin;
      repeat (apply elem_of_cons in Hin as [Hin|Hin]; [discriminate|]);
      by apply elem_of_nil in Hin.
  - eexists. split; [vm_compute; left|]. vm_compute. auto.
Qed.

(** * Further properties of the analysis *)

(** ** Trends *)

Lemma themeMeans_empty : themeMeans ∅ ∅ = ∅.
Proof. apply map_eq. intros th. unfold themeMeans. by rewrite map_lookup_imap, !lookup_empty. Qed.

Lemma presentScores_empty themes : presentScores ∅ themes = [].
Proof.
  unfold presentScores. induction themes as [|th ths IH]; [done|].
  cbn [omap list_omap]. by rewrite lookup_empty.
Qed.

(** X1. With no current item the analysis gives no trend, no theme score
    and the three indices 0, whatever the previous items and the
    configuration are. *)
Theorem AnalyzeTrends_no_current_item latest previous previousItems cfg themes :
  let r := AnalyzeTrends latest previous [] previousItems cfg themes in
  Trends r = [] /\ ThemeScores r = ∅
  /\ RiskOnScore r = 0%float /\ RiskOffScore r = 0%float /\ RotationIndex r = 0%float.
Proof.
  intros r. subst r. unfold AnalyzeTrends.
  change (sortTrends (scoredTrends latest [] previousItems cfg themes)) with (@nil AppTrend.t).
  change (themeTotals []) with ((∅ : gmap string float), (∅ : gmap string Z)).
  cbn [Trends ThemeScores RiskOnScore RiskOffScore RotationIndex].
  rewrite themeMeans_empty, !averageThemes_groupMean.
  unfold groupMean. rewrite !presentScores_empty. done.
Qed.

Lemma prevMapOf_last pre prev post :
  ChartItem.AppID prev ∉ map ChartItem.AppID post ->
  prevMapOf (pre ++ prev :: post) !! ChartItem.AppID prev = Some prev.
Proof.
  intros Hno. unfold prevMapOf. rewrite foldl_app. simpl.
  rewrite prevMapOf_foldl_absent by done. apply lookup_insert_eq.
Qed.

(** X2. A current item whose identifier some previous item has is
    compared with the last previous item of that identifier: its record
    has no new-entry flag, its rank delta is that item's rank minus its own
    (in Go's [int] arithmetic), and its score is the weighted sum of the
    two z-scores, without the new-entry bonus. *)
Theorem returning_item_rank_delta
    latest previous latestItems pre prev post cfg themes (i : nat) (item : ChartItem.t) :
  latestItems !! i = Some item ->
  ChartItem.AppID prev = ChartItem.AppID item ->
  ChartItem.AppID item ∉ map ChartItem.AppID post ->
  exists t,
    scoredTrends latest latestItems (pre ++ prev :: post) cfg themes !! i = Some t
    /\ t ∈ Trends (AnalyzeTrends latest previous latestItems (pre ++ prev :: post) cfg themes)
    /\ AppTrend.AppID t = ChartItem.AppID item
    /\ AppTrend.Rank t = ChartItem.Rank item
    /\ AppTrend.NewEntry t = false
    /\ AppTrend.RankDelta t = int_sub (ChartItem.Rank prev) (ChartItem.Rank item)
    /\ let trends := baseTrends latest latestItems (pre ++ prev :: post) themes in
       AppTrend.TrendScore t
       = (RankWeight cfg
            * zscore (float64_of_int (AppTrend.RankDelta t))
                     (rankStatsOf trends).1 (rankStatsOf trends).2
          + ReviewWeight cfg
            * zscore (float64_of_int (AppTrend.RatingDelta t))
                     (reviewStatsOf trends).1 (reviewStatsOf trends).2)%float.
Proof.
  intros Hi Hid Hno.
  assert (Hprev : prevMapOf (pre ++ prev :: post) !! ChartItem.AppID item = Some prev).
  { rewrite <- Hid. apply prevMapOf_last. by rewrite Hid. }
  eexists. split.
  { unfold scoredTrends, baseTrends. rewrite !lookup_map, Hi. reflexivity. }
  split.
  { rewrite Trends_perm. apply list_elem_of_lookup. exists i.
    unfold scoredTrends, baseTrends. by rewrite !lookup_map, Hi. }
  unfold trendOf. rewrite Hprev. by cbn.
Qed.

(** In the scenario of the two days B was second and is first. *)
Lemma returning_item_rank_delta_witness :
  exists t,
    scoredTrends (exSnapshot 2 90000) exDay2 exDay1 exConfig defaultThemeConfig !! 0%nat
    = Some t
    /\ AppTrend.NewEntry t = false /\ AppTrend.RankDelta t = 1.
Proof.
  destruct (returning_item_rank_delta (exSnapshot 2 90000) (exSnapshot 1 100) exDay2
              [exItem 1 1 "A" "6014" (NullableInt 100)]
              (exItem 1 2 "B" "6014" (NullableInt 50)) []
              exConfig defaultThemeConfig 0
              (exItem 2 1 "B" "6014" (NullableInt 80)))
    as (t & Ht & _ & _ & _ & Hnew & Hdelta & _).
  - reflexivity.
  - reflexivity.
  - intros H. by apply elem_of_nil in H.
  - exists t. split; [exact Ht|]. split; [exact Hnew|]. rewrite Hdelta. reflexivity.
Defined.

(** X3. The popularity delta of a current item: 0 when the item has no
    rating count; the whole count when it has one and either no previous
    item has its identifier or the previous item it is compared with has
    no count; the count minus the previous count otherwise.  The record
    carries the item's count as stored. *)
Theorem rating_delta_of_item
    latest latestItems previousItems cfg themes (i : nat) (item : ChartItem.t) :
  latestItems !! i = Some item ->
  exists t,
    scoredTrends latest latestItems previousItems cfg themes !! i = Some t
    /\ AppTrend.RatingCount t = Value (ChartItem.RatingCount item)
    /\ (Valid (ChartItem.RatingCount item) = false -> AppTrend.RatingDelta t = 0)
    /\ (Valid (ChartItem.RatingCount item) = true ->
        ChartItem.AppID item ∉ map ChartItem.AppID previousItems ->
        AppTrend.RatingDelta t = Value (ChartItem.RatingCount item))
    /\ (Valid (ChartItem.RatingCount item) = true ->
        forall pre prev post,
          previousItems = pre ++ prev :: post ->
          ChartItem.AppID prev = ChartItem.AppID item ->
          ChartItem.AppID item ∉ map ChartItem.AppID post ->
          AppTrend.RatingDelta t
          = if Valid (ChartItem.RatingCount prev)
            then int_sub (Value (ChartItem.RatingCount item))
                         (Value (ChartItem.RatingCount prev))
            else Value (ChartItem.RatingCount item)).
Proof.
  intros Hi. eexists. split.
  { unfold scoredTrends, baseTrends. rewrite !lookup_map, Hi. reflexivity. }
  cbn [AppTrend.withScore AppTrend.RatingCount AppTrend.RatingDelta].
  split; [unfold trendOf; by destruct (prevMapOf previousItems !! _)|].
  split; [|split].
  - intros Hv. unfold trendOf.
    destruct (prevMapOf previousItems !! _); cbn; unfold computeRatingDelta; by rewrite Hv.
  - intros Hv Habs. unfold trendOf. rewrite (prevMapOf_absent _ _ Habs). cbn.
    unfold computeRatingDelta. by rewrite Hv.
  - intros Hv pre prev post -> Hid Hno. unfold trendOf.
    assert (Hprev : prevMapOf (pre ++ prev :: post) !! ChartItem.AppID item = Some prev).
    { rewrite <- Hid. apply prevMapOf_last. by rewrite Hid. }
    rewrite Hprev. cbn. unfold computeRatingDelta. rewrite Hv. cbn.
    by destruct (Valid (ChartItem.RatingCount prev)).
Qed.

Lemma rating_delta_of_item_witness :
  exists t,
    scoredTrends (exSnapshot 2 90000) exDay2 exDay1 exConfig defaultThemeConfig !! 0%nat
    = Some t
    /\ AppTrend.RatingCount t = 80 /\ AppTrend.RatingDelta t = 30.
Proof.
  destruct (rating_delta_of_item (exSnapshot 2 90000) exDay2 exDay1 exConfig
              defaultThemeConfig 0 (exItem 2 1 "B" "6014" (NullableInt 80)) eq_refl)
    as (t & Ht & Hc & _ & _ & Hd).
  exists t. split; [exact Ht|]. split; [exact Hc|].
  rewrite (Hd eq_refl [exItem 1 1 "A" "6014" (NullableInt 100)]
             (exItem 1 2 "B" "6014" (NullableInt 50)) [] eq_refl eq_refl).
  - reflexivity.
  - intros H. by apply elem_of_nil in H.
Defined.

Lemma size_list_to_set_le (l : list string) :
  (size (list_to_set l : gset string) <= length l)%nat.
Proof.
  induction l as [|x l IH]; [done|]. cbn [list_to_set length].
  destruct (decide (x ∈ (list_to_set l : gset string))) as [Hin | Hnotin].
  - assert (E : {[x]} ∪ list_to_set l = (list_to_set l : gset string)).
    { apply subseteq_union_1_L. by apply singleton_subseteq_l. }
    rewrite E. lia.
  - rewrite size_union by (by apply disjoint_singleton_l). rewrite size_singleton. lia.
Qed.

(** X4. The theme scores of a result have one key per theme that some
    trend of the result has, and no other; the value of a key is the sum of
    the scores of the trends of that theme, added in the order of the
    sorted trends, divided by their number. *)
Theorem theme_scores_are_means_of_present_themes
    latest previous latestItems previousItems cfg themes :
  let r := AnalyzeTrends latest previous latestItems previousItems cfg themes in
  (forall th, is_Some (ThemeScores r !! th) <->
              exists t, t ∈ Trends r /\ AppTrend.Theme t = th)
  /\ (forall th v, ThemeScores r !! th = Some v ->
        v = (fsum (scoresOfTheme th (Trends r))
             / float64_of_int (len (scoresOfTheme th (Trends r))))%float)
  /\ (size (ThemeScores r) <= length latestItems)%nat.
Proof.
  intros r.
  assert (Hkeys : forall th, is_Some (ThemeScores r !! th) <->
                             exists t, t ∈ Trends r /\ AppTrend.Theme t = th).
  { intros th. subst r. rewrite ThemeScores_lookup. split.
    - intros Hs. apply scoresOfTheme_nonempty. intros E. rewrite E in Hs. by destruct Hs.
    - intros (t & Ht & Hth). unfold scoresOfTheme.
      destruct (filter _ _) as [|x xs] eqn:E; [|by eexists].
      assert (Hin : t ∈ filter (fun t => AppTrend.Theme t = th)
                (Trends (AnalyzeTrends latest previous latestItems previousItems cfg themes))).
      { by apply list_elem_of_filter. }
      rewrite E in Hin. by apply elem_of_nil in Hin. }
  split; [done|]. split.
  - intros th v. subst r. rewrite ThemeScores_lookup.
    destruct (scoresOfTheme th _); [done | by intros [= <-]].
  - rewrite <- size_dom.
    assert (Hsub : dom (ThemeScores r) ⊆ list_to_set (map AppTrend.Theme (Trends r))).
    { intros th Hth. apply elem_of_dom, Hkeys in Hth as (t & Ht & <-).
      apply elem_of_list_to_set, elem_of_map. by exists t. }
    etrans; [apply (subseteq_size _ _ Hsub)|].
    etrans; [apply size_list_to_set_le|].
    rewrite length_map. subst r.
    rewrite (Permutation_length (Trends_perm _ _ _ _ _ _)).
    unfold scoredTrends, baseTrends. by rewrite !length_map.
Qed.

(** X5. [meanStd] of the empty series is (0, 0), and so is [meanStd] of a
    series of zeros, whose values then all have z-score 0; [zscore] answers
    0 for a deviation of 0, of either sign, whatever the value and the mean
    are, NaN and the infinities included. *)
Theorem meanStd_and_zscore_at_zero :
  meanStd [] = (0%float, 0%float)
  /\ (forall values,
        Forall (fun v => v = 0%float) values -> len values < 2 ^ 63 ->
        meanStd values = (0%float, 0%float)
        /\ Forall (fun v => zscore v (meanStd values).1 (meanStd values).2 = 0%float) values)
  /\ (forall x m, zscore x m 0 = 0%float /\ zscore x m (-0) = 0%float).
Proof.
  split; [done|]. split; [|done].
  intros values Hz Hlt. rewrite (meanStd_zeros values Hz Hlt). split; [done|].
  apply Forall_forall. intros v _. reflexivity.
Qed.

(** ** Sorting *)

Section ExchangeSortFixed.
Context {A : Type} (score : A -> float).

Lemma bubbleMax_fixed x rest :
  Forall (fun y => (score x <? score y)%float = false) rest ->
  bubbleMax score x rest = (x, rest).
Proof.
  induction 1 as [|y r Hy _ IH]; simpl; [done|]. by rewrite Hy, IH.
Qed.

Lemma selectAll_fixed l :
  StronglySorted (fun a b => (score a <? score b)%float = false) l ->
  selectAll score (length l) l = l.
Proof.
  induction 1 as [|x l _ IH Hx]; simpl; [done|].
  by rewrite (bubbleMax_fixed x l Hx), IH.
Qed.

Lemma exchangeSort_fixed l :
  StronglySorted (fun a b => (score a <? score b)%float = false) l ->
  exchangeSort score l = l.
Proof. intros H. rewrite exchangeSort_selectAll. by apply selectAll_fixed. Qed.

End ExchangeSortFixed.

(** X6. [sortTrends] leaves alone a list in which no trend has a score
    greater than a trend before it: equal scores are never exchanged, and
    sorting twice is sorting once.  The length is kept. *)
Theorem sortTrends_fixes_sorted_lists (items : list AppTrend.t) :
  (StronglySorted (fun a b => (AppTrend.TrendScore a <? AppTrend.TrendScore b)%float = false)
     items -> sortTrends items = items)
  /\ sortTrends (sortTrends items) = sortTrends items
  /\ length (sortTrends items) = length items.
Proof.
  split; [apply exchangeSort_fixed|]. split.
  - apply exchangeSort_fixed, exchangeSort_sorted.
  - apply Permutation_length, exchangeSort_perm.
Qed.

(** ** Theme scores, sorted *)

(** X7. [SortThemeScores] lists each key of the score map once with its
    score, and no pair has a score greater than a pair before it. *)
Theorem SortThemeScores_lists_the_map (scores : gmap string float) :
  (forall th sc, {| ts_Theme := th; Score := sc |} ∈ SortThemeScores scores
                 <-> scores !! th = Some sc)
  /\ NoDup (map ts_Theme (SortThemeScores scores))
  /\ length (SortThemeScores scores) = size scores
  /\ StronglySorted (fun a b => (Score a <? Score b)%float = false) (SortThemeScores scores).
Proof.
  unfold SortThemeScores.
  set (pairs := map (fun '(th, sc) => {| ts_Theme := th; Score := sc |}) (map_to_list scores)).
  assert (Hperm : exchangeSort Score pairs ≡ₚ pairs) by apply exchangeSort_perm.
  assert (Hth : map ts_Theme pairs = (map_to_list scores).*1).
  { subst pairs. generalize (map_to_list scores). intros l.
    induction l as [|[th sc] l IH]; simpl; [done | by rewrite IH]. }
  split; [|split; [|split]].
  - intros th sc. rewrite Hperm. subst pairs. rewrite elem_of_map. split.
    + intros ([th' sc'] & [= -> ->] & Hin). by apply elem_of_map_to_list.
    + intros H. exists (th, sc). split; [done | by apply elem_of_map_to_list].
  - rewrite Hperm, Hth. apply NoDup_fst_map_to_list.
  - rewrite (Permutation_length Hperm). subst pairs.
    by rewrite length_map, length_map_to_list.
  - apply exchangeSort_sorted.
Qed.

(** ** Normalisation *)





















(** ** Rules that cannot match *)

Lemma classifyRules_skip gs ids name a r b :
  idHit ids r = false -> genreHit gs r = false -> keywordHit name r = false ->
  classifyRules gs ids name (a ++ r :: b) = classifyRules gs ids name (a ++ b).
Proof.
  intros H1 H2 H3. induction a as [|x a IH]; simpl.
  - by rewrite H1, H2, H3.
  - by rewrite IH.
Qed.

Lemma normalizeList_blank items :
  (forall x, x ∈ items -> TrimSpace x = EmptyString) -> normalizeList items = [].
Proof.
  induction items as [|x xs IH]; intros H; simpl; [done|].
  rewrite (H x) by left. simpl. apply IH. intros y Hy. apply H. by right.
Qed.

(** X10. A rule that lists no genre identifier and whose genre fragments
    and keywords are all blank labels nothing: leaving it out of the
    configuration changes no label. *)
Theorem blank_rule_labels_nothing (pre post : list ThemeRule.t) (rule : ThemeRule.t)
    (riskOn riskOff : list string) (input : ThemeInput.t) :
  ThemeRule.GenreIDs rule = [] ->
  (forall g, g ∈ ThemeRule.Genres rule -> TrimSpace g = EmptyString) ->
  (forall k, k ∈ ThemeRule.Keywords rule -> TrimSpace k = EmptyString) ->
  Classify (NewThemeClassifier
              {| Rules := pre ++ rule :: post; RiskOn := riskOn; RiskOff := riskOff |}) input
  = Classify (NewThemeClassifier
                {| Rules := pre ++ post; RiskOn := riskOn; RiskOff := riskOff |}) input.
Proof.
  intros Hids Hg Hk. unfold Classify, NewThemeClassifier. cbn [rules Rules].
  rewrite !map_app. cbn [map]. apply classifyRules_skip.
  - unfold idHit, normalizeRule. cbn [genreIDs]. rewrite Hids.
    change (idSet []) with (∅ : gset string).
    induction (elements _) as [|id l IH]; [done|]. simpl.
    by rewrite bool_decide_eq_false_2 by apply not_elem_of_empty.
  - unfold genreHit, normalizeRule. cbn [genres]. rewrite (normalizeList_blank _ Hg).
    induction (normalizeList _) as [|g l IH]; [done|]. by simpl.
  - unfold keywordHit, normalizeRule. cbn [keywords]. by rewrite (normalizeList_blank _ Hk).
Qed.

Lemma blank_rule_labels_nothing_witness :
  Classify (NewThemeClassifier
              {| Rules := ThemeRule.mk "misc" [] ["  "] [""] :: Rules defaultThemeConfig;
                 RiskOn := []; RiskOff := [] |})
           (ThemeInput.mk "Chess" ["Games"] ["6014"] "" [])
  = "games"%string.
Proof.
  rewrite (blank_rule_labels_nothing [] (Rules defaultThemeConfig)
             (ThemeRule.mk "misc" [] ["  "] [""]) [] []).
  - reflexivity.
  - reflexivity.
  - intros g Hg. apply list_elem_of_singleton in Hg as ->. reflexivity.
  - intros k Hk. apply list_elem_of_singleton in Hk as ->. reflexivity.
Defined.

(** ** The histories of the top items *)

Lemma mapM_Ok_map {A B} (g : A -> B) (f : A -> result B) (l : list A) :
  (forall x, x ∈ l -> f x = Ok (g x)) -> mapM f l = Ok (map g l).
Proof.
  induction l as [|x l IH]; intros H; simpl; [done|].
  rewrite (H x) by left. simpl. rewrite IH; [done|].
  intros y Hy. apply H. by right.
Qed.

(** The cell of one day in a history. *)
Definition cellOf {B} (cell : ChartItem.t -> option B) (id : string)
    (m : gmap string ChartItem.t) : option B :=
  match m !! id with
  | Some item => cell item
  | None => None
  end.

(** A history has a cell per snapshot: the cells of the item maps, in
    order, then empty cells. *)
Lemma historyOf_closed {B} (n : nat) (itemMaps : list (gmap string ChartItem.t))
    (id : string) (cell : ChartItem.t -> option B) :
  (length itemMaps <= n)%nat ->
  historyOf n itemMaps id cell
  = Ok (map (cellOf cell id) itemMaps ++ replicate (n - length itemMaps) None).
Proof.
  unfold historyOf.
  induction itemMaps as [|m ms IH] using rev_ind; intros Hlen.
  - simpl. by rewrite Nat.sub_0_r.
  - rewrite length_app in Hlen. simpl in Hlen.
    rewrite imap_app, foldl_app, IH by lia. cbn [imap foldl bind].
    rewrite Nat.add_0_r, map_app, (length_app ms [m]), <- app_assoc.
    cbn [map length app].
    replace (n - length ms)%nat with (S (n - (length ms + 1))) by lia.
    cbn [replicate].
    set (front := map (cellOf cell id) ms).
    set (back := replicate (n - (length ms + 1)) (@None B)).
    assert (Hfront : length ms = length front) by (symmetry; apply length_map).
    change (cellOf cell id m)
      with (match m !! id with Some item => cell item | None => None end).
    destruct (m !! id) as [item|]; [|done].
    destruct (cell item) as [v|]; [|done].
    rewrite Hfront, insert_at_length.
    replace (length front <? length (front ++ None :: back))%nat with true; [done|].
    symmetry. apply Nat.ltb_lt. rewrite length_app. simpl. lia.
Qed.

(** The record of one top item, over the days of the series. *)
Definition topAppOf (snapshotItems : list (list ChartItem.t)) (item : ChartItem.t)
    : timeSeriesTopApp :=
  let id := ChartItem.AppID item in
  {| top_AppID := id;
     top_AppName := ChartItem.AppName item;
     top_AppURL := ChartItem.AppURL item;
     Ranks := map (fun its => cellOf (fun it => Some (ChartItem.Rank it)) id (itemMapOf its))
                  snapshotItems;
     RatingCounts :=
       map (fun its => cellOf (fun it => if Valid (ChartItem.RatingCount it)
                                         then Some (Value (ChartItem.RatingCount it))
                                         else None) id (itemMapOf its))
           snapshotItems |}.

Lemma buildTopApps_closed snapshotItems snaps topN latestItems :
  length snapshotItems = length snaps -> 0 <= topN ->
  last snapshotItems = Some latestItems ->
  buildTopApps snapshotItems snaps topN
  = Ok (map (topAppOf snapshotItems) (take (Z.to_nat topN) latestItems)).
Proof.
  intros Hlen Hn Hlast. unfold buildTopApps. rewrite Hlast.
  assert (Htake : take (Z.to_nat (if len latestItems <? topN then len latestItems else topN))
                       latestItems = take (Z.to_nat topN) latestItems).
  { destruct (len latestItems <? topN) eqn:E; [|done].
    apply Z.ltb_lt in E. unfold len in *.
    rewrite Nat2Z.id, !take_ge; [done | lia | lia]. }
  assert (Hmin : ((if len latestItems <? topN then len latestItems else topN) <? 0) = false).
  { apply Z.ltb_ge. destruct (len latestItems <? topN); [unfold len; lia | done]. }
  rewrite Hmin, Htake. apply mapM_Ok_map. intros item _.
  rewrite !historyOf_closed by (rewrite length_map; lia).
  rewrite length_map, Hlen, Nat.sub_diag. cbn [replicate bind].
  rewrite !app_nil_r, !map_map. reflexivity.
Qed.

(** X11. For as many item lists as snapshots and a top count that is not
    negative, [buildTopApps] returns the first [topN] items of the last
    day in that day's order, all of them when there are fewer, each with
    its identifier, name and address and with one rank cell and one
    rating-count cell per day; without any day it returns nothing. *)
Theorem buildTopApps_shape snapshotItems snaps topN :
  length snapshotItems = length snaps -> 0 <= topN ->
  exists apps,
    buildTopApps snapshotItems snaps topN = Ok apps
    /\ (snapshotItems = [] -> apps = [])
    /\ (forall latestItems, last snapshotItems = Some latestItems ->
          length apps = Z.to_nat (Z.min topN (len latestItems))
          /\ Forall2 (fun item a => top_AppID a = ChartItem.AppID item
                                    /\ top_AppName a = ChartItem.AppName item
                                    /\ top_AppURL a = ChartItem.AppURL item)
                     (take (Z.to_nat topN) latestItems) apps)
    /\ Forall (fun a => length (Ranks a) = length snaps
                        /\ length (RatingCounts a) = length snaps) apps.
Proof.
  intros Hlen Hn.
  destruct (last snapshotItems) as [latestItems|] eqn:Hlast.
  - exists (map (topAppOf snapshotItems) (take (Z.to_nat topN) latestItems)).
    split; [by apply buildTopApps_closed|]. split; [by intros ->|]. split.
    + intros l [= <-]. split.
      * rewrite length_map, length_take. unfold len. lia.
      * generalize (take (Z.to_nat topN) latestItems). intros l.
        induction l as [|item l IH]; simpl; constructor; [done | exact IH].
    + apply Forall_forall. intros a Ha. apply elem_of_map in Ha as (item & -> & _).
      simpl. by rewrite !length_map.
  - exists []. apply last_None in Hlast. subst snapshotItems.
    split; [done|]. split; [done|]. split; [done | constructor].
Qed.

Lemma buildTopApps_shape_witness :
  exists apps,
    buildTopApps [exDay1; exDay2] [exSnapshot 1 100; exSnapshot 2 90000] 5 = Ok apps
    /\ length apps = 2%nat.
Proof.
  destruct (buildTopApps_shape [exDay1; exDay2] [exSnapshot 1 100; exSnapshot 2 90000] 5)
    as (apps & H & _ & Hlast & _); [reflexivity | lia |].
  exists apps. split; [exact H|].
  destruct (Hlast exDay2 eq_refl) as [Hl _]. rewrite Hl. reflexivity.
Defined.

(** X12. The cells of a history: on a day whose items do not hold the
    identifier of the top item both cells are empty; on a day that holds
    it, the rank cell is the rank of the day's last item of that
    identifier, and the rating-count cell is that item's count, empty when
    the item has none. *)
Theorem buildTopApps_cells snapshotItems snaps topN apps :
  length snapshotItems = length snaps -> 0 <= topN ->
  buildTopApps snapshotItems snaps topN = Ok apps ->
  forall a d its, a ∈ apps -> snapshotItems !! d = Some its ->
    (top_AppID a ∉ map ChartItem.AppID its ->
       Ranks a !! d = Some None /\ RatingCounts a !! d = Some None)
    /\ (forall pre item post,
          its = pre ++ item :: post ->
          ChartItem.AppID item = top_AppID a ->
          top_AppID a ∉ map ChartItem.AppID post ->
          Ranks a !! d = Some (Some (ChartItem.Rank item))
          /\ RatingCounts a !! d
             = Some (if Valid (ChartItem.RatingCount item)
                     then Some (Value (ChartItem.RatingCount item)) else None)).
Proof.
  intros Hlen Hn Hb a d its Ha Hd.
  destruct (last snapshotItems) as [latestItems|] eqn:Hlast.
  2: { apply last_None in Hlast. by subst. }
  rewrite (buildTopApps_closed _ _ _ _ Hlen Hn Hlast) in Hb. injection Hb as <-.
  apply elem_of_map in Ha as (item0 & -> & _).
  cbn [topAppOf top_AppID Ranks RatingCounts]. rewrite !lookup_map, Hd. cbn [fmap option_fmap option_map].
  unfold cellOf. change (itemMapOf its) with (prevMapOf its). split.
  - intros Habs. by rewrite (prevMapOf_absent _ _ Habs).
  - intros pre item post -> Hid Hno. rewrite <- Hid in *.
    by rewrite (prevMapOf_last pre item post Hno).
Qed.

Lemma buildTopApps_cells_witness :
  exists apps a,
    buildTopApps [exDay1; exDay2] [exSnapshot 1 100; exSnapshot 2 90000] 5 = Ok apps
    /\ apps !! 1%nat = Some a /\ top_AppID a = "C"%string
    /\ Ranks a !! 0%nat = Some None /\ Ranks a !! 1%nat = Some (Some 2).
Proof.
  destruct (buildTopApps [exDay1; exDay2] [exSnapshot 1 100; exSnapshot 2 90000] 5)
    as [apps| |] eqn:E; [|vm_compute in E; discriminate..].
  pose proof (buildTopApps_cells [exDay1; exDay2]
                [exSnapshot 1 100; exSnapshot 2 90000] 5 apps eq_refl ltac:(lia) E) as H.
  vm_compute in E. injection E as <-.
  match type of H with
  | forall a d its, a ∈ [_; ?x] -> _ => set (a := x) in *
  end.
  assert (Ha : a ∈ [{| top_AppID := "B"; top_AppName := "B"; top_AppURL := "";
                      Ranks := [Some 2; Some 1]; RatingCounts := [Some 50; Some 80] |}; a])
    by (right; left).
  exists [{| top_AppID := "B"; top_AppName := "B"; top_AppURL := "";
             Ranks := [Some 2; Some 1]; RatingCounts := [Some 50; Some 80] |}; a], a.
  split; [reflexivity|]. split; [reflexivity|]. split; [reflexivity|].
  destruct (H a 0%nat exDay1 Ha eq_refl) as [H0 _].
  destruct (H a 1%nat exDay2 Ha eq_refl) as [_ H1].
  split.
  - apply H0. vm_compute. intros Hin.
    repeat (apply elem_of_cons in Hin as [Hin|Hin]; [discriminate|]).
    by apply elem_of_nil in Hin.
  - apply (H1 [exItem 2 1 "B" "6014" (NullableInt 80)]
              (exItem 2 2 "C" "6015" (NullableInt 10)) [] eq_refl eq_refl).
    intros Hin. by apply elem_of_nil in Hin.
Defined.

(** ** The time series as a whole *)

Lemma insertByTime_length x l : length (insertByTime x l) = S (length l).
Proof.
  induction l as [|y r IH]; simpl; [done|].
  destruct (CollectedAt x <=? CollectedAt y); simpl; [done | by rewrite IH].
Qed.

Lemma insertByTime_elem x l s : s ∈ insertByTime x l <-> s = x \/ s ∈ l.
Proof.
  induction l as [|y r IH]; simpl.
  - rewrite list_elem_of_singleton, elem_of_nil. tauto.
  - destruct (CollectedAt x <=? CollectedAt y).
    + by rewrite elem_of_cons.
    + rewrite !elem_of_cons, IH. tauto.
Qed.

Lemma ListSnapshots_Ok st country chart :
  exists all, ListSnapshots st country chart = Ok all
    /\ length all = length (snapshotsOf st country chart)
    /\ forall s, s ∈ all <-> s ∈ snapshotsOf st country chart.
Proof.
  unfold ListSnapshots. eexists. split; [reflexivity|].
  induction (snapshotsOf st country chart) as [|x l [IH1 IH2]]; simpl; [done|]. split.
  - by rewrite insertByTime_length, IH1.
  - intros s. rewrite insertByTime_elem, elem_of_cons, IH2. tauto.
Qed.

Lemma dayResult_Ok cfg themeConfig gs gi i :
  length gi = length gs -> (i < length gs)%nat ->
  exists r, dayResult cfg themeConfig gs gi i = Ok r.
Proof.
  intros Hlen Hi. unfold dayResult, index.
  destruct (lookup_lt_is_Some_2 gs i Hi) as [s ->].
  destruct (lookup_lt_is_Some_2 gi i) as [its ->]; [lia|]. cbn [bind].
  destruct i as [|i']; [by eexists|].
  destruct (lookup_lt_is_Some_2 gs i') as [ps ->]; [lia|].
  destruct (lookup_lt_is_Some_2 gi i') as [pits ->]; [lia|]. cbn [bind]. by eexists.
Qed.

Lemma dayResult_inv cfg themeConfig gs gi i r :
  dayResult cfg themeConfig gs gi i = Ok r ->
  exists a b x y, r = AnalyzeTrends a b x y cfg themeConfig.
Proof.
  unfold dayResult. intros Hday.
  destruct (index gs i) as [s| |]; simpl in Hday; try done.
  destruct (index gi i) as [its| |]; simpl in Hday; try done.
  destruct i as [|i'].
  - injection Hday as <-. by exists s, s, its, its.
  - destruct (index gs i') as [ps| |]; simpl in Hday; try done.
    destruct (index gi i') as [pits| |]; simpl in Hday; try done.
    injection Hday as <-. by exists s, ps, its, pits.
Qed.

Lemma last_keepLast (key : Snapshot -> Z) (l : list (Snapshot * list ChartItem.t)) :
  last (keepLast key l) = last l.
Proof.
  induction l as [|x r IH]; [done|]. destruct r as [|y r']; [done|].
  change (keepLast key (x :: y :: r'))
    with (if existsb (fun q => key q.1 =? key x.1) (y :: r')
          then keepLast key (y :: r') else x :: keepLast key (y :: r')).
  destruct (existsb _ (y :: r')); [exact IH|].
  destruct (keepLast key (y :: r')) as [|z k] eqn:E.
  - symmetry in IH. by apply last_None in IH.
  - exact IH.
Qed.

Lemma insertByTime_sorted x l :
  StronglySorted (fun a b => CollectedAt a <= CollectedAt b) l ->
  StronglySorted (fun a b => CollectedAt a <= CollectedAt b) (insertByTime x l).
Proof.
  induction 1 as [|y r Hr IH Hy]; simpl.
  - repeat constructor.
  - destruct (CollectedAt x <=? CollectedAt y) eqn:E.
    + apply Z.leb_le in E. constructor; [by constructor|].
      constructor; [done|]. eapply Forall_impl; [exact Hy|]. simpl. lia.
    + apply Z.leb_gt in E. constructor; [done|].
      apply Forall_forall. intros s Hs. apply insertByTime_elem in Hs as [->|Hs]; [lia|].
      by apply (proj1 (Forall_forall _ _) Hy).
Qed.

Lemma ListSnapshots_sorted rows :
  StronglySorted (fun a b => CollectedAt a <= CollectedAt b) (foldr insertByTime [] rows).
Proof.
  induction rows as [|x l IH]; simpl; [constructor | by apply insertByTime_sorted].
Qed.

Lemma sorted_last_max (l : list Snapshot) z :
  StronglySorted (fun a b => CollectedAt a <= CollectedAt b) l ->
  last l = Some z -> forall s, s ∈ l -> CollectedAt s <= CollectedAt z.
Proof.
  induction 1 as [|y r Hr IH Hy]; [done|]. intros Hlast s Hs.
  destruct r as [|y' r'].
  - injection Hlast as <-. apply list_elem_of_singleton in Hs as ->. lia.
  - change (last (y :: y' :: r')) with (last (y' :: r')) in Hlast.
    apply elem_of_cons in Hs as [->|Hs]; [|by apply IH].
    apply (proj1 (Forall_forall _ _) Hy). by apply last_Some_elem_of.
Qed.

(** How [computeTimeSeries] runs once there is a snapshot and the theme
    file loads: nothing fails before the top items are built. *)
Lemma computeTimeSeries_run w c st country chart themePath cfg topN themeConfig :
  snapshotsOf st country chart <> [] ->
  LoadThemeConfig w themePath = Ok themeConfig ->
  exists gs gi results lastSnapshot,
    length gi = length gs /\ gs <> []
    /\ (length gs <= length (snapshotsOf st country chart))%nat
    /\ (forall s, s ∈ gs -> s ∈ snapshotsOf st country chart)
    /\ last gs = Some lastSnapshot
    /\ (forall s, s ∈ snapshotsOf st country chart ->
          CollectedAt s <= CollectedAt lastSnapshot)
    /\ length results = length gs
    /\ (forall r, r ∈ results -> exists a b x y, r = AnalyzeTrends a b x y cfg themeConfig)
    /\ computeTimeSeries w c st country chart themePath cfg topN
       = (topApps <- buildTopApps gi gs topN ;;
          Ok {| Meta := {| m_Country := country; m_Chart := chart;
                           m_Limit := Limit lastSnapshot |};
                Dates := map CollectedAt gs;
                p_RotationIndex := map RotationIndex results;
                p_RiskOnScore := map RiskOnScore results;
                p_RiskOffScore := map RiskOffScore results;
                p_ThemeScores :=
                  foldl (appendThemeScores (uniqueThemes themeConfig))
                        (foldl (fun m th => <[th := []]> m) ∅ (uniqueThemes themeConfig))
                        results;
                TopApps := topApps |}).
Proof.
  intros Hne Hcfg.
  destruct (ListSnapshots_Ok st country chart) as (all & Hall & Hlen & Hmem).
  assert (Hall_ne : all <> []).
  { intros ->. destruct (snapshotsOf st country chart); [done | discriminate]. }
  set (allItems := map (fun s => foldr insertByRank []
         (filter (fun it => ChartItem.SnapshotID it = ID s) (chart_items st))) all).
  assert (Hitems : mapM (fun s => GetSnapshotItems st (ID s)) all = Ok allItems).
  { by apply mapM_Ok_map. }
  assert (Hli : length allItems = length all) by apply length_map.
  set (kept := keepLast (dayOf c) (zip all allItems)).
  assert (Hg : groupSnapshotsByDate c all allItems = Ok (kept.*1, kept.*2)).
  { apply (groupByKey_keepLast (dayOf c) all allItems Hli). }
  assert (Hkne : kept.*1 <> []).
  { destruct all as [|s0 all']; [done|]. destruct allItems as [|i0 items']; [done|].
    destruct (keepLast_keys (dayOf c) (s0, i0) (zip (s0 :: all') (i0 :: items')))
      as (q & Hq & _); [left|].
    fold kept in Hq. intros E. destruct kept; [by apply elem_of_nil in Hq | done]. }
  assert (Hsub : sublist kept (zip all allItems)) by apply keepLast_sublist.
  assert (Hklen : (length kept.*1 <= length all)%nat).
  { rewrite length_fmap. etrans; [apply (sublist_length _ _ Hsub)|].
    rewrite length_zip_with. lia. }
  assert (Hkmem : forall s, s ∈ kept.*1 -> s ∈ all).
  { intros s Hs. apply list_elem_of_fmap in Hs as ([s' its] & -> & Hin).
    apply (elem_of_sublist _ _ _ Hin) in Hsub. by apply elem_of_zip_l in Hsub. }
  destruct (mapM_all_Ok (dayResult cfg themeConfig kept.*1 kept.*2)
              (seq 0 (length kept.*1))) as [results Hres].
  { intros i Hi. apply elem_of_seq in Hi. apply dayResult_Ok; [by rewrite !length_fmap | lia]. }
  destruct (last kept.*1) as [lastSnapshot|] eqn:Hlast.
  2: { by apply last_None in Hlast. }
  exists kept.*1, kept.*2, results, lastSnapshot.
  split; [by rewrite !length_fmap|]. split; [done|].
  split; [by rewrite <- Hlen|]. split; [intros s Hs; by apply Hmem, Hkmem|].
  split; [done|]. split.
  { intros s Hs. apply Hmem in Hs.
    assert (Hla : last all = Some lastSnapshot).
    { rewrite <- Hlast. unfold kept. rewrite fmap_last, last_keepLast, <- fmap_last.
      by rewrite fst_zip by lia. }
    apply (sorted_last_max all); [|done..].
    unfold ListSnapshots in Hall. injection Hall as <-. apply ListSnapshots_sorted. }
  split.
  { rewrite (mapM_length _ _ _ Hres). apply length_seq. }
  split.
  { intros r Hr. apply list_elem_of_lookup in Hr as [i Hi].
    assert (Hseq : seq 0 (length kept.*1) !! i = Some i).
    { apply lookup_seq. split; [done|].
      pose proof (lookup_lt_Some _ _ _ Hi) as Hlt.
      by rewrite (mapM_length _ _ _ Hres), length_seq in Hlt. }
    destruct (mapM_lookup _ _ _ _ _ Hres Hseq) as (r' & Hr' & Hday).
    rewrite Hi in Hr'. injection Hr' as <-. by eapply dayResult_inv. }
  unfold computeTimeSeries. rewrite Hall. cbn [bind].
  replace (len all =? 0) with false.
  2: { symmetry. apply not_true_iff_false. intros E. by apply len_zero in E. }
  rewrite Hcfg. cbn [bind]. rewrite Hitems. cbn [bind]. rewrite Hg. cbn [bind].
  rewrite Hres. cbn [bind].
  destruct (buildTopApps kept.*2 kept.*1 topN) as [apps| |]; cbn [bind]; try done.
  unfold index.
  replace (kept.*1 !! (length kept.*1 - 1)%nat) with (Some lastSnapshot); [done|].
  rewrite <- Hlast, last_lookup. f_equal. lia.
Qed.

Lemma AnalyzeTrends_rotation a b x y cfg themes :
  RotationIndex (AnalyzeTrends a b x y cfg themes)
  = (RiskOnScore (AnalyzeTrends a b x y cfg themes)
     - RiskOffScore (AnalyzeTrends a b x y cfg themes))%float.
Proof. unfold AnalyzeTrends. by destruct (themeTotals _). Qed.

Lemma computeTimeSeries_Ok_pre w c st country chart themePath cfg topN p :
  computeTimeSeries w c st country chart themePath cfg topN = Ok p ->
  snapshotsOf st country chart <> []
  /\ exists themeConfig, LoadThemeConfig w themePath = Ok themeConfig.
Proof.
  intros Hp. split.
  - intros E. by rewrite (computeTimeSeries_no_snapshot _ _ _ _ _ _ _ _ E) in Hp.
  - destruct (computeTimeSeries_Ok_inv _ _ _ _ _ _ _ _ _ Hp)
      as (? & themeConfig & ? & ? & ? & ? & _ & _ & Hcfg & _). by exists themeConfig.
Qed.

(** X13. With a snapshot of the market and chart in the store and a theme
    configuration that loads, a negative top count makes
    [computeTimeSeries] panic: the count is only capped from above by the
    number of items of the last day, and is then the capacity of the slice
    of top items. *)
Theorem computeTimeSeries_negative_top_panics
    w c st country chart themePath cfg topN themeConfig :
  snapshotsOf st country chart <> [] ->
  LoadThemeConfig w themePath = Ok themeConfig ->
  topN < 0 ->
  computeTimeSeries w c st country chart themePath cfg topN = Panic.
Proof.
  intros Hne Hcfg Hneg.
  destruct (computeTimeSeries_run w c st country chart themePath cfg topN themeConfig Hne Hcfg)
    as (gs & gi & results & lastSnapshot & Hlen & Hgs & _ & _ & _ & _ & _ & _ & ->).
  unfold buildTopApps.
  destruct (last gi) as [latestItems|] eqn:Hlast.
  2: { apply last_None in Hlast. subst gi. by destruct gs. }
  replace (len latestItems <? topN) with false by (symmetry; apply Z.ltb_ge; unfold len; lia).
  replace (topN <? 0) with true by (symmetry; by apply Z.ltb_lt).
  reflexivity.
Qed.

Lemma computeTimeSeries_negative_top_panics_witness :
  computeTimeSeries exWorld exClock exStore "kr" "top-free" "config/themes.json" exConfig (-1)
  = Panic.
Proof.
  apply (computeTimeSeries_negative_top_panics exWorld exClock exStore "kr" "top-free"
           "config/themes.json" exConfig (-1) defaultThemeConfig).
  - vm_compute. discriminate.
  - reflexivity.
  - lia.
Defined.

(** X14. With a snapshot of the market and chart in the store, a theme
    configuration that loads and a top count that is not negative,
    [computeTimeSeries] returns a payload.  It has at least one date and
    no more dates than the store has snapshots of the market and chart,
    and every series is aligned with the dates: the rotation, risk-on and
    risk-off series, the series of every theme, and the rank and
    rating-count histories of every top item have one entry per date. *)
Theorem computeTimeSeries_total_and_aligned
    w c st country chart themePath cfg topN themeConfig :
  snapshotsOf st country chart <> [] ->
  LoadThemeConfig w themePath = Ok themeConfig ->
  0 <= topN ->
  exists p,
    computeTimeSeries w c st country chart themePath cfg topN = Ok p
    /\ (0 < length (Dates p) <= length (snapshotsOf st country chart))%nat
    /\ length (p_RotationIndex p) = length (Dates p)
    /\ length (p_RiskOnScore p) = length (Dates p)
    /\ length (p_RiskOffScore p) = length (Dates p)
    /\ (forall T series, p_ThemeScores p !! T = Some series ->
          length series = length (Dates p))
    /\ Forall (fun a => length (Ranks a) = length (Dates p)
                        /\ length (RatingCounts a) = length (Dates p)) (TopApps p).
Proof.
  intros Hne Hcfg Hn.
  destruct (computeTimeSeries_run w c st country chart themePath cfg topN themeConfig Hne Hcfg)
    as (gs & gi & results & lastSnapshot & Hlen & Hgs & Hle & _ & Hlast & _ & Hres & _ & ->).
  destruct (last gi) as [latestItems|] eqn:Hgi.
  2: { apply last_None in Hgi. subst gi. by destruct gs. }
  rewrite (buildTopApps_closed gi gs topN latestItems Hlen Hn Hgi). cbn [bind].
  eexists. split; [reflexivity|]. cbn [Dates p_RotationIndex p_RiskOnScore p_RiskOffScore
                                        p_ThemeScores TopApps].
  rewrite !length_map, Hres.
  split; [destruct gs; [done | simpl in *; lia]|].
  split; [done|]. split; [done|]. split; [done|]. split.
  - intros T series. destruct (uniqueThemes_spec themeConfig) as (Hnd & _ & _).
    rewrite series_lookup, initial_series_lookup by done.
    destruct (decide (T ∈ uniqueThemes themeConfig)); [|by rewrite lookup_empty].
    destruct results as [|r rs] eqn:Er.
    + intros [= <-]. by rewrite <- Hres.
    + intros [= <-]. rewrite <- Hres. cbn [length]. by rewrite length_map.
  - apply Forall_forall. intros a Ha. apply elem_of_map in Ha as (item & -> & _).
    cbn [topAppOf Ranks RatingCounts]. by rewrite !length_map.
Qed.

Lemma computeTimeSeries_total_and_aligned_witness :
  exists p,
    computeTimeSeries exWorld exClock exStore "kr" "top-free" "config/themes.json" exConfig 10
    = Ok p
    /\ (0 < length (Dates p) <= 2)%nat
    /\ length (p_RotationIndex p) = length (Dates p).
Proof.
  destruct (computeTimeSeries_total_and_aligned exWorld exClock exStore "kr" "top-free"
              "config/themes.json" exConfig 10 defaultThemeConfig)
    as (p & Hp & Hn & Hrot & _).
  - vm_compute. discriminate.
  - reflexivity.
  - lia.
  - exists p. split; [exact Hp|]. split; [exact Hn | exact Hrot].
Defined.

(** X15. The header of a time series: the payload names the market and
    the chart it was asked for; its last date is the collection time of a
    stored snapshot of that market and chart than which none was collected
    later, and the limit it reports is the limit of that snapshot. *)
Theorem computeTimeSeries_header w c st country chart themePath cfg topN p :
  computeTimeSeries w c st country chart themePath cfg topN = Ok p ->
  m_Country (Meta p) = country
  /\ m_Chart (Meta p) = chart
  /\ exists lastSnapshot,
       lastSnapshot ∈ snapshotsOf st country chart
       /\ (forall s, s ∈ snapshotsOf st country chart ->
             CollectedAt s <= CollectedAt lastSnapshot)
       /\ m_Limit (Meta p) = Limit lastSnapshot
       /\ last (Dates p) = Some (CollectedAt lastSnapshot).
Proof.
  intros Hp. destruct (computeTimeSeries_Ok_pre _ _ _ _ _ _ _ _ _ Hp) as [Hne [themeConfig Hcfg]].
  destruct (computeTimeSeries_run w c st country chart themePath cfg topN themeConfig Hne Hcfg)
    as (gs & gi & results & lastSnapshot & _ & _ & _ & Hmem & Hlast & Hmax & _ & _ & Heq).
  rewrite Heq in Hp. destruct (buildTopApps gi gs topN) as [apps| |]; cbn [bind] in Hp; try done.
  injection Hp as <-. cbn [Meta m_Country m_Chart m_Limit Dates].
  split; [done|]. split; [done|]. exists lastSnapshot.
  split; [by apply Hmem, last_Some_elem_of|]. split; [exact Hmax|]. split; [done|].
  change (map CollectedAt gs) with (CollectedAt <$> gs). by rewrite fmap_last, Hlast.
Qed.

Lemma computeTimeSeries_header_witness :
  exists p,
    computeTimeSeries exWorld exClock exStore "kr" "top-free" "config/themes.json" exConfig 10
    = Ok p
    /\ m_Country (Meta p) = "kr"%string /\ m_Chart (Meta p) = "top-free"%string.
Proof.
  destruct (computeTimeSeries exWorld exClock exStore "kr" "top-free"
              "config/themes.json" exConfig 10) as [p| |] eqn:E;
    [|vm_compute in E; discriminate..].
  exists p. split; [reflexivity|].
  destruct (computeTimeSeries_header _ _ _ _ _ _ _ _ _ E) as (H1 & H2 & _).
  split; [exact H1 | exact H2].
Defined.

(** X16. In the payload of a time series the rotation series is, date by
    date, the risk-on series minus the risk-off series. *)
Theorem timeseries_rotation_is_risk_on_minus_risk_off
    w c st country chart themePath cfg topN p :
  computeTimeSeries w c st country chart themePath cfg topN = Ok p ->
  p_RotationIndex p
  = zip_with (fun on off => (on - off)%float) (p_RiskOnScore p) (p_RiskOffScore p).
Proof.
  intros Hp. destruct (computeTimeSeries_Ok_pre _ _ _ _ _ _ _ _ _ Hp) as [Hne [themeConfig Hcfg]].
  destruct (computeTimeSeries_run w c st country chart themePath cfg topN themeConfig Hne Hcfg)
    as (gs & gi & results & lastSnapshot & _ & _ & _ & _ & _ & _ & _ & Hres & Heq).
  rewrite Heq in Hp. destruct (buildTopApps gi gs topN) as [apps| |]; cbn [bind] in Hp; try done.
  injection Hp as <-. cbn [p_RotationIndex p_RiskOnScore p_RiskOffScore].
  clear Heq. induction results as [|r rs IH]; [done|].
  cbn [map zip_with]. f_equal.
  - destruct (Hres r) as (a & b & x & y & ->); [left|]. apply AnalyzeTrends_rotation.
  - apply IH. intros r' Hr'. apply Hres. by right.
Qed.

Lemma timeseries_rotation_is_risk_on_minus_risk_off_witness :
  exists p,
    computeTimeSeries exWorld exClock exStore "kr" "top-free" "config/themes.json" exConfig 10
    = Ok p
    /\ p_RotationIndex p
       = zip_with (fun on off => (on - off)%float) (p_RiskOnScore p) (p_RiskOffScore p).
Proof.
  destruct (computeTimeSeries exWorld exClock exStore "kr" "top-free"
              "config/themes.json" exConfig 10) as [p| |] eqn:E;
    [|vm_compute in E; discriminate..].
  exists p. split; [reflexivity|].
  exact (timeseries_rotation_is_risk_on_minus_risk_off _ _ _ _ _ _ _ _ _ E).
Defined.

(** ** The report *)

Lemma latestOf_None rows : latestOf rows = None -> rows = [].
Proof.
  destruct rows as [|s rest]; [done|]. simpl.
  destruct (latestOf rest) as [s'|]; [|done]. by destruct (CollectedAt s <? CollectedAt s').
Qed.

Lemma latestOf_Some rows s :
  latestOf rows = Some s ->
  s ∈ rows /\ forall s', s' ∈ rows -> CollectedAt s' <= CollectedAt s.
Proof.
  revert s; induction rows as [|x rest IH]; intros s; [done|]. simpl.
  destruct (latestOf rest) as [m|] eqn:E.
  - destruct (IH m eq_refl) as [Hin Hmax].
    destruct (CollectedAt x <? CollectedAt m) eqn:Hlt; intros [= <-].
    + apply Z.ltb_lt in Hlt. split; [by right|].
      intros s' Hs'. apply elem_of_cons in Hs' as [->|Hs']; [lia | by apply Hmax].
    + apply Z.ltb_ge in Hlt. split; [left|].
      intros s' Hs'. apply elem_of_cons in Hs' as [->|Hs']; [lia|].
      specialize (Hmax s' Hs'). lia.
  - intros [= <-]. apply latestOf_None in E. subst rest. split; [left|].
    intros s' Hs'. apply list_elem_of_singleton in Hs' as ->. lia.
Qed.

Lemma latestOf_is_Some rows : rows <> [] -> exists s, latestOf rows = Some s.
Proof.
  intros Hne. destruct (latestOf rows) as [s|] eqn:E; [by exists s|].
  by apply latestOf_None in E.
Qed.

(** X17. The report compares the two latest collection times of the store.
    With a snapshot of the market and chart in the store: when all of them
    were collected at the same time the report fails with "need at least
    two snapshots for report", however many there are; when two of them
    differ in time the report fails only as the theme file does, and
    otherwise its latest snapshot is one than which none was collected
    later, its previous snapshot is one collected strictly earlier than
    which none among the strictly earlier ones was collected later, and
    its trends, theme scores and indices are those of [AnalyzeTrends] on
    the two snapshots and their items. *)
Theorem computeReport_compares_the_two_latest_times
    w c st country chart themePath cfg :
  snapshotsOf st country chart <> [] ->
  ((forall s s', s ∈ snapshotsOf st country chart -> s' ∈ snapshotsOf st country chart ->
                 CollectedAt s = CollectedAt s') ->
     computeReport w c st country chart themePath cfg
     = Err (errorString "need at least two snapshots for report"))
  /\ (forall s s', s ∈ snapshotsOf st country chart -> s' ∈ snapshotsOf st country chart ->
        CollectedAt s < CollectedAt s' ->
        (forall e, LoadThemeConfig w themePath = Err e ->
                   computeReport w c st country chart themePath cfg = Err e)
        /\ (forall themeConfig, LoadThemeConfig w themePath = Ok themeConfig ->
              exists r latestItems prevItems,
                computeReport w c st country chart themePath cfg = Ok r
                /\ Latest r ∈ snapshotsOf st country chart
                /\ Previous r ∈ snapshotsOf st country chart
                /\ (forall x, x ∈ snapshotsOf st country chart ->
                      CollectedAt x <= CollectedAt (Latest r))
                /\ CollectedAt (Previous r) < CollectedAt (Latest r)
                /\ (forall x, x ∈ snapshotsOf st country chart ->
                      CollectedAt x < CollectedAt (Latest r) ->
                      CollectedAt x <= CollectedAt (Previous r))
                /\ GetSnapshotItems st (ID (Latest r)) = Ok latestItems
                /\ GetSnapshotItems st (ID (Previous r)) = Ok prevItems
                /\ let result := AnalyzeTrends (Latest r) (Previous r) latestItems prevItems
                                   cfg themeConfig in
                   r_Trends r = Trends result
                   /\ r_ThemeScores r = SortThemeScores (ThemeScores result)
                   /\ r_RiskOnScore r = RiskOnScore result
                   /\ r_RiskOffScore r = RiskOffScore result
                   /\ r_RotationIndex r = RotationIndex result
                   /\ GeneratedAt r = time_Now c)).
Proof.
  intros Hne. destruct (latestOf_is_Some _ Hne) as [latest Hlatest].
  destruct (latestOf_Some _ _ Hlatest) as [Hin Hmax].
  unfold computeReport, GetLatestSnapshot, GetPreviousSnapshot.
  rewrite Hlatest. cbn [scanSnapshot bind]. split.
  - intros Hsame.
    destruct (latestOf (filter _ _)) as [p|] eqn:Hp; [|done].
    apply latestOf_Some in Hp as [Hp _]. apply list_elem_of_filter in Hp as [Hlt Hp].
    specialize (Hsame p latest Hp Hin). lia.
  - intros s s' Hs Hs' Hlt.
    destruct (latestOf (filter (fun x => CollectedAt x < CollectedAt latest)
                               (snapshotsOf st country chart))) as [previous|] eqn:Hp.
    2: { apply latestOf_None in Hp.
         assert (Hsin : s ∈ filter (fun x => CollectedAt x < CollectedAt latest)
                           (snapshotsOf st country chart)).
         { apply list_elem_of_filter. split; [|done]. specialize (Hmax s' Hs'). lia. }
         rewrite Hp in Hsin. by apply elem_of_nil in Hsin. }
    apply latestOf_Some in Hp as [Hp Hpmax]. apply list_elem_of_filter in Hp as [Hplt Hp].
    cbn [scanSnapshot]. unfold GetSnapshotItems. cbn [bind]. split.
    + intros e He. by rewrite He.
    + intros themeConfig Hcfg. rewrite Hcfg. cbn [bind].
      eexists. eexists. eexists. split; [reflexivity|].
      cbn [Latest Previous r_Trends r_ThemeScores r_RiskOnScore r_RiskOffScore
             r_RotationIndex GeneratedAt].
      split; [done|]. split; [done|]. split; [done|]. split; [done|]. split.
      { intros x Hx Hxlt. apply Hpmax. by apply list_elem_of_filter. }
      split; [reflexivity|]. split; [reflexivity|]. by repeat split.
Qed.

Lemma computeReport_compares_the_two_latest_times_witness :
  exists r,
    computeReport exWorld exClock exStore "kr" "top-free" "config/themes.json" exConfig = Ok r
    /\ CollectedAt (Previous r) < CollectedAt (Latest r).
Proof.
  destruct (computeReport_compares_the_two_latest_times exWorld exClock exStore
              "kr" "top-free" "config/themes.json" exConfig) as [_ H].
  - vm_compute. discriminate.
  - destruct (H (exSnapshot 1 100) (exSnapshot 2 90000)) as [_ Hok].
    + vm_compute. left.
    + vm_compute. right. left.
    + vm_compute. reflexivity.
    + destruct (Hok defaultThemeConfig eq_refl) as (r & ? & ? & Hr & _ & _ & _ & Hlt & _).
      exists r. split; [exact Hr | exact Hlt].
Defined.

(** ** Lists in a text column *)

Lemma strings_Split_nonempty s sep : strings_Split s sep <> [].
Proof.
  destruct s as [|a r]; simpl; [done|].
  destruct (Ascii.eqb a sep); [done|]. by destruct (strings_Split r sep).
Qed.

Lemma strings_Join_cons v w rest sep :
  strings_Join (v :: w :: rest) sep
  = String.append v (String.append sep (strings_Join (w :: rest) sep)).
Proof. reflexivity. Qed.

Lemma strings_Join_Split s (c : ascii) :
  strings_Join (strings_Split s c) (String c EmptyString) = s.
Proof.
  induction s as [|a r IH]; [done|]. cbn [strings_Split].
  destruct (Ascii.eqb a c) eqn:E.
  - apply Ascii.eqb_eq in E as ->.
    destruct (strings_Split r c) as [|h t] eqn:Es; [by apply strings_Split_nonempty in Es|].
    rewrite strings_Join_cons, IH. reflexivity.
  - destruct (strings_Split r c) as [|h t] eqn:Es; [by apply strings_Split_nonempty in Es|].
    destruct t as [|w t'].
    + simpl in *. by rewrite IH.
    + rewrite strings_Join_cons in *. rewrite append_String. by rewrite IH.
Qed.

Lemma strings_Split_append x y (c : ascii) :
  strings_Split (String.append x (String c y)) c = strings_Split x c ++ strings_Split y c.
Proof.
  induction x as [|a r IH].
  - simpl. by rewrite Ascii.eqb_refl.
  - rewrite append_String. cbn [strings_Split]. rewrite IH.
    destruct (Ascii.eqb a c); [done|].
    destruct (strings_Split r c) as [|h t] eqn:Es; [by apply strings_Split_nonempty in Es|].
    reflexivity.
Qed.

Lemma strings_Split_Join values (c : ascii) :
  values <> [] ->
  strings_Split (strings_Join values (String c EmptyString)) c
  = flat_map (fun v => strings_Split v c) values.
Proof.
  induction values as [|v rest IH]; [done|]. intros _.
  destruct rest as [|w rest'].
  - simpl. by rewrite app_nil_r.
  - rewrite strings_Join_cons. change (String.append (String c EmptyString) ?z) with (String c z).
    rewrite strings_Split_append, IH by done. reflexivity.
Qed.

Lemma strings_Split_no_sep v (c : ascii) :
  c ∉ list_ascii_of_string v -> strings_Split v c = [v].
Proof.
  induction v as [|a r IH]; [done|]. cbn [list_ascii_of_string strings_Split].
  intros Hno. apply not_elem_of_cons in Hno as [Hne Hno].
  replace (Ascii.eqb a c) with false.
  - by rewrite IH.
  - symmetry. apply Ascii.eqb_neq. congruence.
Qed.

Lemma strings_Join_empty values sep :
  strings_Join values sep = EmptyString -> sep <> EmptyString ->
  values = [] \/ values = [EmptyString].
Proof.
  destruct values as [|v [|w rest]]; [by left | simpl; intros -> _; by right |].
  rewrite strings_Join_cons. intros H Hsep. exfalso.
  destruct v; [|by rewrite append_String in H].
  destruct sep; [done|]. simpl in H. by rewrite append_String in H.
Qed.

Lemma splitList_joinList_general values :
  joinList values <> EmptyString ->
  splitList (joinList values) = flat_map (fun v => strings_Split v "|") values.
Proof.
  intros Hne. unfold splitList.
  destruct (is_empty (joinList values)) eqn:E; [by apply is_empty_true in E|].
  unfold joinList in *. destruct (len values =? 0) eqn:El; [done|].
  apply strings_Split_Join. intros ->. discriminate.
Qed.

Lemma ExtractGenres_closed genres :
  ExtractGenres genres
  = (filter (fun v => v <> EmptyString) (map RSSGenre.Name genres),
     filter (fun v => v <> EmptyString) (map RSSGenre.GenreID genres)).
Proof.
  unfold ExtractGenres.
  enough (H : forall names ids,
             foldl (fun '(names, ids) genre =>
                      let names := if negb (is_empty (RSSGenre.Name genre))
                                   then names ++ [RSSGenre.Name genre] else names in
                      let ids := if negb (is_empty (RSSGenre.GenreID genre))
                                 then ids ++ [RSSGenre.GenreID genre] else ids in
                      (names, ids)) (names, ids) genres
             = (names ++ filter (fun v => v <> EmptyString) (map RSSGenre.Name genres),
                ids ++ filter (fun v => v <> EmptyString) (map RSSGenre.GenreID genres)))
    by apply (H [] []).
  induction genres as [|g gs IH]; intros names ids; simpl.
  - by rewrite !app_nil_r.
  - rewrite IH, !filter_cons.
    destruct (RSSGenre.Name g) as [|a n], (RSSGenre.GenreID g) as [|b i]; simpl;
      by rewrite <- ?app_assoc.
Qed.

(** X18. What is written to a list column comes back, with two
    exceptions.  Splitting a column and joining the parts gives the column
    again.  Joining a list and splitting the column gives the list again
    when no element holds the separator "|" and the list is not the list
    of one empty string; the list of one empty string comes back empty, as
    the empty list does; and in general every element comes back cut at
    its separators. *)
Theorem splitList_joinList_round_trip (values : list string) (value : string) :
  joinList (splitList value) = value
  /\ (values <> [EmptyString] ->
      Forall (fun v => "|"%char ∉ list_ascii_of_string v) values ->
      splitList (joinList values) = values)
  /\ splitList (joinList [EmptyString]) = []
  /\ splitList (joinList []) = []
  /\ (joinList values <> EmptyString ->
      splitList (joinList values) = flat_map (fun v => strings_Split v "|") values).
Proof.
  split; [|split; [|split; [done|split; [done|apply splitList_joinList_general]]]].
  - unfold splitList. destruct value as [|a r]; [done|]. cbn [is_empty].
    unfold joinList. replace (len (strings_Split (String a r) "|") =? 0) with false.
    + apply (strings_Join_Split (String a r) "|").
    + symmetry. apply not_true_iff_false. intros E. apply len_zero in E.
      by apply strings_Split_nonempty in E.
  - intros Hne Hno. destruct (decide (joinList values = EmptyString)) as [E|E].
    + rewrite E. unfold joinList in E. destruct (len values =? 0) eqn:El.
      * apply len_zero in El. by subst.
      * by destruct (strings_Join_empty _ _ E) as [-> | ->].
    + rewrite splitList_joinList_general by done. clear E Hne.
      induction Hno as [|v vs Hv _ IH]; [done|]. simpl.
      by rewrite (strings_Split_no_sep v "|" Hv), IH.
Qed.

(** X19. [ExtractGenres] returns the names that are not empty and the
    identifiers that are not empty, each in the order of the feed, so
    neither list holds an empty string and neither is longer than the
    feed's list; a genre with a name and no identifier, or the converse, is
    kept in one list only.  Written to a list column and read back, the
    names are unchanged when none of them holds the separator "|", and so
    are the identifiers. *)
Theorem ExtractGenres_keeps_non_empty_fields (genres : list RSSGenre.t) :
  let '(names, ids) := ExtractGenres genres in
  names = filter (fun v => v <> EmptyString) (map RSSGenre.Name genres)
  /\ ids = filter (fun v => v <> EmptyString) (map RSSGenre.GenreID genres)
  /\ (length names <= length genres)%nat /\ (length ids <= length genres)%nat
  /\ (Forall (fun v => "|"%char ∉ list_ascii_of_string v) names ->
      splitList (joinList names) = names)
  /\ (Forall (fun v => "|"%char ∉ list_ascii_of_string v) ids ->
      splitList (joinList ids) = ids).
Proof.
  rewrite ExtractGenres_closed.
  assert (Hlen : forall l : list string,
            (length (filter (fun v => v <> EmptyString) l) <= length l)%nat).
  { intros l. apply length_filter. }
  assert (Hrt : forall l : list string,
            Forall (fun v => "|"%char ∉ list_ascii_of_string v)
                   (filter (fun v => v <> EmptyString) l) ->
            splitList (joinList (filter (fun v => v <> EmptyString) l))
            = filter (fun v => v <> EmptyString) l).
  { intros l Hno. set (vs := filter (fun v => v <> EmptyString) l) in *.
    destruct vs as [|v rest] eqn:Evs; [done|].
    assert (Hv : v <> EmptyString).
    { assert (Hin : v ∈ filter (fun v => v <> EmptyString) l)
        by (fold vs; rewrite Evs; left).
      by apply list_elem_of_filter in Hin as [? _]. }
    assert (Hj : joinList (v :: rest) <> EmptyString).
    { unfold joinList. change (len (v :: rest) =? 0) with false.
      intros Ej. destruct (strings_Join_empty _ _ Ej) as [? | ?]; [done.. | congruence]. }
    rewrite splitList_joinList_general by done.
    clear Hj Hv Evs. induction Hno as [|x xs Hx _ IH]; [done|]. simpl.
    by rewrite (strings_Split_no_sep x "|" Hx), IH. }
  split; [done|]. split; [done|].
  split; [etrans; [apply Hlen | by rewrite length_map]|].
  split; [etrans; [apply Hlen | by rewrite length_map]|].
  split; apply Hrt.
Qed.

(** ** Fetching the chart *)

(** An attempt that succeeds: the answer has status 200 and a body that
    decodes. *)
Definition succeeds (net : Net) (url : string) (k : Z) (resp : RSSResponse) : Prop :=
  exists res, client_Do net k url = Ok res /\ StatusCode res = 200 /\ Decoded res = Ok resp.

(** An attempt after which the function tries again: a transport error, a
    status of 500 or more, or the status 429. *)
Definition retryable (net : Net) (url : string) (k : Z) : Prop :=
  (exists e, client_Do net k url = Err e)
  \/ (exists res, client_Do net k url = Ok res
                  /\ (500 <= StatusCode res \/ StatusCode res = 429)).

Lemma attemptOnce_Ok net url k resp u :
  attemptOnce net url k = Return (Ok (resp, u)) <-> u = url /\ succeeds net url k resp.
Proof.
  unfold attemptOnce, succeeds, readResponse. split.
  - destruct (client_Do net k url) as [res| |]; try done.
    destruct (StatusCode res =? 200) eqn:E; cbn [negb].
    + apply Z.eqb_eq in E. destruct (Decoded res) as [r|e|] eqn:Ed; try done.
      * intros [= -> ->]. split; [done|]. by exists res.
      * by destruct (_ && _).
    + by destruct (_ && _).
  - intros [-> (res & -> & Hs & Hd)]. rewrite Hs, Hd. done.
Qed.

Lemma attemptOnce_Retry net url k :
  (exists e, attemptOnce net url k = Retry e) <-> retryable net url k.
Proof.
  unfold attemptOnce, retryable, readResponse. split.
  - intros [e He]. destruct (client_Do net k url) as [res|e'|]; try done.
    + right. exists res. split; [done|].
      destruct (StatusCode res =? 200) eqn:E; cbn [negb] in He.
      * apply Z.eqb_eq in E. destruct (Decoded res); try done.
        rewrite E in He. done.
      * destruct (StatusCode res <? 500) eqn:E5; [|apply Z.ltb_ge in E5; by left].
        destruct (StatusCode res =? 429) eqn:E4; [apply Z.eqb_eq in E4; by right | done].
    + left. by exists e'.
  - intros [[e ->] | (res & -> & Hs)]; [by eexists|].
    assert (E2 : (StatusCode res =? 200) = false) by (apply Z.eqb_neq; lia).
    rewrite E2. cbn [negb].
    assert (E : (StatusCode res <? 500) && negb (StatusCode res =? 429) = false).
    { destruct Hs as [Hs | Hs].
      - replace (StatusCode res <? 500) with false; [done|]. symmetry. by apply Z.ltb_ge.
      - rewrite Hs. done. }
    rewrite E. by eexists.
Qed.

Lemma fetchAttempts_cons_any net url attempt rest e1 e2 :
  fetchAttempts net url (attempt :: rest) e1 = fetchAttempts net url (attempt :: rest) e2.
Proof. reflexivity. Qed.

Lemma fetchAttempts_Ok net url attempts e0 resp u :
  http_NewRequest net url = None ->
  (fetchAttempts net url attempts (Some e0)).1 = Ok (resp, u) <->
  u = url
  /\ exists pre k post,
       attempts = pre ++ k :: post /\ succeeds net url k resp
       /\ Forall (fun j => retryable net url j /\ (j < 2 -> ctx_Done net j = None)) pre.
Proof.
  intros Hreq. revert e0. induction attempts as [|a rest IH]; intros e0.
  - simpl. split; [done|]. intros [_ (pre & k & post & H & _)]. by destruct pre.
  - cbn [fetchAttempts]. rewrite Hreq.
    destruct (attemptOnce net url a) as [r|e] eqn:Ea.
    + cbn [fst]. split.
      * intros ->. apply attemptOnce_Ok in Ea as [-> Hs]. split; [done|].
        by exists [], a, rest.
      * intros [-> (pre & k & post & H & Hs & Hpre)].
        destruct pre as [|j pre]; simpl in H; simplify_eq.
        -- assert (E : attemptOnce net url k = Return (Ok (resp, url)))
             by (by apply attemptOnce_Ok).
           congruence.
        -- apply Forall_cons in Hpre as [[Hr _] _].
           apply attemptOnce_Retry in Hr as [e He]. congruence.
    + assert (Hretry : retryable net url a) by (apply attemptOnce_Retry; by exists e).
      assert (Hnot : forall r, ~ succeeds net url a r).
      { intros r Hs. assert (E : attemptOnce net url a = Return (Ok (r, url)))
          by (by apply attemptOnce_Ok). congruence. }
      assert (Hstep : (fetchAttempts net url rest (Some e)).1 = Ok (resp, u) <->
                u = url /\ exists pre k post, rest = pre ++ k :: post
                  /\ succeeds net url k resp
                  /\ Forall (fun j => retryable net url j
                                      /\ (j < 2 -> ctx_Done net j = None)) pre)
        by apply IH.
      destruct (a <? 2) eqn:E2.
      * apply Z.ltb_lt in E2. destruct (ctx_Done net a) as [ce|] eqn:Ec.
        -- cbn [fst]. split; [done|].
           intros [_ (pre & k & post & H & Hs & Hpre)].
           destruct pre as [|j pre]; simpl in H; simplify_eq; [by apply Hnot in Hs|].
           apply Forall_cons in Hpre as [[_ Hc] _]. rewrite Hc in Ec by done. done.
        -- destruct (fetchAttempts net url rest (Some e)) as [r events]. cbn [fst] in *.
           rewrite Hstep. split.
           ++ intros [-> (pre & k & post & -> & Hs & Hpre)]. split; [done|].
              exists (a :: pre), k, post. split; [done|]. split; [done|].
              by constructor.
           ++ intros [-> (pre & k & post & H & Hs & Hpre)]. split; [done|].
              destruct pre as [|j pre]; simpl in H; simplify_eq; [by apply Hnot in Hs|].
              apply Forall_cons in Hpre as [_ Hpre]. by exists pre, k, post.
      * apply Z.ltb_ge in E2.
        destruct (fetchAttempts net url rest (Some e)) as [r events]. cbn [fst] in *.
        rewrite Hstep. split.
        -- intros [-> (pre & k & post & -> & Hs & Hpre)]. split; [done|].
           exists (a :: pre), k, post. split; [done|]. split; [done|].
           constructor; [|done]. split; [done|]. lia.
        -- intros [-> (pre & k & post & H & Hs & Hpre)]. split; [done|].
           destruct pre as [|j pre]; simpl in H; simplify_eq; [by apply Hnot in Hs|].
           apply Forall_cons in Hpre as [_ Hpre]. by exists pre, k, post.
Qed.

Lemma ValidChart_spec chart :
  ValidChart chart = true <-> chart = "top-free"%string \/ chart = "top-paid"%string.
Proof.
  unfold ValidChart, validCharts.
  destruct (decide (chart = "top-free"%string)) as [->|H1]; [by split; [left|]|].
  rewrite lookup_insert_ne by done.
  destruct (decide (chart = "top-paid"%string)) as [->|H2]; [by split; [right|]|].
  rewrite lookup_insert_ne, lookup_empty by done. simpl. split; [done | tauto].
Qed.

Lemma fetchAttempts_return net url a rest e0 r :
  http_NewRequest net url = None -> attemptOnce net url a = Return r ->
  fetchAttempts net url (a :: rest) e0 = (r, [Request url]).
Proof. intros Hreq Ha. cbn [fetchAttempts]. by rewrite Hreq, Ha. Qed.

Lemma fetchAttempts_retry net url a rest e0 e :
  http_NewRequest net url = None -> attemptOnce net url a = Retry e ->
  (a < 2 -> ctx_Done net a = None) ->
  fetchAttempts net url (a :: rest) e0
  = ((fetchAttempts net url rest (Some e)).1,
     Request url :: (if a <? 2 then [Wait (500 * (a + 1))] else [])
       ++ (fetchAttempts net url rest (Some e)).2).
Proof.
  intros Hreq Ha Hc. cbn [fetchAttempts]. rewrite Hreq, Ha.
  destruct (a <? 2) eqn:E.
  - apply Z.ltb_lt in E. rewrite (Hc E). by destruct (fetchAttempts net url rest (Some e)).
  - by destruct (fetchAttempts net url rest (Some e)).
Qed.

(** The events of a fetch that uses all three attempts. *)
Definition allEvents (url : string) : list Event :=
  [Request url; Wait 500; Request url; Wait 1000; Request url].

(** X20. Whatever the network answers, [FetchTopChart] sends at most three
    requests, all to the URL of the chart, waits 500 ms after the first and
    1000 ms after the second when it tries again, and never waits after the
    third: its events are a prefix of request, wait 500, request, wait
    1000, request.  For a chart that is neither "top-free" nor "top-paid"
    it fails with "invalid chart: ..." without any request.  When it
    succeeds, the URL it returns is the URL of the chart and its last
    event is a request. *)
Theorem FetchTopChart_sends_at_most_three_requests net country chart limit :
  let url := chartURL country chart limit in
  let r := (FetchTopChart net country chart limit).1 in
  let events := (FetchTopChart net country chart limit).2 in
  events `prefix_of` allEvents url
  /\ (chart <> "top-free"%string -> chart <> "top-paid"%string ->
      r = Err (errorString (String.append "invalid chart: " chart)) /\ events = [])
  /\ (forall resp u, r = Ok (resp, u) -> u = url /\ last events = Some (Request url)).
Proof.
  intros url r events. subst r events. unfold FetchTopChart.
  destruct (ValidChart chart) eqn:Ev; cbn [negb].
  2: { split; [apply prefix_nil|]. split; [done|]. done. }
  fold url. split; [|split].
  - unfold allEvents. cbn [fetchAttempts].
    destruct (http_NewRequest net url); [apply prefix_nil|].
    destruct (attemptOnce net url 0); [by exists [Wait 500; Request url; Wait 1000; Request url]|].
    change (0 <? 2) with true. change (1 <? 2) with true. change (2 <? 2) with false.
    destruct (ctx_Done net 0); [by exists [Request url; Wait 1000; Request url]|].
    destruct (attemptOnce net url 1); [by exists [Wait 1000; Request url]|].
    destruct (ctx_Done net 1); [by exists [Request url]|].
    destruct (attemptOnce net url 2); by exists [].
  - intros H1 H2. apply ValidChart_spec in Ev as [-> | ->]; done.
  - intros resp u. cbn [fetchAttempts].
    destruct (http_NewRequest net url); [done|].
    destruct (attemptOnce net url 0) as [r0|e0] eqn:E0.
    { cbn [fst snd]. intros ->. apply attemptOnce_Ok in E0 as [-> _]. done. }
    change (0 <? 2) with true. change (1 <? 2) with true. change (2 <? 2) with false.
    destruct (ctx_Done net 0); [done|].
    destruct (attemptOnce net url 1) as [r1|e1] eqn:E1.
    { cbn [fst snd]. intros ->. apply attemptOnce_Ok in E1 as [-> _]. done. }
    destruct (ctx_Done net 1); [done|].
    destruct (attemptOnce net url 2) as [r2|e2] eqn:E2; [|done].
    cbn [fst snd]. intros ->. apply attemptOnce_Ok in E2 as [-> _]. done.
Qed.

(** X21. For a valid chart whose request can be built, [FetchTopChart]
    succeeds exactly when one of the three attempts is answered with
    status 200 and a body that decodes, every attempt before it was
    answered with a transport error, a status of 500 or more or the status
    429, and the context did not end during the waits before it; it then
    returns the decoded response of that attempt and the URL of the
    chart. *)
Theorem FetchTopChart_succeeds_iff net country chart limit resp u :
  ValidChart chart = true ->
  http_NewRequest net (chartURL country chart limit) = None ->
  (FetchTopChart net country chart limit).1 = Ok (resp, u) <->
  u = chartURL country chart limit
  /\ exists k, 0 <= k < 3
       /\ succeeds net (chartURL country chart limit) k resp
       /\ forall j, 0 <= j < k ->
            retryable net (chartURL country chart limit) j /\ ctx_Done net j = None.
Proof.
  intros Hv Hreq. unfold FetchTopChart. rewrite Hv. cbn [negb].
  set (url := chartURL country chart limit) in *.
  rewrite (fetchAttempts_cons_any net url 0 [1; 2] None (Some ErrNotExist)).
  rewrite (fetchAttempts_Ok net url [0; 1; 2] ErrNotExist resp u Hreq).
  split; intros [-> H]; (split; [done|]).
  - destruct H as (pre & k & post & Hl & Hs & Hpre).
    exists k. destruct pre as [|j0 [|j1 [|j2 pre]]]; simpl in Hl; simplify_eq.
    + split; [lia|]. split; [done|]. intros j Hj. lia.
    + split; [lia|]. split; [done|]. intros j Hj. assert (j = 0) as -> by lia.
      apply Forall_cons in Hpre as [[Hr Hc] _]. split; [done | apply Hc; lia].
    + split; [lia|]. split; [done|]. intros j Hj.
      apply Forall_cons in Hpre as [[Hr0 Hc0] Hpre].
      apply Forall_cons in Hpre as [[Hr1 Hc1] _].
      assert (j = 0 \/ j = 1) as [-> | ->] by lia; (split; [done|]); [apply Hc0 | apply Hc1]; lia.
    + by destruct pre.
  - destruct H as (k & Hk & Hs & Hpre).
    assert (k = 0 \/ k = 1 \/ k = 2) as [-> | [-> | ->]] by lia.
    + by exists [], 0, [1; 2].
    + exists [0], 1, [2]. split; [done|]. split; [done|].
      constructor; [|done]. destruct (Hpre 0) as [? ?]; [lia|]. done.
    + exists [0; 1], 2, []. split; [done|]. split; [done|].
      destruct (Hpre 0) as [? ?]; [lia|]. destruct (Hpre 1) as [? ?]; [lia|].
      constructor; [done|]. constructor; [done|]. constructor.
Qed.

(** A network that answers 503 once and then the chart. *)
Definition exResponse : RSSResponse :=
  {| Feed := RSSFeed.mk "Top Free Apps" "kr" "" 
               [RSSApp.mk "Maker" "1001" "Bank App" "2020-01-01" "apps" ""
                  [RSSGenre.mk "6015" "Finance" ""; RSSGenre.mk "" "Apps" ""] ""] [] |}.

Definition exNet : Net :=
  {| http_NewRequest := fun _ => None;
     client_Do := fun k _ =>
       if k =? 0
       then Ok {| StatusCode := 503; Status := "503 Service Unavailable";
                  Decoded := Err (errorString "EOF") |}
       else Ok {| StatusCode := 200; Status := "200 OK"; Decoded := Ok exResponse |};
     ctx_Done := fun _ => None |}.

Lemma FetchTopChart_succeeds_iff_witness :
  (FetchTopChart exNet "kr" "top-free" 100).1
  = Ok (exResponse, chartURL "kr" "top-free" 100).
Proof.
  apply (proj2 (FetchTopChart_succeeds_iff exNet "kr" "top-free" 100 exResponse
                  (chartURL "kr" "top-free" 100) eq_refl eq_refl)).
  split; [reflexivity|]. exists 1. split; [lia|]. split.
  - eexists. split; [reflexivity|]. split; reflexivity.
  - intros j Hj. assert (j = 0) as -> by lia. split; [|reflexivity].
    right. eexists. split; [reflexivity|]. left. simpl. lia.
Defined.

(** The error an attempt leaves when it is to be tried again. *)
Definition failureOf (net : Net) (url : string) (k : Z) (e : error) : Prop :=
  client_Do net k url = Err e
  \/ exists res, client_Do net k url = Ok res
                 /\ e = errorString (String.append "rss request failed: " (Status res)).

Lemma retryable_failureOf net url k e :
  retryable net url k -> failureOf net url k e -> attemptOnce net url k = Retry e.
Proof.
  intros Hr Hf. apply attemptOnce_Retry in Hr as [e' He']. rewrite He'. f_equal.
  unfold attemptOnce, readResponse in He'.
  destruct Hf as [Hf | (res & Hf & ->)]; rewrite Hf in He'; [congruence|].
  destruct (StatusCode res =? 200) eqn:E; cbn [negb] in He'.
  - apply Z.eqb_eq in E. rewrite E in He'. by destruct (Decoded res).
  - destruct (_ && _); congruence.
Qed.

(** X22. When all three attempts are answered with a transport error, a
    status of 500 or more or the status 429, and the context does not end
    during the two waits, [FetchTopChart] fails with the error of the
    third attempt (the transport error, or "rss request failed: " and the
    status line), after three requests and the waits of 500 ms and
    1000 ms. *)
Theorem FetchTopChart_gives_up_after_three_attempts net country chart limit e :
  ValidChart chart = true ->
  http_NewRequest net (chartURL country chart limit) = None ->
  (forall j, 0 <= j < 3 -> retryable net (chartURL country chart limit) j) ->
  ctx_Done net 0 = None -> ctx_Done net 1 = None ->
  failureOf net (chartURL country chart limit) 2 e ->
  FetchTopChart net country chart limit
  = (Err e, allEvents (chartURL country chart limit)).
Proof.
  intros Hv Hreq Hr Hc0 Hc1 Hf. unfold FetchTopChart. rewrite Hv. cbn [negb].
  set (url := chartURL country chart limit) in *.
  destruct (proj2 (attemptOnce_Retry net url 0)) as [e0 E0]; [apply Hr; lia|].
  destruct (proj2 (attemptOnce_Retry net url 1)) as [e1 E1]; [apply Hr; lia|].
  assert (E2 : attemptOnce net url 2 = Retry e).
  { apply retryable_failureOf; [apply Hr; lia | done]. }
  rewrite (fetchAttempts_retry net url 0 _ _ e0 Hreq E0) by done.
  rewrite (fetchAttempts_retry net url 1 _ _ e1 Hreq E1) by done.
  rewrite (fetchAttempts_retry net url 2 _ _ e Hreq E2) by lia.
  reflexivity.
Qed.

Definition exDownNet : Net :=
  {| http_NewRequest := fun _ => None;
     client_Do := fun k _ =>
       if k =? 2
       then Ok {| StatusCode := 429; Status := "429 Too Many Requests";
                  Decoded := Err (errorString "EOF") |}
       else Err (errorString "dial tcp: connection refused");
     ctx_Done := fun _ => None |}.

Lemma FetchTopChart_gives_up_after_three_attempts_witness :
  FetchTopChart exDownNet "kr" "top-free" 100
  = (Err (errorString "rss request failed: 429 Too Many Requests"),
     allEvents (chartURL "kr" "top-free" 100)).
Proof.
  apply (FetchTopChart_gives_up_after_three_attempts exDownNet "kr" "top-free" 100).
  - reflexivity.
  - reflexivity.
  - intros j Hj. assert (j = 0 \/ j = 1 \/ j = 2) as [-> | [-> | ->]] by lia.
    + left. by eexists.
    + left. by eexists.
    + right. eexists. split; [reflexivity|]. right. reflexivity.
  - reflexivity.
  - reflexivity.
  - right. eexists. split; reflexivity.
Defined.

(** An answer that ends the fetch with an error: a status other than 200
    that is below 500 and is not 429, or the status 200 with a body that
    does not decode. *)
Definition refused (net : Net) (url : string) (k : Z) (e : error) : Prop :=
  exists res, client_Do net k url = Ok res
    /\ ((StatusCode res <> 200 /\ StatusCode res < 500 /\ StatusCode res <> 429
         /\ e = errorString (String.append "rss request failed: " (Status res)))
        \/ (StatusCode res = 200 /\ Decoded res = Err e)).

Lemma refused_Return net url k e : refused net url k e -> attemptOnce net url k = Return (Err e).
Proof.
  intros (res & Hres & H). unfold attemptOnce, readResponse. rewrite Hres.
  destruct H as [(H2 & H5 & H4 & ->) | [H2 Hd]].
  - replace (StatusCode res =? 200) with false by (symmetry; by apply Z.eqb_neq).
    cbn [negb].
    replace (StatusCode res <? 500) with true by (symmetry; by apply Z.ltb_lt).
    replace (StatusCode res =? 429) with false by (symmetry; by apply Z.eqb_neq).
    reflexivity.
  - rewrite H2, Hd. reflexivity.
Qed.

(** X23. An answer with a status other than 200 that is below 500 and is
    not 429, or with status 200 and a body that does not decode, is never
    tried again: when it comes at attempt k, after attempts that were
    tried again, [FetchTopChart] fails with its error ("rss request
    failed: " and the status line, or the decoding error) and has sent
    k + 1 requests, with no wait after the last. *)
Theorem FetchTopChart_does_not_retry_a_refusal net country chart limit k e :
  ValidChart chart = true ->
  http_NewRequest net (chartURL country chart limit) = None ->
  0 <= k < 3 ->
  (forall j, 0 <= j < k ->
     retryable net (chartURL country chart limit) j /\ ctx_Done net j = None) ->
  refused net (chartURL country chart limit) k e ->
  FetchTopChart net country chart limit
  = (Err e, take (Z.to_nat (2 * k + 1)) (allEvents (chartURL country chart limit))).
Proof.
  intros Hv Hreq Hk Hpre Hf. unfold FetchTopChart. rewrite Hv. cbn [negb].
  set (url := chartURL country chart limit) in *.
  apply refused_Return in Hf.
  assert (k = 0 \/ k = 1 \/ k = 2) as [-> | [-> | ->]] by lia.
  - by rewrite (fetchAttempts_return net url 0 _ _ _ Hreq Hf).
  - destruct (Hpre 0) as [Hr0 Hc0]; [lia|].
    apply attemptOnce_Retry in Hr0 as [e0 E0].
    rewrite (fetchAttempts_retry net url 0 _ _ e0 Hreq E0) by done.
    by rewrite (fetchAttempts_return net url 1 _ _ _ Hreq Hf).
  - destruct (Hpre 0) as [Hr0 Hc0]; [lia|]. destruct (Hpre 1) as [Hr1 Hc1]; [lia|].
    apply attemptOnce_Retry in Hr0 as [e0 E0]. apply attemptOnce_Retry in Hr1 as [e1 E1].
    rewrite (fetchAttempts_retry net url 0 _ _ e0 Hreq E0) by done.
    rewrite (fetchAttempts_retry net url 1 _ _ e1 Hreq E1) by done.
    by rewrite (fetchAttempts_return net url 2 _ _ _ Hreq Hf).
Qed.

Definition exMissingNet : Net :=
  {| http_NewRequest := fun _ => None;
     client_Do := fun k _ =>
       if k =? 0
       then Ok {| StatusCode := 502; Status := "502 Bad Gateway";
                  Decoded := Err (errorString "EOF") |}
       else Ok {| StatusCode := 404; Status := "404 Not Found";
                  Decoded := Err (errorString "EOF") |};
     ctx_Done := fun _ => None |}.

Lemma FetchTopChart_does_not_retry_a_refusal_witness :
  FetchTopChart exMissingNet "kr" "top-free" 100
  = (Err (errorString "rss request failed: 404 Not Found"),
     [Request (chartURL "kr" "top-free" 100); Wait 500;
      Request (chartURL "kr" "top-free" 100)]).
Proof.
  apply (FetchTopChart_does_not_retry_a_refusal exMissingNet "kr" "top-free" 100 1).
  - reflexivity.
  - reflexivity.
  - lia.
  - intros j Hj. assert (j = 0) as -> by lia. split; [|reflexivity].
    right. eexists. split; [reflexivity|]. left. simpl. lia.
  - eexists. split; [reflexivity|]. left. simpl.
    split; [lia|]. split; [lia|]. split; [lia | reflexivity].
Defined.

(** X24. The context is looked at only while [FetchTopChart] waits: when
    it ends during the wait after attempt k (the first or the second),
    the attempts up to k having been answered with a transport error, a
    status of 500 or more or the status 429, the function fails with the
    context's error and sends no further request. *)
Theorem FetchTopChart_stops_when_the_context_ends
    net country chart limit k ctxErr :
  ValidChart chart = true ->
  http_NewRequest net (chartURL country chart limit) = None ->
  0 <= k < 2 ->
  (forall j, 0 <= j <= k -> retryable net (chartURL country chart limit) j) ->
  (forall j, 0 <= j < k -> ctx_Done net j = None) ->
  ctx_Done net k = Some ctxErr ->
  FetchTopChart net country chart limit
  = (Err ctxErr, take (Z.to_nat (2 * k + 2)) (allEvents (chartURL country chart limit))).
Proof.
  intros Hv Hreq Hk Hr Hc Hdone. unfold FetchTopChart. rewrite Hv. cbn [negb].
  set (url := chartURL country chart limit) in *.
  destruct (proj2 (attemptOnce_Retry net url 0)) as [e0 E0]; [apply Hr; lia|].
  assert (k = 0 \/ k = 1) as [-> | ->] by lia.
  - cbn [fetchAttempts]. rewrite Hreq, E0, Hdone. reflexivity.
  - destruct (proj2 (attemptOnce_Retry net url 1)) as [e1 E1]; [apply Hr; lia|].
    rewrite (fetchAttempts_retry net url 0 _ _ e0 Hreq E0) by (intros _; apply Hc; lia).
    cbn [fetchAttempts]. rewrite Hreq, E1, Hdone. reflexivity.
Qed.

Definition exCancelledNet : Net :=
  {| http_NewRequest := fun _ => None;
     client_Do := fun _ _ => Err (errorString "dial tcp: connection refused");
     ctx_Done := fun k => if k =? 0 then None else Some (errorString "context canceled") |}.

Lemma FetchTopChart_stops_when_the_context_ends_witness :
  FetchTopChart exCancelledNet "kr" "top-paid" 25
  = (Err (errorString "context canceled"),
     [Request (chartURL "kr" "top-paid" 25); Wait 500;
      Request (chartURL "kr" "top-paid" 25); Wait 1000]).
Proof.
  apply (FetchTopChart_stops_when_the_context_ends exCancelledNet "kr" "top-paid" 25 1).
  - reflexivity.
  - reflexivity.
  - lia.
  - intros j _. left. by eexists.
  - intros j Hj. assert (j = 0) as -> by lia. reflexivity.
  - reflexivity.
Defined.

(** ** A row written and read back *)

(** A list that a text column gives back as it was written. *)
Definition storable (values : list string) : Prop :=
  values <> [EmptyString] /\ Forall (fun v => "|"%char ∉ list_ascii_of_string v) values.


Lemma no_empty_storable values :
  EmptyString ∉ values -> Forall (fun v => "|"%char ∉ list_ascii_of_string v) values ->
  storable values.
Proof. intros Hne Hno. split; [|done]. intros ->. apply Hne. left. Qed.


(** ** Fetching a snapshot *)

(** The items handed to [InsertChartItem], in the order of the calls. *)
Definition insertedItems (events : list FetchEvent) : list ChartItem.t :=
  omap (fun ev => match ev with InsertChartItemCall item => Some item | _ => None end) events.

(** The snapshots handed to [InsertSnapshot]. *)
Definition insertedSnapshots (events : list FetchEvent) : list Snapshot :=
  omap (fun ev => match ev with InsertSnapshotCall s => Some s | _ => None end) events.

(** The app ids looked up, in the order of the calls. *)
Definition lookedUp (events : list FetchEvent) : list string :=
  omap (fun ev => match ev with LookupCall appID _ => Some appID | _ => None end) events.

(** The metadata the lookup of an entry gives: that of the first result
    when the lookup succeeds and finds the app, none otherwise. *)
Definition metaOf (w : FetchWorld) (country : string) (noItunes : bool)
    (idx : nat) (item : RSSApp.t) : option ItunesApp.t :=
  if noItunes then None
  else match LookupApp (http_NewRequest (fw_net w)) (fw_lookupDo w idx)
               (RSSApp.ID item) country with
       | Ok (meta, true) => Some meta
       | _ => None
       end.

Lemma insertedItems_app a b : insertedItems (a ++ b) = insertedItems a ++ insertedItems b.
Proof. apply omap_app. Qed.

Lemma insertedSnapshots_app a b :
  insertedSnapshots (a ++ b) = insertedSnapshots a ++ insertedSnapshots b.
Proof. apply omap_app. Qed.

Lemma lookedUp_app a b : lookedUp (a ++ b) = lookedUp a ++ lookedUp b.
Proof. apply omap_app. Qed.

Lemma chart_events_insert_nothing (events : list Event) :
  insertedItems (map ChartEvent events) = []
  /\ insertedSnapshots (map ChartEvent events) = []
  /\ lookedUp (map ChartEvent events) = [].
Proof. induction events as [|e l (IH1 & IH2 & IH3)]; [done|]. by cbn. Qed.

Lemma lookupMeta_spec w country noItunes idx item :
  LookupApp (http_NewRequest (fw_net w)) (fw_lookupDo w idx) (RSSApp.ID item) country <> Panic ->
  exists events,
    lookupMeta w country noItunes idx item = (Ok (metaOf w country noItunes idx item), events)
    /\ insertedItems events = []
    /\ insertedSnapshots events = []
    /\ lookedUp events = if noItunes then [] else [RSSApp.ID item].
Proof.
  intros Hnp. unfold lookupMeta, metaOf. destruct noItunes; [by exists []|].
  destruct (LookupApp _ _ _ _) as [[meta ok]|e|]; [| |done].
  - eexists. split; [by destruct ok|]. done.
  - eexists. split; [reflexivity|]. done.
Qed.

(** The items of a fetch whose inserts are all accepted. *)
Definition itemsFrom (w : FetchWorld) (country : string) (noItunes : bool)
    (snapshotID : Z) (idx : nat) (items : list RSSApp.t) : list ChartItem.t :=
  imap (fun i item => chartItemOf snapshotID (idx + i) item
                        (metaOf w country noItunes (idx + i) item)) items.

Lemma itemsFrom_cons w country noItunes snapshotID idx item rest :
  itemsFrom w country noItunes snapshotID idx (item :: rest)
  = chartItemOf snapshotID idx item (metaOf w country noItunes idx item)
    :: itemsFrom w country noItunes snapshotID (S idx) rest.
Proof.
  unfold itemsFrom. cbn [imap]. rewrite Nat.add_0_r. f_equal.
  apply imap_ext. intros i x _. cbn. by rewrite Nat.add_succ_r.
Qed.

Lemma itemsFrom_app w country noItunes snapshotID idx pre post :
  itemsFrom w country noItunes snapshotID idx (pre ++ post)
  = itemsFrom w country noItunes snapshotID idx pre
    ++ itemsFrom w country noItunes snapshotID (idx + length pre) post.
Proof.
  revert idx; induction pre as [|x pre IH]; intros idx.
  - simpl. by rewrite Nat.add_0_r.
  - rewrite <- app_comm_cons, !itemsFrom_cons, IH. simpl.
    by rewrite Nat.add_succ_r.
Qed.

(** The loop when every insert is accepted. *)
Lemma insertItems_accepted w country noItunes snapshotID idx items :
  (forall i item, LookupApp (http_NewRequest (fw_net w)) (fw_lookupDo w i)
                    (RSSApp.ID item) country <> Panic) ->
  (forall i item, (idx <= i < idx + length items)%nat -> fw_InsertChartItem w i item = None) ->
  exists events,
    insertItems w country noItunes snapshotID idx items = (Ok tt, events)
    /\ insertedItems events = itemsFrom w country noItunes snapshotID idx items
    /\ insertedSnapshots events = []
    /\ lookedUp events = if noItunes then [] else map RSSApp.ID items.
Proof.
  intros Hnp. revert idx. induction items as [|item rest IH]; intros idx Hacc.
  - exists []. by destruct noItunes.
  - cbn [insertItems]. rewrite itemsFrom_cons.
    destruct (lookupMeta_spec w country noItunes idx item (Hnp idx item))
      as (lev & -> & Hli & Hls & Hll).
    rewrite (Hacc idx) by (simpl; lia).
    destruct (IH (S idx)) as (events & -> & Hi & Hs & Hl).
    { intros i it Hi. apply Hacc. simpl. lia. }
    eexists. split; [reflexivity|].
    rewrite insertedItems_app, insertedSnapshots_app, lookedUp_app, Hli, Hls, Hll.
    change (insertedItems (?e :: events)) with (insertedItems [e] ++ insertedItems events).
    change (insertedSnapshots (?e :: events))
      with (insertedSnapshots [e] ++ insertedSnapshots events).
    change (lookedUp (?e :: events)) with (lookedUp [e] ++ lookedUp events).
    rewrite Hi, Hs, Hl. split; [done|]. split; [done|]. by destruct noItunes.
Qed.

(** The loop when the insert of one entry is refused. *)
Lemma insertItems_refused w country noItunes snapshotID idx pre bad post e :
  (forall i item, LookupApp (http_NewRequest (fw_net w)) (fw_lookupDo w i)
                    (RSSApp.ID item) country <> Panic) ->
  (forall i item, (idx <= i < idx + length pre)%nat -> fw_InsertChartItem w i item = None) ->
  fw_InsertChartItem w (idx + length pre)
    (chartItemOf snapshotID (idx + length pre) bad
       (metaOf w country noItunes (idx + length pre) bad)) = Some e ->
  exists events,
    insertItems w country noItunes snapshotID idx (pre ++ bad :: post) = (Err e, events)
    /\ insertedItems events = itemsFrom w country noItunes snapshotID idx (pre ++ [bad])
    /\ insertedSnapshots events = [].
Proof.
  intros Hnp. revert idx. induction pre as [|item rest IH]; intros idx Hacc Hbad.
  - simpl in *. rewrite Nat.add_0_r in Hbad.
    destruct (lookupMeta_spec w country noItunes idx bad (Hnp idx bad))
      as (lev & -> & Hli & Hls & Hll).
    rewrite Hbad. eexists. split; [reflexivity|].
    rewrite insertedItems_app, insertedSnapshots_app, Hli, Hls, itemsFrom_cons. done.
  - rewrite <- !app_comm_cons. cbn [insertItems]. rewrite itemsFrom_cons.
    destruct (lookupMeta_spec w country noItunes idx item (Hnp idx item))
      as (lev & -> & Hli & Hls & Hll).
    rewrite (Hacc idx) by (simpl; lia).
    destruct (IH (S idx)) as (events & -> & Hi & Hs).
    { intros i it Hi. apply Hacc. simpl. lia. }
    { simpl in Hbad. by rewrite Nat.add_succ_r in Hbad. }
    eexists. split; [reflexivity|].
    rewrite insertedItems_app, insertedSnapshots_app, Hli, Hls.
    change (insertedItems (?e :: events)) with (insertedItems [e] ++ insertedItems events).
    change (insertedSnapshots (?e :: events))
      with (insertedSnapshots [e] ++ insertedSnapshots events).
    rewrite Hi, Hs. done.
Qed.

Lemma lookupMeta_events w country noItunes idx item :
  insertedItems (lookupMeta w country noItunes idx item).2 = []
  /\ insertedSnapshots (lookupMeta w country noItunes idx item).2 = []
  /\ forall e, (lookupMeta w country noItunes idx item).1 <> Err e.
Proof.
  unfold lookupMeta. destruct noItunes; [done|].
  by destruct (LookupApp _ _ _ _) as [[meta ok]|e|].
Qed.

(** Whatever the world does, a loop that ends well has made one insert per
    entry, and no loop inserts a snapshot. *)
Lemma insertItems_count w country noItunes snapshotID idx items :
  insertedSnapshots (insertItems w country noItunes snapshotID idx items).2 = []
  /\ ((insertItems w country noItunes snapshotID idx items).1 = Ok tt ->
      length (insertedItems (insertItems w country noItunes snapshotID idx items).2)
      = length items).
Proof.
  revert idx; induction items as [|item rest IH]; intros idx; [done|].
  cbn [insertItems].
  destruct (lookupMeta_events w country noItunes idx item) as (Hli & Hls & Hle).
  destruct (lookupMeta w country noItunes idx item) as [meta lev]. cbn [fst snd] in *.
  destruct meta as [m|e|]; [|by destruct (Hle e)|done].
  destruct (fw_InsertChartItem w idx _) as [err|].
  - cbn [fst snd]. rewrite insertedSnapshots_app, Hls. done.
  - destruct (IH (S idx)) as [IHs IHn].
    destruct (insertItems w country noItunes snapshotID (S idx) rest) as [r events].
    cbn [fst snd] in *. rewrite insertedSnapshots_app, insertedItems_app, Hls, Hli.
    change (insertedItems (?e :: events)) with (insertedItems [e] ++ insertedItems events).
    change (insertedSnapshots (?e :: events))
      with (insertedSnapshots [e] ++ insertedSnapshots events).
    rewrite IHs. split; [done|]. intros Hr. simpl. by rewrite IHn.
Qed.

(** X26. [fetchSnapshot] writes nothing unless the feed was fetched and
    has an entry: for a chart that is neither "top-free" nor "top-paid" it
    fails with "unsupported chart: ..." without doing anything; when the
    fetch of the chart fails it fails with that error, and when the feed
    has no entry it fails with "rss returned no results", in both cases
    without an insert or a lookup.  Whatever the world does, a fetch that
    succeeds has inserted exactly one snapshot and exactly as many items as
    the count it returns, which is at least one. *)
Theorem fetchSnapshot_writes_nothing_without_a_feed w c country chart limit noItunes :
  let r := (fetchSnapshot w c country chart limit noItunes).1 in
  let events := (fetchSnapshot w c country chart limit noItunes).2 in
  (chart <> "top-free"%string -> chart <> "top-paid"%string ->
   r = Err (errorString (String.append "unsupported chart: " chart)) /\ events = [])
  /\ (ValidChart chart = true ->
      forall e, (FetchTopChart (fw_net w) country chart limit).1 = Err e ->
      r = Err e /\ insertedSnapshots events = [] /\ insertedItems events = []
      /\ lookedUp events = [])
  /\ (ValidChart chart = true ->
      forall rss u, (FetchTopChart (fw_net w) country chart limit).1 = Ok (rss, u) ->
      RSSFeed.Results (Feed rss) = [] ->
      r = Err (errorString "rss returned no results")
      /\ insertedSnapshots events = [] /\ insertedItems events = [] /\ lookedUp events = [])
  /\ (forall snapshotID count, r = Ok (snapshotID, count) ->
      0 < count /\ length (insertedSnapshots events) = 1%nat
      /\ len (insertedItems events) = count).
Proof.
  intros r events. subst r events. unfold fetchSnapshot.
  destruct (ValidChart chart) eqn:Ev; cbn [negb].
  2: { split; [done|]. split; [done|]. split; [done|]. done. }
  destruct (FetchTopChart (fw_net w) country chart limit) as [fetched cev]. cbn [fst].
  destruct (chart_events_insert_nothing cev) as (Hci & Hcs & Hcl).
  split; [|split; [|split]].
  - intros H1 H2. apply ValidChart_spec in Ev as [-> | ->]; done.
  - intros _ e ->. done.
  - intros _ rss u -> Hres. rewrite Hres. done.
  - intros snapshotID count.
    destruct fetched as [[rss u]|e|]; [|done..].
    destruct (len (RSSFeed.Results (Feed rss)) =? 0) eqn:El; [done|].
    destruct (fw_InsertSnapshot w _) as [id|e|]; [|done..].
    destruct (insertItems_count w country noItunes id 0 (RSSFeed.Results (Feed rss)))
      as [Hs Hn].
    destruct (insertItems w country noItunes id 0 (RSSFeed.Results (Feed rss))) as [ri evs].
    cbn [fst snd] in *. destruct ri as [[]|e|]; [|done..]. cbn [bind].
    intros [= <- <-]. apply Z.eqb_neq in El.
    rewrite insertedSnapshots_app, insertedItems_app, Hci, Hcs.
    change (insertedItems (?e :: evs)) with (insertedItems [e] ++ insertedItems evs).
    change (insertedSnapshots (?e :: evs)) with (insertedSnapshots [e] ++ insertedSnapshots evs).
    rewrite Hs. split; [unfold len in *; lia|]. split; [done|].
    unfold len. simpl. by rewrite Hn.
Qed.

(** A lookup service that answers: no call of it panics. *)
Definition lookupsAnswer (w : FetchWorld) : Prop :=
  forall i url, match fw_lookupDo w i url with
                | Panic => False
                | Ok answer => lk_Decoded answer <> Panic
                | Err _ => True
                end.

(** The lookup of an entry finds the app: the request can be built, the
    answer has status 200 and a body that decodes to a count of at least
    one and a list of results whose first is [meta]. *)
Definition lookupFinds (w : FetchWorld) (country : string) (idx : nat) (entry : RSSApp.t)
    (meta : ItunesApp.t) : Prop :=
  http_NewRequest (fw_net w) (lookupURL (RSSApp.ID entry) country) = None
  /\ exists answer resp rest,
       fw_lookupDo w idx (lookupURL (RSSApp.ID entry) country) = Ok answer
       /\ lk_StatusCode answer = 200
       /\ lk_Decoded answer = Ok resp
       /\ 1 <= ResultCount resp
       /\ it_Results resp = meta :: rest.

Lemma LookupApp_found w country idx entry meta :
  LookupApp (http_NewRequest (fw_net w)) (fw_lookupDo w idx) (RSSApp.ID entry) country
  = Ok (meta, true)
  <-> lookupFinds w country idx entry meta.
Proof.
  unfold LookupApp, lookupFinds.
  destruct (http_NewRequest (fw_net w) _) as [err|]; [split; [done | by intros [? _]]|].
  destruct (fw_lookupDo w idx _) as [answer|e|]; cbn [bind].
  2, 3: split; [done | by intros [_ (? & ? & ? & ? & _)]].
  destruct (lk_StatusCode answer =? 200) eqn:Es; cbn [negb].
  2: { apply Z.eqb_neq in Es. split; [done|].
       intros [_ (a & ? & ? & [= <-] & ? & _)]. done. }
  apply Z.eqb_eq in Es.
  destruct (lk_Decoded answer) as [resp|e|] eqn:Ed; cbn [bind].
  2, 3: split; [done | intros [_ (a & ? & ? & [= <-] & _ & Hd & _)]; congruence].
  destruct (ResultCount resp <? 1) eqn:Ec; cbn [orb].
  { apply Z.ltb_lt in Ec. split; [done|].
    intros [_ (a & r & ? & [= <-] & _ & Hd & Hc & _)].
    rewrite Ed in Hd. injection Hd as <-. lia. }
  apply Z.ltb_ge in Ec.
  destruct (it_Results resp) as [|first rest] eqn:Er.
  { split; [done|]. intros [_ (a & r & ? & [= <-] & _ & Hd & _ & Hr)].
    rewrite Ed in Hd. injection Hd as <-. congruence. }
  change (len (first :: rest) =? 0) with false. split.
  - intros [= ->]. split; [done|]. by exists answer, resp, rest.
  - intros [_ (a & r & rest' & [= <-] & _ & Hd & _ & Hr)].
    rewrite Ed in Hd. injection Hd as <-. congruence.
Qed.

Lemma lookupsAnswer_no_panic w country :
  lookupsAnswer w ->
  forall i item, LookupApp (http_NewRequest (fw_net w)) (fw_lookupDo w i)
                   (RSSApp.ID item) country <> Panic.
Proof.
  intros Hw i item. unfold LookupApp.
  destruct (http_NewRequest (fw_net w) _); [done|].
  specialize (Hw i (lookupURL (RSSApp.ID item) country)).
  destruct (fw_lookupDo w i _) as [answer|e|]; cbn [bind]; [|done..].
  destruct (negb _); [done|].
  destruct (lk_Decoded answer) as [resp|e|]; cbn [bind]; [|done..].
  destruct (_ || _) eqn:E; [done|].
  destruct (it_Results resp); [|done].
  by rewrite orb_true_r in E.
Qed.

(** The snapshot [fetchSnapshot] hands to the store. *)
Definition snapshotOf (c : Clock) (country chart : string) (limit : Z) (sourceURL : string)
    : Snapshot :=
  {| ID := 0; CollectedAt := time_Now c; Country := country; Chart := chart;
     Limit := limit; SourceURL := sourceURL |}.

(** [fetchSnapshot] once the feed is there and the snapshot is stored. *)
Lemma fetchSnapshot_run w c country chart limit noItunes rss sourceURL chartEvents snapshotID :
  ValidChart chart = true ->
  FetchTopChart (fw_net w) country chart limit = (Ok (rss, sourceURL), chartEvents) ->
  RSSFeed.Results (Feed rss) <> [] ->
  fw_InsertSnapshot w (snapshotOf c country chart limit sourceURL) = Ok snapshotID ->
  fetchSnapshot w c country chart limit noItunes
  = (_ <- (insertItems w country noItunes snapshotID 0 (RSSFeed.Results (Feed rss))).1 ;;
     Ok (snapshotID, len (RSSFeed.Results (Feed rss))),
     map ChartEvent chartEvents
       ++ InsertSnapshotCall (snapshotOf c country chart limit sourceURL)
       :: (insertItems w country noItunes snapshotID 0 (RSSFeed.Results (Feed rss))).2).
Proof.
  intros Hv Hf Hne Hs. unfold fetchSnapshot. rewrite Hv, Hf. cbn [negb].
  replace (len (RSSFeed.Results (Feed rss)) =? 0) with false.
  2: { symmetry. apply not_true_iff_false. intros E. by apply len_zero in E. }
  fold (snapshotOf c country chart limit sourceURL). rewrite Hs.
  by destruct (insertItems _ _ _ _ _ _).
Qed.

Lemma itemsFrom_lookup w country noItunes snapshotID items i entry :
  items !! i = Some entry ->
  itemsFrom w country noItunes snapshotID 0 items !! i
  = Some (chartItemOf snapshotID i entry (metaOf w country noItunes i entry)).
Proof. intros Hi. unfold itemsFrom. by rewrite list_lookup_imap, Hi. Qed.

(** X27. When the chart is fetched with at least one entry, the store
    accepts the snapshot and every item, and the lookup service answers,
    [fetchSnapshot] succeeds whatever the lookups find: it returns the id
    the store gave and the number of entries; it stores one snapshot, with
    the current time, the market, the chart, the limit asked for and the
    URL of the chart; it looks up every entry in feed order, none when
    lookups are switched off; and it stores one item per entry in feed
    order, the item of the entry of index i having that snapshot id, the
    rank i + 1, the entry's id, name and URL, and the genre names and ids
    [ExtractGenres] gives. *)
Theorem fetchSnapshot_stores_the_feed_in_order
    w c country chart limit noItunes rss sourceURL chartEvents snapshotID :
  ValidChart chart = true ->
  FetchTopChart (fw_net w) country chart limit = (Ok (rss, sourceURL), chartEvents) ->
  RSSFeed.Results (Feed rss) <> [] ->
  fw_InsertSnapshot w (snapshotOf c country chart limit sourceURL) = Ok snapshotID ->
  (forall i item, fw_InsertChartItem w i item = None) ->
  lookupsAnswer w ->
  let r := (fetchSnapshot w c country chart limit noItunes).1 in
  let events := (fetchSnapshot w c country chart limit noItunes).2 in
  r = Ok (snapshotID, len (RSSFeed.Results (Feed rss)))
  /\ insertedSnapshots events
     = [{| ID := 0; CollectedAt := time_Now c; Country := country; Chart := chart;
           Limit := limit; SourceURL := sourceURL |}]
  /\ lookedUp events = (if noItunes then [] else map RSSApp.ID (RSSFeed.Results (Feed rss)))
  /\ length (insertedItems events) = length (RSSFeed.Results (Feed rss))
  /\ forall i entry,
       RSSFeed.Results (Feed rss) !! i = Some entry ->
       exists item,
         insertedItems events !! i = Some item
         /\ ChartItem.SnapshotID item = snapshotID
         /\ ChartItem.Rank item = Z.of_nat i + 1
         /\ ChartItem.AppID item = RSSApp.ID entry
         /\ ChartItem.AppName item = RSSApp.Name entry
         /\ ChartItem.AppURL item = RSSApp.URL entry
         /\ (ChartItem.Genres item, ChartItem.GenreIDs item)
            = ExtractGenres (RSSApp.Genres entry).
Proof.
  intros Hv Hf Hne Hs Hacc Hw r events. subst r events.
  rewrite (fetchSnapshot_run _ _ _ _ _ _ _ _ _ _ Hv Hf Hne Hs).
  destruct (insertItems_accepted w country noItunes snapshotID 0 (RSSFeed.Results (Feed rss)))
    as (evs & -> & Hi & Hsn & Hl).
  { by apply lookupsAnswer_no_panic. }
  { intros i item _. apply Hacc. }
  cbn [fst snd bind].
  destruct (chart_events_insert_nothing chartEvents) as (Hci & Hcs & Hcl).
  rewrite insertedSnapshots_app, insertedItems_app, lookedUp_app, Hci, Hcs, Hcl.
  change (insertedItems (?e :: evs)) with (insertedItems [e] ++ insertedItems evs).
  change (insertedSnapshots (?e :: evs)) with (insertedSnapshots [e] ++ insertedSnapshots evs).
  change (lookedUp (?e :: evs)) with (lookedUp [e] ++ lookedUp evs).
  rewrite Hi, Hsn, Hl. split; [done|]. split; [done|]. split; [done|]. split.
  - unfold itemsFrom. simpl. by rewrite length_imap.
  - intros i entry Hentry. eexists. split.
    + simpl. by apply itemsFrom_lookup.
    + unfold chartItemOf. destruct (ExtractGenres (RSSApp.Genres entry)) as [genres ids].
      by destruct (metaOf w country noItunes i entry).
Qed.

(** A world in which the chart comes at the second attempt, every lookup
    finds an app nobody has rated, and the store accepts everything. *)
Definition exMeta : ItunesApp.t :=
  ItunesApp.mk 1001 "Bank App" "Maker" "" "Finance" ["Finance"; "Business"] 0 0 0 0.

Definition exFetchWorld : FetchWorld :=
  {| fw_net := exNet;
     fw_lookupDo := fun _ _ =>
       Ok {| lk_StatusCode := 200; lk_Status := "200 OK";
             lk_Decoded := Ok {| ResultCount := 1; it_Results := [exMeta] |} |};
     fw_InsertSnapshot := fun _ => Ok 7;
     fw_InsertChartItem := fun _ _ => None |}.

Lemma exFetchWorld_answers : lookupsAnswer exFetchWorld.
Proof. intros i url. simpl. discriminate. Defined.

Lemma fetchSnapshot_stores_the_feed_in_order_witness :
  (fetchSnapshot exFetchWorld exClock "kr" "top-free" 100 false).1 = Ok (7, 1)
  /\ lookedUp (fetchSnapshot exFetchWorld exClock "kr" "top-free" 100 false).2 = ["1001"%string].
Proof.
  destruct (fetchSnapshot_stores_the_feed_in_order exFetchWorld exClock "kr" "top-free" 100
              false exResponse (chartURL "kr" "top-free" 100)
              [Request (chartURL "kr" "top-free" 100); Wait 500;
               Request (chartURL "kr" "top-free" 100)] 7)
    as (Hr & _ & Hl & _).
  - reflexivity.
  - reflexivity.
  - discriminate.
  - reflexivity.
  - reflexivity.
  - exact exFetchWorld_answers.
  - split; [exact Hr | exact Hl].
Defined.

Lemma metaOf_Some w country i entry meta :
  metaOf w country false i entry = Some meta <-> lookupFinds w country i entry meta.
Proof.
  rewrite <- LookupApp_found. unfold metaOf.
  destruct (LookupApp _ _ _ _) as [[m ok]|e|]; [|done..].
  destruct ok; [|done]. split; congruence.
Qed.

(** X28. What the lookup adds to a stored item, under the conditions of
    X27.  When lookups are on and the lookup of the entry finds the app,
    the item carries the primary genre and the genres of the first result,
    and its rating count is valid and is that result's count, also when
    the count is 0.  When lookups are off, or the lookup fails or finds
    nothing, the item has an empty primary genre, no iTunes genres and a
    rating count that is not valid. *)
Theorem fetchSnapshot_lookup_metadata
    w c country chart limit noItunes rss sourceURL chartEvents snapshotID :
  ValidChart chart = true ->
  FetchTopChart (fw_net w) country chart limit = (Ok (rss, sourceURL), chartEvents) ->
  RSSFeed.Results (Feed rss) <> [] ->
  fw_InsertSnapshot w (snapshotOf c country chart limit sourceURL) = Ok snapshotID ->
  (forall i item, fw_InsertChartItem w i item = None) ->
  lookupsAnswer w ->
  forall i entry item,
    RSSFeed.Results (Feed rss) !! i = Some entry ->
    insertedItems (fetchSnapshot w c country chart limit noItunes).2 !! i = Some item ->
    (forall meta, noItunes = false -> lookupFinds w country i entry meta ->
       ChartItem.RatingCount item
       = {| Value := ItunesApp.UserRatingCount meta; Valid := true |}
       /\ ChartItem.PrimaryGenre item = ItunesApp.PrimaryGenreName meta
       /\ ChartItem.ItunesGenres item = ItunesApp.Genres meta)
    /\ (noItunes = true \/ (forall meta, ~ lookupFinds w country i entry meta) ->
        ChartItem.RatingCount item = {| Value := 0; Valid := false |}
        /\ ChartItem.PrimaryGenre item = EmptyString
        /\ ChartItem.ItunesGenres item = []).
Proof.
  intros Hv Hf Hne Hs Hacc Hw i entry item Hentry.
  rewrite (fetchSnapshot_run _ _ _ _ _ _ _ _ _ _ Hv Hf Hne Hs).
  destruct (insertItems_accepted w country noItunes snapshotID 0 (RSSFeed.Results (Feed rss)))
    as (evs & -> & Hi & _).
  { by apply lookupsAnswer_no_panic. }
  { intros j it _. apply Hacc. }
  cbn [fst snd].
  destruct (chart_events_insert_nothing chartEvents) as (Hci & _).
  rewrite insertedItems_app, Hci.
  change (insertedItems (?e :: evs)) with (insertedItems [e] ++ insertedItems evs).
  rewrite Hi. simpl. rewrite (itemsFrom_lookup _ _ _ _ _ _ _ Hentry). intros [= <-].
  unfold chartItemOf. destruct (ExtractGenres (RSSApp.Genres entry)) as [genres ids]. split.
  - intros meta -> Hfound. apply metaOf_Some in Hfound. by rewrite Hfound.
  - intros [-> | Hnone]; [done|].
    destruct noItunes; [done|].
    destruct (metaOf w country false i entry) as [meta|] eqn:Em; [|done].
    apply metaOf_Some in Em. by apply Hnone in Em.
Qed.

Lemma fetchSnapshot_lookup_metadata_witness :
  exists item,
    insertedItems (fetchSnapshot exFetchWorld exClock "kr" "top-free" 100 false).2 !! 0%nat
    = Some item
    /\ ChartItem.RatingCount item = {| Value := 0; Valid := true |}.
Proof.
  destruct (insertedItems (fetchSnapshot exFetchWorld exClock "kr" "top-free" 100 false).2
              !! 0%nat) as [item|] eqn:E; [|vm_compute in E; discriminate].
  exists item. split; [reflexivity|].
  destruct (fetchSnapshot_lookup_metadata exFetchWorld exClock "kr" "top-free" 100
              false exResponse (chartURL "kr" "top-free" 100)
              [Request (chartURL "kr" "top-free" 100); Wait 500;
               Request (chartURL "kr" "top-free" 100)] 7
              eq_refl eq_refl ltac:(discriminate) eq_refl ltac:(reflexivity)
              exFetchWorld_answers 0%nat _ item eq_refl E) as [Hfound _].
  destruct (Hfound exMeta eq_refl) as [Hcount _]; [|exact Hcount].
  split; [reflexivity|]. eexists. eexists. exists [].
  split; [reflexivity|]. split; [reflexivity|]. split; [reflexivity|].
  split; [simpl; lia | reflexivity].
Defined.

(** X29. Nothing is undone when the store refuses an item.  Under the
    conditions of X27, except that the item of one entry is refused after
    the items before it were accepted, [fetchSnapshot] fails with the
    error of that insert; the snapshot and the items of the entries before
    it have been handed to the store, the entries after it are not tried,
    and no other call is made to the store. *)
Theorem fetchSnapshot_stops_at_a_refused_item
    w c country chart limit noItunes rss sourceURL chartEvents snapshotID pre bad post e :
  ValidChart chart = true ->
  FetchTopChart (fw_net w) country chart limit = (Ok (rss, sourceURL), chartEvents) ->
  RSSFeed.Results (Feed rss) = pre ++ bad :: post ->
  fw_InsertSnapshot w (snapshotOf c country chart limit sourceURL) = Ok snapshotID ->
  (forall i item, (i < length pre)%nat -> fw_InsertChartItem w i item = None) ->
  (forall item, fw_InsertChartItem w (length pre) item = Some e) ->
  lookupsAnswer w ->
  let r := (fetchSnapshot w c country chart limit noItunes).1 in
  let events := (fetchSnapshot w c country chart limit noItunes).2 in
  r = Err e
  /\ insertedSnapshots events
     = [{| ID := 0; CollectedAt := time_Now c; Country := country; Chart := chart;
           Limit := limit; SourceURL := sourceURL |}]
  /\ map ChartItem.AppID (insertedItems events) = map RSSApp.ID (pre ++ [bad])
  /\ map ChartItem.Rank (insertedItems events)
     = map (fun i => Z.of_nat i + 1) (seq 0 (length pre + 1)).
Proof.
  intros Hv Hf Hres Hs Hacc Hbad Hw r events. subst r events.
  assert (Hne : RSSFeed.Results (Feed rss) <> []) by (rewrite Hres; by destruct pre).
  rewrite (fetchSnapshot_run _ _ _ _ _ _ _ _ _ _ Hv Hf Hne Hs), Hres.
  destruct (insertItems_refused w country noItunes snapshotID 0 pre bad post e)
    as (evs & -> & Hi & Hsn).
  { by apply lookupsAnswer_no_panic. }
  { intros i item Hi. apply Hacc. lia. }
  { apply Hbad. }
  cbn [fst snd bind].
  destruct (chart_events_insert_nothing chartEvents) as (Hci & Hcs & _).
  rewrite insertedSnapshots_app, insertedItems_app, Hci, Hcs.
  change (insertedItems (?e :: evs)) with (insertedItems [e] ++ insertedItems evs).
  change (insertedSnapshots (?e :: evs)) with (insertedSnapshots [e] ++ insertedSnapshots evs).
  rewrite Hi, Hsn. split; [done|]. split; [done|]. simpl.
  assert (Hgen : forall idx items,
            map ChartItem.AppID (itemsFrom w country noItunes snapshotID idx items)
            = map RSSApp.ID items
            /\ map ChartItem.Rank (itemsFrom w country noItunes snapshotID idx items)
               = map (fun i => Z.of_nat i + 1) (seq idx (length items))).
  { intros idx items. revert idx. induction items as [|x xs IH]; intros idx; [done|].
    rewrite itemsFrom_cons. destruct (IH (S idx)) as [IH1 IH2]. simpl.
    rewrite IH1, IH2. unfold chartItemOf.
    destruct (ExtractGenres (RSSApp.Genres x)) as [genres ids].
    by destruct (metaOf w country noItunes idx x). }
  destruct (Hgen 0%nat (pre ++ [bad])) as [H1 H2].
  rewrite H1, H2, length_app. done.
Qed.

(** A feed that lists one app twice, and a store that refuses the second
    item. *)
Definition exTwiceResponse : RSSResponse :=
  {| Feed := RSSFeed.mk "Top Free Apps" "kr" ""
               [RSSApp.mk "Maker" "1001" "Bank App" "2020-01-01" "apps" "" [] "";
                RSSApp.mk "Maker" "1001" "Bank App" "2020-01-01" "apps" "" [] ""] [] |}.

Definition exRefusingWorld : FetchWorld :=
  {| fw_net := {| http_NewRequest := fun _ => None;
                  client_Do := fun _ _ =>
                    Ok {| StatusCode := 200; Status := "200 OK";
                          Decoded := Ok exTwiceResponse |};
                  ctx_Done := fun _ => None |};
     fw_lookupDo := fun _ _ => Err (errorString "dial tcp: connection refused");
     fw_InsertSnapshot := fun _ => Ok 7;
     fw_InsertChartItem := fun i _ =>
       if (i =? 1)%nat
       then Some (errorString "UNIQUE constraint failed: chart_items.snapshot_id, chart_items.app_id")
       else None |}.

Lemma fetchSnapshot_stops_at_a_refused_item_witness :
  (fetchSnapshot exRefusingWorld exClock "kr" "top-free" 100 true).1
  = Err (errorString "UNIQUE constraint failed: chart_items.snapshot_id, chart_items.app_id")
  /\ map ChartItem.Rank
       (insertedItems (fetchSnapshot exRefusingWorld exClock "kr" "top-free" 100 true).2)
     = [1; 2].
Proof.
  destruct (fetchSnapshot_stops_at_a_refused_item exRefusingWorld exClock "kr" "top-free" 100
              true exTwiceResponse (chartURL "kr" "top-free" 100)
              [Request (chartURL "kr" "top-free" 100)] 7
              [RSSApp.mk "Maker" "1001" "Bank App" "2020-01-01" "apps" "" [] ""]
              (RSSApp.mk "Maker" "1001" "Bank App" "2020-01-01" "apps" "" [] "") []
              (errorString "UNIQUE constraint failed: chart_items.snapshot_id, chart_items.app_id"))
    as (Hr & _ & _ & Hranks).
  - reflexivity.
  - reflexivity.
  - reflexivity.
  - reflexivity.
  - intros i item Hi. simpl in Hi. assert (i = 0%nat) as -> by lia. reflexivity.
  - intros item. reflexivity.
  - intros i url. exact I.
  - split; [exact Hr | exact Hranks].
Defined.

(** ** Reading a fetched snapshot *)

Lemma foldr_insertByRank_sorted (l : list ChartItem.t) :
  Sorted (fun a b => ChartItem.Rank a <= ChartItem.Rank b) l ->
  foldr insertByRank [] l = l.
Proof.
  induction 1 as [|x l Hs IH Hx]; [done|]. simpl. rewrite IH.
  destruct Hx as [|y r Hxy]; [done|]. simpl.
  by replace (ChartItem.Rank x <=? ChartItem.Rank y) with true
    by (symmetry; by apply Z.leb_le).
Qed.

Lemma itemsFrom_read_back_sorted w country noItunes snapshotID idx entries :
  let written := map (fun it => itemOfRow (rowOfItem it))
                     (itemsFrom w country noItunes snapshotID idx entries) in
  Sorted (fun a b => ChartItem.Rank a <= ChartItem.Rank b) written
  /\ Forall (fun it => ChartItem.SnapshotID it = snapshotID
                       /\ Z.of_nat idx + 1 <= ChartItem.Rank it) written.
Proof.
  revert idx. induction entries as [|x xs IH]; intros idx; [by split; constructor|].
  cbn zeta in *. rewrite itemsFrom_cons. cbn [map].
  destruct (IH (S idx)) as [IHs IHf].
  assert (Hx : ChartItem.SnapshotID
                 (itemOfRow (rowOfItem (chartItemOf snapshotID idx x
                                          (metaOf w country noItunes idx x)))) = snapshotID
               /\ ChartItem.Rank
                    (itemOfRow (rowOfItem (chartItemOf snapshotID idx x
                                             (metaOf w country noItunes idx x))))
                  = Z.of_nat idx + 1).
  { unfold chartItemOf. destruct (ExtractGenres (RSSApp.Genres x)) as [genres ids].
    by destruct (metaOf w country noItunes idx x). }
  destruct Hx as [Hsid Hrank]. split.
  - constructor; [done|].
    destruct (map _ (itemsFrom w country noItunes snapshotID (S idx) xs)) as [|y ys];
      constructor.
    apply Forall_cons in IHf as [[_ Hy] _]. lia.
  - constructor; [split; [done | lia]|].
    eapply Forall_impl; [exact IHf|]. intros it [? ?]. split; [done | lia].
Qed.

Lemma itemsFrom_read_back_ids w country noItunes snapshotID idx entries :
  map ChartItem.AppID
      (map (fun it => itemOfRow (rowOfItem it))
           (itemsFrom w country noItunes snapshotID idx entries))
  = map RSSApp.ID entries.
Proof.
  revert idx. induction entries as [|x xs IH]; intros idx; [done|].
  rewrite itemsFrom_cons. cbn [map]. rewrite IH. f_equal.
  unfold chartItemOf. destruct (ExtractGenres (RSSApp.Genres x)) as [genres ids].
  by destruct (metaOf w country noItunes idx x).
Qed.

(** X30. A fetched snapshot is read back in feed order.  Under the
    conditions of X27, let the items of the fetch be appended, as the
    store reads them back, to the rows of a store none of which refers to the
    new snapshot's id: [GetSnapshotItems] for that id then returns exactly
    those items, in the order of the feed. *)
Theorem fetched_items_are_read_back_in_feed_order
    w c country chart limit noItunes rss sourceURL chartEvents snapshotID (st : Store) :
  ValidChart chart = true ->
  FetchTopChart (fw_net w) country chart limit = (Ok (rss, sourceURL), chartEvents) ->
  RSSFeed.Results (Feed rss) <> [] ->
  fw_InsertSnapshot w (snapshotOf c country chart limit sourceURL) = Ok snapshotID ->
  (forall i item, fw_InsertChartItem w i item = None) ->
  lookupsAnswer w ->
  (forall it, it ∈ chart_items st -> ChartItem.SnapshotID it <> snapshotID) ->
  let written := map (fun it => itemOfRow (rowOfItem it))
                     (insertedItems (fetchSnapshot w c country chart limit noItunes).2) in
  GetSnapshotItems {| snapshots := snapshots st; chart_items := chart_items st ++ written |}
                   snapshotID
  = Ok written
  /\ map ChartItem.AppID written = map RSSApp.ID (RSSFeed.Results (Feed rss)).
Proof.
  intros Hv Hf Hne Hs Hacc Hw Hfresh.
  rewrite (fetchSnapshot_run _ _ _ _ _ _ _ _ _ _ Hv Hf Hne Hs).
  destruct (insertItems_accepted w country noItunes snapshotID 0 (RSSFeed.Results (Feed rss)))
    as (evs & -> & Hi & _).
  { by apply lookupsAnswer_no_panic. }
  { intros j it _. apply Hacc. }
  cbn [fst snd].
  destruct (chart_events_insert_nothing chartEvents) as (Hci & _).
  rewrite insertedItems_app, Hci.
  change (insertedItems (?e :: evs)) with (insertedItems [e] ++ insertedItems evs).
  rewrite Hi. cbn [insertedItems omap list_omap app].
  destruct (itemsFrom_read_back_sorted w country noItunes snapshotID 0
              (RSSFeed.Results (Feed rss))) as [Hsorted Hall].
  cbn zeta in *.
  set (written := map (fun it => itemOfRow (rowOfItem it))
                      (itemsFrom w country noItunes snapshotID 0 (RSSFeed.Results (Feed rss))))
    in *.
  split.
  - unfold GetSnapshotItems. cbn [chart_items]. f_equal. rewrite filter_app.
    replace (filter (fun it => ChartItem.SnapshotID it = snapshotID) (chart_items st))
      with (@nil ChartItem.t).
    2: { symmetry. induction (chart_items st) as [|x l IH]; [done|].
         rewrite filter_cons, decide_False by (apply Hfresh; left).
         apply IH. intros it Hit. apply Hfresh. by right. }
    replace (filter (fun it => ChartItem.SnapshotID it = snapshotID) written) with written.
    2: { symmetry. clear Hsorted. induction Hall as [|x l [Hx _] _ IH]; [done|].
         by rewrite filter_cons, decide_True, IH by done. }
    by apply foldr_insertByRank_sorted.
  - apply itemsFrom_read_back_ids.
Qed.

Lemma fetched_items_are_read_back_in_feed_order_witness :
  exists written,
    GetSnapshotItems {| snapshots := snapshots exStore;
                        chart_items := chart_items exStore ++ written |} 7
    = Ok written
    /\ map ChartItem.AppID written = ["1001"%string].
Proof.
  eexists.
  apply (fetched_items_are_read_back_in_feed_order exFetchWorld exClock "kr" "top-free" 100
           false exResponse (chartURL "kr" "top-free" 100)
           [Request (chartURL "kr" "top-free" 100); Wait 500;
            Request (chartURL "kr" "top-free" 100)] 7 exStore).
  - reflexivity.
  - reflexivity.
  - discriminate.
  - reflexivity.
  - reflexivity.
  - exact exFetchWorld_answers.
  - intros it Hit. vm_compute in Hit.
    repeat (apply elem_of_cons in Hit as [-> | Hit]; [vm_compute; discriminate|]).
    by apply elem_of_nil in Hit.
Defined.
